(** * A promise-based modal host: shallow embedding and verified properties

    The development embeds [src/modal/ModalHost.tsx] (the modal provider,
    its event handlers and the global access shim), the form content
    ([FormModal]) and the page callback ([ModalFormPage.handleOpen]).

    Conventions of the embedding.
    - React state ([pending], [isMounted], [visualState]) is the value
      committed by the last render; a [setX] call appends to the update
      queue [updates], which [commit] folds into the state.  The handlers
      the provider attaches to its elements are those of the last render
      and read the committed values.
    - [resolve] and [cancel] are made by [useCallback] with dependency
      [pending] and handed to the content: they take the [pending] of the
      render that made them as an argument, and the content may call them
      at any later time.
    - Refs, the promise heap, [document.activeElement] and the microtask
      queue are mutated in place.
    - A node of the document is named by its position: [LayerNode p] is
      the node at child path [p] below the overlay element, [PageNode n]
      is a node of the page behind it.  The rendered content is a tree of
      elements and text nodes; an element carries the attributes the code
      looks at and the browser's verdict on whether it can take the focus.
    - The event being handled carries its flags: [preventDefault] sets
      [defaultPrevented] unless the listener is passive, as React's root
      listeners for [wheel] and [touchmove] are.
    - The content calls the controls it was given from its event handlers
      and callbacks, in a turn after the one that rendered it; a content
      that calls a control from its own mount effect is not among the
      runs considered.
    - A turn of the event loop runs the handlers of one event, renders,
      and runs the microtasks the handlers queued.  Whether React renders
      before or after those microtasks depends on the kind of event; the
      host's state at the end of the turn is the same either way
      ([render_and_microtasks_commute]).
    - [log] is a ghost trace of the calls a handler made, in program
      order; no handler reads it. *)

From Stdlib Require Import ZArith NArith Lia Ascii String.
From stdpp Require Import base list strings.

Set Warnings "-register-all".
Open Scope string_scope.
Open Scope list_scope.

(** ** JavaScript values and strings *)

(** A JavaScript string is a sequence of UTF-16 code units. *)
Definition jsstring := list N.

Definition utf16 (s : string) : jsstring :=
  Ascii.N_of_ascii <$> String.list_ascii_of_string s.

Inductive Value :=
  | VNull
  | VUndefined
  | VString (s : jsstring)
  | VObject (fields : list (string * Value)).

Inductive Error := MkError (message : string).

(** The outcome of a call: a returned value or a thrown exception. *)
Inductive Completion (A : Type) :=
  | Normal (a : A)
  | Throw (e : Error).
Arguments Normal {A} a.
Arguments Throw {A} e.

(** ** Document model *)

Inductive NodeRef :=
  | PageNode (n : nat)
  | LayerNode (path : list nat).

Global Instance NodeRef_eq_dec : EqDecision NodeRef.
Proof. solve_decision. Defined.

(** The kind of an element.  [tag_a] is an [a] element, of HTML or of SVG;
    [tag_summary of_details] is a [summary], with whether it is the
    summary of its parent [details]; [tag_other name] is an element of
    any other name. *)
Inductive Tag :=
  | tag_a | tag_button | tag_textarea | tag_input | tag_select
  | tag_summary (of_details : bool)
  | tag_other (name : string).

Global Instance Tag_eq_dec : EqDecision Tag.
Proof. solve_decision. Defined.

(** What the development records of an element.  [el_href],
    [el_disabled], [el_aria_hidden] and [el_hidden] say whether the
    content attribute is present; [el_tabindex] and [el_role] are the
    values of the [tabindex] and [role] attributes, [None] when absent.
    [el_focusable] is the browser's verdict on the element: whether it
    takes the focus when [focus()] is called on it (it is rendered, not
    disabled, not inert, and of a kind that can be focused). *)
Record Attrs := {
  el_tag : Tag;
  el_href : bool;
  el_disabled : bool;
  el_tabindex : option string;
  el_aria_hidden : bool;
  el_hidden : bool;
  el_role : option string;
  el_focusable : bool
}.

Inductive Dom :=
  | El (a : Attrs) (kids : list Dom)
  | Text (data : string).

(** An element found by a query: its position and its attributes. *)
Definition HTMLElement : Type := list nat * Attrs.

(** The element descendants of the node at path [base], in document
    order; a path counts the child nodes, text nodes included. *)
Fixpoint descendants (base : list nat) (d : Dom) : list HTMLElement :=
  match d with
  | Text _ => []
  | El _ kids =>
      (fix go (i : nat) (ks : list Dom) : list HTMLElement :=
         match ks with
         | [] => []
         | k :: ks' =>
             match k with
             | El a _ => [(base ++ [i], a)]
             | Text _ => []
             end ++ descendants (base ++ [i]) k ++ go (S i) ks'
         end) 0%nat kids
  end.

(** *** The [tabIndex] property

    The rules for parsing integers: leading ASCII whitespace is skipped,
    a sign may follow, then at least one digit; what comes after the
    digits is ignored. *)
Definition is_ascii_whitespace (c : ascii) : bool :=
  let n := Ascii.N_of_ascii c in
  (n =? 9)%N || (n =? 10)%N || (n =? 12)%N || (n =? 13)%N || (n =? 32)%N.

Definition digit (c : ascii) : option Z :=
  let n := Z.of_N (Ascii.N_of_ascii c) in
  if (48 <=? n)%Z && (n <=? 57)%Z then Some (n - 48)%Z else None.

Fixpoint skip_ascii_whitespace (s : string) : string :=
  match s with
  | String c s' => if is_ascii_whitespace c then skip_ascii_whitespace s' else s
  | EmptyString => s
  end.

(** The digits [s] starts with, read in base ten after [acc]. *)
Fixpoint collect_digits (acc : Z) (s : string) : Z :=
  match s with
  | String c s' =>
      match digit c with
      | Some d => collect_digits (10 * acc + d)%Z s'
      | None => acc
      end
  | EmptyString => acc
  end.

Definition starts_with_digit (s : string) : bool :=
  match s with
  | String c _ => match digit c with Some _ => true | None => false end
  | EmptyString => false
  end.

Definition parse_integer (s : string) : option Z :=
  let s1 := skip_ascii_whitespace s in
  let signed :=
    match s1 with
    | String "-" r => (true, r)
    | String "+" r => (false, r)
    | _ => (false, s1)
    end in
  if starts_with_digit signed.2 then
    Some (if signed.1 then - collect_digits 0 signed.2
          else collect_digits 0 signed.2)%Z
  else None.

(** What [tabIndex] returns without a usable attribute. *)
Definition default_tabIndex (t : Tag) : Z :=
  match t with
  | tag_a | tag_button | tag_textarea | tag_input | tag_select => 0%Z
  | tag_summary of_details => if of_details then 0%Z else (-1)%Z
  | tag_other name =>
      if (name =? "area")%string || (name =? "frame")%string
         || (name =? "iframe")%string || (name =? "object")%string
      then 0%Z else (-1)%Z
  end.

(** The range of the IDL type [long]. *)
Definition in_long_range (n : Z) : bool :=
  (-2147483648 <=? n)%Z && (n <=? 2147483647)%Z.

(** The [tabIndex] IDL property: the attribute's value when it parses to
    an integer in the range of [long], otherwise the default of the
    element's kind. *)
Definition tabIndex (a : Attrs) : Z :=
  match el_tabindex a ≫= parse_integer with
  | Some n => if in_long_range n then n else default_tabIndex (el_tag a)
  | None => default_tabIndex (el_tag a)
  end.

(** [a.contains(b)]: [a] is an inclusive ancestor of [b]. *)
Definition contains (a : list nat) (b : NodeRef) : bool :=
  match b with
  | LayerNode p => bool_decide (a `prefix_of` p)
  | PageNode _ => false
  end.

Definition div : Attrs :=
  {| el_tag := tag_other "div"; el_href := false; el_disabled := false;
     el_tabindex := None; el_aria_hidden := false; el_hidden := false;
     el_role := None; el_focusable := false |}.

(** Positions fixed by the provider's JSX: overlay > content > scroll region. *)
Definition overlayPath : list nat := [].
Definition dialogPath : list nat := [0%nat].
Definition scrollContentPath : list nat := [0%nat; 0%nat].

Definition overlayNode : NodeRef := LayerNode overlayPath.
Definition dialogNode : NodeRef := LayerNode dialogPath.

(** The element [dialogRef] points to, around the rendered content. *)
Definition dialogElement (content : list Dom) : Dom :=
  El div [El div content].

(** ** The host's state *)

Inductive VisualState := vs_open | vs_closed | vs_unmounted.

Global Instance VisualState_eq_dec : EqDecision VisualState.
Proof. solve_decision. Defined.

(** What [open] is asked to render. *)
Inductive OpenRender :=
  | FormModalRender
  | CustomRender (tag : nat).

(** [resolvePromise] is the resolving function of the promise created by
    [open], named by the promise's index in the heap. *)
Record PendingRequest := {
  render : OpenRender;
  resolvePromise : nat
}.

Inductive PromiseState :=
  | Pending
  | Fulfilled (v : Value).

(** What [openWithRender] hands back: a promise of the host's heap, or a
    promise created already rejected. *)
Inductive Future :=
  | FHost (p : nat)
  | FRejected (e : Error).

Inductive Update :=
  | SetPending (p : option PendingRequest)
  | SetIsMounted (b : bool)
  | SetVisualState (v : VisualState).

Inductive Microtask := RestoreFocus.

Inductive OpenFunction := HostOpen.

Inductive Effect :=
  | EResolvePromise (p : nat) (v : Value)
  | ESetState (u : Update)
  | EQueueMicrotask (m : Microtask)
  | ERunMicrotask (m : Microtask)
  | EFocus (n : NodeRef)
  | EPreventDefault
  | EStopPropagation.

Record Store := {
  (* React state, as committed by the last render *)
  pending : option PendingRequest;
  isMounted : bool;
  visualState : VisualState;
  (* refs *)
  previousActiveElementRef : option NodeRef;
  restoreFocusOnCloseRef : bool;
  prefersReducedMotionRef : bool;
  (* module-level variable *)
  externalOpenRef : option OpenFunction;
  (* React update queue *)
  updates : list Update;
  (* environment *)
  promises : list PromiseState;
  activeElement : option NodeRef;
  microtasks : list Microtask;
  contentDom : list Dom;
  (* the event being dispatched *)
  defaultPrevented : bool;
  propagationStopped : bool;
  inPassiveListener : bool;
  (* ghost trace *)
  log : list Effect
}.

(** [const isOpen = !!pending] *)
Definition isOpen (s : Store) : bool :=
  match pending s with Some _ => true | None => false end.

(** [dialogRef.current]: attached exactly while the layer is rendered. *)
Definition dialogRef (s : Store) : option Dom :=
  if isMounted s then Some (dialogElement (contentDom s)) else None.

Definition scrollContentRef (s : Store) : option Dom :=
  if isMounted s then Some (El div (contentDom s)) else None.

(** Field updates. *)
Definition with_pending (x : option PendingRequest) (s : Store) : Store :=
  {| pending := x; isMounted := isMounted s; visualState := visualState s;
     previousActiveElementRef := previousActiveElementRef s;
     restoreFocusOnCloseRef := restoreFocusOnCloseRef s;
     prefersReducedMotionRef := prefersReducedMotionRef s;
     externalOpenRef := externalOpenRef s; updates := updates s;
     promises := promises s; activeElement := activeElement s;
     microtasks := microtasks s; contentDom := contentDom s;
     defaultPrevented := defaultPrevented s;
     propagationStopped := propagationStopped s;
     inPassiveListener := inPassiveListener s; log := log s |}.

Definition with_isMounted (x : bool) (s : Store) : Store :=
  {| pending := pending s; isMounted := x; visualState := visualState s;
     previousActiveElementRef := previousActiveElementRef s;
     restoreFocusOnCloseRef := restoreFocusOnCloseRef s;
     prefersReducedMotionRef := prefersReducedMotionRef s;
     externalOpenRef := externalOpenRef s; updates := updates s;
     promises := promises s; activeElement := activeElement s;
     microtasks := microtasks s; contentDom := contentDom s;
     defaultPrevented := defaultPrevented s;
     propagationStopped := propagationStopped s;
     inPassiveListener := inPassiveListener s; log := log s |}.

Definition with_visualState (x : VisualState) (s : Store) : Store :=
  {| pending := pending s; isMounted := isMounted s; visualState := x;
     previousActiveElementRef := previousActiveElementRef s;
     restoreFocusOnCloseRef := restoreFocusOnCloseRef s;
     prefersReducedMotionRef := prefersReducedMotionRef s;
     externalOpenRef := externalOpenRef s; updates := updates s;
     promises := promises s; activeElement := activeElement s;
     microtasks := microtasks s; contentDom := contentDom s;
     defaultPrevented := defaultPrevented s;
     propagationStopped := propagationStopped s;
     inPassiveListener := inPassiveListener s; log := log s |}.

Definition with_previousActiveElementRef (x : option NodeRef) (s : Store)
  : Store :=
  {| pending := pending s; isMounted := isMounted s;
     visualState := visualState s; previousActiveElementRef := x;
     restoreFocusOnCloseRef := restoreFocusOnCloseRef s;
     prefersReducedMotionRef := prefersReducedMotionRef s;
     externalOpenRef := externalOpenRef s; updates := updates s;
     promises := promises s; activeElement := activeElement s;
     microtasks := microtasks s; contentDom := contentDom s;
     defaultPrevented := defaultPrevented s;
     propagationStopped := propagationStopped s;
     inPassiveListener := inPassiveListener s; log := log s |}.

Definition with_restoreFocusOnCloseRef (x : bool) (s : Store) : Store :=
  {| pending := pending s; isMounted := isMounted s;
     visualState := visualState s;
     previousActiveElementRef := previousActiveElementRef s;
     restoreFocusOnCloseRef := x;
     prefersReducedMotionRef := prefersReducedMotionRef s;
     externalOpenRef := externalOpenRef s; updates := updates s;
     promises := promises s; activeElement := activeElement s;
     microtasks := microtasks s; contentDom := contentDom s;
     defaultPrevented := defaultPrevented s;
     propagationStopped := propagationStopped s;
     inPassiveListener := inPassiveListener s; log := log s |}.

Definition with_prefersReducedMotionRef (x : bool) (s : Store) : Store :=
  {| pending := pending s; isMounted := isMounted s;
     visualState := visualState s;
     previousActiveElementRef := previousActiveElementRef s;
     restoreFocusOnCloseRef := restoreFocusOnCloseRef s;
     prefersReducedMotionRef := x; externalOpenRef := externalOpenRef s;
     updates := updates s; promises := promises s;
     activeElement := activeElement s; microtasks := microtasks s;
     contentDom := contentDom s; defaultPrevented := defaultPrevented s;
     propagationStopped := propagationStopped s;
     inPassiveListener := inPassiveListener s; log := log s |}.

Definition with_externalOpenRef (x : option OpenFunction) (s : Store) : Store :=
  {| pending := pending s; isMounted := isMounted s;
     visualState := visualState s;
     previousActiveElementRef := previousActiveElementRef s;
     restoreFocusOnCloseRef := restoreFocusOnCloseRef s;
     prefersReducedMotionRef := prefersReducedMotionRef s;
     externalOpenRef := x; updates := updates s; promises := promises s;
     activeElement := activeElement s; microtasks := microtasks s;
     contentDom := contentDom s; defaultPrevented := defaultPrevented s;
     propagationStopped := propagationStopped s;
     inPassiveListener := inPassiveListener s; log := log s |}.

Definition with_updates (x : list Update) (s : Store) : Store :=
  {| pending := pending s; isMounted := isMounted s;
     visualState := visualState s;
     previousActiveElementRef := previousActiveElementRef s;
     restoreFocusOnCloseRef := restoreFocusOnCloseRef s;
     prefersReducedMotionRef := prefersReducedMotionRef s;
     externalOpenRef := externalOpenRef s; updates := x;
     promises := promises s; activeElement := activeElement s;
     microtasks := microtasks s; contentDom := contentDom s;
     defaultPrevented := defaultPrevented s;
     propagationStopped := propagationStopped s;
     inPassiveListener := inPassiveListener s; log := log s |}.

Definition with_promises (x : list PromiseState) (s : Store) : Store :=
  {| pending := pending s; isMounted := isMounted s;
     visualState := visualState s;
     previousActiveElementRef := previousActiveElementRef s;
     restoreFocusOnCloseRef := restoreFocusOnCloseRef s;
     prefersReducedMotionRef := prefersReducedMotionRef s;
     externalOpenRef := externalOpenRef s; updates := updates s;
     promises := x; activeElement := activeElement s;
     microtasks := microtasks s; contentDom := contentDom s;
     defaultPrevented := defaultPrevented s;
     propagationStopped := propagationStopped s;
     inPassiveListener := inPassiveListener s; log := log s |}.

Definition with_activeElement (x : option NodeRef) (s : Store) : Store :=
  {| pending := pending s; isMounted := isMounted s;
     visualState := visualState s;
     previousActiveElementRef := previousActiveElementRef s;
     restoreFocusOnCloseRef := restoreFocusOnCloseRef s;
     prefersReducedMotionRef := prefersReducedMotionRef s;
     externalOpenRef := externalOpenRef s; updates := updates s;
     promises := promises s; activeElement := x; microtasks := microtasks s;
     contentDom := contentDom s; defaultPrevented := defaultPrevented s;
     propagationStopped := propagationStopped s;
     inPassiveListener := inPassiveListener s; log := log s |}.

Definition with_microtasks (x : list Microtask) (s : Store) : Store :=
  {| pending := pending s; isMounted := isMounted s;
     visualState := visualState s;
     previousActiveElementRef := previousActiveElementRef s;
     restoreFocusOnCloseRef := restoreFocusOnCloseRef s;
     prefersReducedMotionRef := prefersReducedMotionRef s;
     externalOpenRef := externalOpenRef s; updates := updates s;
     promises := promises s; activeElement := activeElement s;
     microtasks := x; contentDom := contentDom s;
     defaultPrevented := defaultPrevented s;
     propagationStopped := propagationStopped s;
     inPassiveListener := inPassiveListener s; log := log s |}.

Definition with_contentDom (x : list Dom) (s : Store) : Store :=
  {| pending := pending s; isMounted := isMounted s;
     visualState := visualState s;
     previousActiveElementRef := previousActiveElementRef s;
     restoreFocusOnCloseRef := restoreFocusOnCloseRef s;
     prefersReducedMotionRef := prefersReducedMotionRef s;
     externalOpenRef := externalOpenRef s; updates := updates s;
     promises := promises s; activeElement := activeElement s;
     microtasks := microtasks s; contentDom := x;
     defaultPrevented := defaultPrevented s;
     propagationStopped := propagationStopped s;
     inPassiveListener := inPassiveListener s; log := log s |}.

Definition with_defaultPrevented (x : bool) (s : Store) : Store :=
  {| pending := pending s; isMounted := isMounted s;
     visualState := visualState s;
     previousActiveElementRef := previousActiveElementRef s;
     restoreFocusOnCloseRef := restoreFocusOnCloseRef s;
     prefersReducedMotionRef := prefersReducedMotionRef s;
     externalOpenRef := externalOpenRef s; updates := updates s;
     promises := promises s; activeElement := activeElement s;
     microtasks := microtasks s; contentDom := contentDom s;
     defaultPrevented := x; propagationStopped := propagationStopped s;
     inPassiveListener := inPassiveListener s;
     log := log s |}.

Definition with_propagationStopped (x : bool) (s : Store) : Store :=
  {| pending := pending s; isMounted := isMounted s;
     visualState := visualState s;
     previousActiveElementRef := previousActiveElementRef s;
     restoreFocusOnCloseRef := restoreFocusOnCloseRef s;
     prefersReducedMotionRef := prefersReducedMotionRef s;
     externalOpenRef := externalOpenRef s; updates := updates s;
     promises := promises s; activeElement := activeElement s;
     microtasks := microtasks s; contentDom := contentDom s;
     defaultPrevented := defaultPrevented s; propagationStopped := x;
     inPassiveListener := inPassiveListener s;
     log := log s |}.

Definition with_inPassiveListener (x : bool) (s : Store) : Store :=
  {| pending := pending s; isMounted := isMounted s;
     visualState := visualState s;
     previousActiveElementRef := previousActiveElementRef s;
     restoreFocusOnCloseRef := restoreFocusOnCloseRef s;
     prefersReducedMotionRef := prefersReducedMotionRef s;
     externalOpenRef := externalOpenRef s; updates := updates s;
     promises := promises s; activeElement := activeElement s;
     microtasks := microtasks s; contentDom := contentDom s;
     defaultPrevented := defaultPrevented s;
     propagationStopped := propagationStopped s; inPassiveListener := x;
     log := log s |}.

Definition with_log (x : list Effect) (s : Store) : Store :=
  {| pending := pending s; isMounted := isMounted s;
     visualState := visualState s;
     previousActiveElementRef := previousActiveElementRef s;
     restoreFocusOnCloseRef := restoreFocusOnCloseRef s;
     prefersReducedMotionRef := prefersReducedMotionRef s;
     externalOpenRef := externalOpenRef s; updates := updates s;
     promises := promises s; activeElement := activeElement s;
     microtasks := microtasks s; contentDom := contentDom s;
     defaultPrevented := defaultPrevented s;
     propagationStopped := propagationStopped s;
     inPassiveListener := inPassiveListener s; log := x |}.

(** ** A state monad over the store *)

Definition M (A : Type) : Type := Store → A * Store.

Global Instance M_ret : MRet M := λ A a s, (a, s).
Global Instance M_bind : MBind M := λ A B f m s, f (m s).1 (m s).2.

Definition exec {A} (m : M A) (s : Store) : Store := (m s).2.
Definition eval {A} (m : M A) (s : Store) : A := (m s).1.

Definition gets {A} (f : Store → A) : M A := λ s, (f s, s).
Definition modify (f : Store → Store) : M unit := λ s, ((), f s).
Definition emit (e : Effect) : M unit :=
  modify (λ s, with_log (log s ++ [e]) s).

(** [if (b) { m }] *)
Definition when_ (b : bool) (m : M unit) : M unit :=
  if b then m else mret ().

(** [setPending], [setIsMounted] and [setVisualState] enqueue an update. *)
Definition setState (u : Update) : M unit :=
  modify (λ s, with_updates (updates s ++ [u]) s) ;; emit (ESetState u).

Definition setPending (p : option PendingRequest) : M unit :=
  setState (SetPending p).
Definition setIsMounted (b : bool) : M unit := setState (SetIsMounted b).
Definition setVisualState (v : VisualState) : M unit :=
  setState (SetVisualState v).

(** A promise's resolving function acts on the first call only. *)
Definition settle (p : nat) (v : Value) (ps : list PromiseState)
  : list PromiseState :=
  match ps !! p with
  | Some Pending => <[p := Fulfilled v]> ps
  | _ => ps
  end.

(** [req.resolvePromise(v)] *)
Definition call_resolvePromise (req : PendingRequest) (v : Value) : M unit :=
  modify (λ s, with_promises (settle (resolvePromise req) v (promises s)) s) ;;
  emit (EResolvePromise (resolvePromise req) v).

Definition queueMicrotask (m : Microtask) : M unit :=
  modify (λ s, with_microtasks (microtasks s ++ [m]) s) ;;
  emit (EQueueMicrotask m).

(** [el.focus()] on an element that takes the focus: an element the form
    holds a ref to, or the element that had the focus when [open] was
    called. *)
Definition focus (n : NodeRef) : M unit :=
  modify (with_activeElement (Some n)) ;; emit (EFocus n).

(** [el.focus()] on an element found by a query: the call is made, and
    the focus moves only when the browser lets the element take it. *)
Definition HTMLElement_focus (el : HTMLElement) : M unit :=
  if el_focusable el.2 then focus (LayerNode el.1)
  else emit (EFocus (LayerNode el.1)).

(** [e.preventDefault()]: the call is ignored while the event is handled
    by a passive listener. *)
Definition preventDefault : M unit :=
  passive ← gets inPassiveListener;
  when_ (negb passive) (modify (with_defaultPrevented true)) ;;
  emit EPreventDefault.

(** ** Global access shim *)

Definition setExternalOpen (fn : option OpenFunction) : M unit :=
  modify (with_externalOpenRef fn).

(** ** ModalProvider *)

(** [open]: the promise executor runs synchronously inside [new Promise]. *)
Definition open (r : OpenRender) : M Future :=
  p ← gets (λ s, length (promises s));
  modify (λ s, with_promises (promises s ++ [Pending]) s) ;;
  active ← gets activeElement;
  modify (with_previousActiveElementRef active) ;;
  setPending (Some {| render := r; resolvePromise := p |}) ;;
  setIsMounted true ;;
  setVisualState vs_open ;;
  mret (FHost p).

Definition call_open (fn : OpenFunction) (r : OpenRender) : M Future :=
  match fn with HostOpen => open r end.

Definition openWithRender (r : OpenRender) : M (Completion Future) :=
  ref ← gets externalOpenRef;
  match ref with
  | None => mret (Normal (FRejected (MkError "ModalProvider is not mounted")))
  | Some fn => f ← call_open fn r; mret (Normal f)
  end.

(** [useOpenModal], given the value of the context. *)
Definition useOpenModal (ctx : option OpenFunction) : Completion OpenFunction :=
  match ctx with
  | None => Throw (MkError "useOpenModal must be used within ModalProvider")
  | Some fn => Normal fn
  end.

(** The media query listener [update], with [mql.matches] as argument. *)
Definition update (matches : bool) : M unit :=
  modify (with_prefersReducedMotionRef matches).

(** The functions below are made anew whenever [pending] changes, and
    close over the [pending] of the render that made them. *)
Definition resolve (pending : option PendingRequest) (value : Value)
  : M unit :=
  match pending with
  | None => mret ()
  | Some req =>
      call_resolvePromise req value ;;
      modify (with_restoreFocusOnCloseRef true) ;;
      setVisualState vs_closed ;;
      reduced ← gets prefersReducedMotionRef;
      when_ reduced (
        setIsMounted false ;;
        setVisualState vs_unmounted ;;
        setPending None ;;
        owed ← gets restoreFocusOnCloseRef;
        when_ owed (queueMicrotask RestoreFocus))
  end.

Definition cancel (pending : option PendingRequest) : M unit :=
  match pending with
  | None => mret ()
  | Some req =>
      call_resolvePromise req VNull ;;
      modify (with_restoreFocusOnCloseRef true) ;;
      setVisualState vs_closed ;;
      reduced ← gets prefersReducedMotionRef;
      when_ reduced (
        setIsMounted false ;;
        setVisualState vs_unmounted ;;
        setPending None ;;
        owed ← gets restoreFocusOnCloseRef;
        when_ owed (queueMicrotask RestoreFocus))
  end.

(** Code of the last render calls the function that render made. *)
Definition current {A} (f : option PendingRequest → M A) : M A :=
  p ← gets pending; f p.

(** The callback passed to [queueMicrotask]. *)
Definition run_microtask (m : Microtask) : M unit :=
  match m with
  | RestoreFocus =>
      emit (ERunMicrotask RestoreFocus) ;;
      prev ← gets previousActiveElementRef;
      match prev with
      | Some el => focus el
      | None => mret ()
      end ;;
      modify (with_restoreFocusOnCloseRef false)
  end.

(** *** Focus trap *)

(** ['a[href], button:not([disabled]), textarea, input:not([disabled]),
     select, [tabindex]:not([tabindex="-1"])'] *)
Definition matches_selector (a : Attrs) : bool :=
  match el_tag a with
  | tag_a => el_href a
  | tag_button => negb (el_disabled a)
  | tag_textarea => true
  | tag_input => negb (el_disabled a)
  | tag_select => true
  | tag_summary _ | tag_other _ => false
  end
  || match el_tabindex a with
     | Some v => negb (v =? "-1")%string
     | None => false
     end.

Definition querySelectorAll (base : list nat) (container : Dom)
  : list HTMLElement :=
  filter (λ el, matches_selector el.2) (descendants base container).

Definition tabbable_filter (el : HTMLElement) : bool :=
  negb (el_aria_hidden el.2) && negb (tabIndex el.2 =? -1)%Z
  && negb (el_hidden el.2).

Definition tabbables (container : Dom) : list HTMLElement :=
  filter tabbable_filter (querySelectorAll dialogPath container).

Record KeyboardEvent := {
  key : string;
  shiftKey : bool
}.

Definition is_active (active : option NodeRef) (path : list nat) : bool :=
  bool_decide (active = Some (LayerNode path)).

Definition handleKeydown (e : KeyboardEvent) : M unit :=
  if (key e =? "Escape")%string || (key e =? "Esc")%string then
    preventDefault ;; current cancel
  else if (key e =? "Tab")%string then
    container ← gets dialogRef;
    match container with
    | None => mret ()
    | Some c =>
        match tabbables c with
        | [] => preventDefault
        | first :: _ =>
            let last := List.last (tabbables c) first in
            active ← gets activeElement;
            if negb (shiftKey e) && is_active active last.1 then
              preventDefault ;; HTMLElement_focus first
            else if shiftKey e
                    && (is_active active first.1 || is_active active dialogPath)
            then preventDefault ;; HTMLElement_focus last
            else mret ()
        end
    end
  else mret ().

(** *** Pointer, scroll and animation handlers *)

Record UIEvent := {
  target : option NodeRef;
  currentTarget : NodeRef
}.

Definition handleOverlayClick (e : UIEvent) : M unit :=
  when_ (bool_decide (target e = Some (currentTarget e))) (current cancel).

Definition stopPropagation : M unit :=
  modify (with_propagationStopped true) ;; emit EStopPropagation.

(** [node instanceof Node && !!dialogRef.current?.contains(node)];
    a target that is not a [Node] is [None]. *)
Definition isInsideDialog (node : option NodeRef) : M bool :=
  ref ← gets dialogRef;
  mret match node, ref with
       | Some n, Some _ => contains dialogPath n
       | _, _ => false
       end.

Definition isInsideScrollContent (node : option NodeRef) : M bool :=
  ref ← gets scrollContentRef;
  mret match node, ref with
       | Some n, Some _ => contains scrollContentPath n
       | _, _ => false
       end.

Definition handleWheelCapture (e : UIEvent) : M unit :=
  inDialog ← isInsideDialog (target e);
  inScroll ← isInsideScrollContent (target e);
  when_ (negb inDialog || negb inScroll) preventDefault.

Definition handleTouchMoveCapture (e : UIEvent) : M unit :=
  inDialog ← isInsideDialog (target e);
  inScroll ← isInsideScrollContent (target e);
  when_ (negb inDialog || negb inScroll) preventDefault.

Definition handleOverlayAnimationEnd (e : UIEvent) : M unit :=
  if bool_decide (target e ≠ Some (currentTarget e)) then mret ()
  else
    v ← gets visualState;
    when_ (bool_decide (v = vs_closed)) (
      setIsMounted false ;;
      setVisualState vs_unmounted ;;
      setPending None ;;
      owed ← gets restoreFocusOnCloseRef;
      when_ owed (queueMicrotask RestoreFocus)).

(** The effect with dependency list [[isOpen]]. *)
Definition isOpenEffect : M unit :=
  o ← gets isOpen;
  when_ o (setIsMounted true ;; setVisualState vs_open).

(** The effects run when the provider mounts and unmounts. *)
Definition mountProvider (mqlMatches : bool) : M unit :=
  setExternalOpen (Some HostOpen) ;; update mqlMatches.

Definition unmountProvider : M unit := setExternalOpen None.

(** ** Rendering, microtasks and event dispatch *)

Definition apply_update (s : Store) (u : Update) : Store :=
  match u with
  | SetPending p => with_pending p s
  | SetIsMounted b => with_isMounted b s
  | SetVisualState v => with_visualState v s
  end.

(** A render: the queued updates are applied in order. *)
Definition flush (s : Store) : Store :=
  with_updates [] (foldl apply_update s (updates s)).

(** Render, then run [isOpenEffect] if its dependency changed, then render
    what the effect enqueued. *)
Definition commit : M unit := λ s,
  let s1 := flush s in
  if Bool.eqb (isOpen s1) (isOpen s) then ((), s1)
  else ((), flush (exec isOpenEffect s1)).

Definition runMicrotasks : M unit := λ s,
  ((), foldl (λ st m, exec (run_microtask m) st) (with_microtasks [] s)
         (microtasks s)).

Inductive ControlCall :=
  | CallResolve (v : Value)
  | CallCancel.

(** Calls of the controls a render made for [pending]. *)
Definition call_control (pending : option PendingRequest) (c : ControlCall)
  : M unit :=
  match c with
  | CallResolve v => resolve pending v
  | CallCancel => cancel pending
  end.

Fixpoint call_controls (pending : option PendingRequest)
  (cs : list ControlCall) : M unit :=
  match cs with
  | [] => mret ()
  | c :: cs' => call_control pending c ;; call_controls pending cs'
  end.

(** What can happen in one turn of the event loop.  [EvControls] is a
    handler of the rendered content calling the controls of the last
    render; [EvRetainedControls] is a callback that has kept the controls
    it was given when [req] was rendered (a timer, the continuation of an
    [await]) and calls them now. *)
Inductive Event :=
  | EvOpen (r : OpenRender)
  | EvControls (calls : list ControlCall)
  | EvRetainedControls (req : PendingRequest) (calls : list ControlCall)
  | EvKeydown (e : KeyboardEvent) (tgt : NodeRef)
  | EvClick (tgt : NodeRef)
  | EvAnimationEnd (tgt : NodeRef)
  | EvWheel (tgt : option NodeRef)
  | EvTouchMove (tgt : option NodeRef)
  | EvMediaChange (matches : bool)
  | EvRender (content : list Dom)
  | EvFocusChange (n : option NodeRef).

Definition inside (base : list nat) (tgt : option NodeRef) : bool :=
  match tgt with
  | Some n => contains base n
  | None => false
  end.

(** React attaches its root listeners for [wheel], [touchmove] and
    [touchstart] as passive listeners; the event carries the flag while
    such a listener runs. *)
Definition passive_listener (m : M unit) : M unit :=
  modify (with_inPassiveListener true) ;;
  m ;;
  modify (with_inPassiveListener false).

(** Handlers are called along the path from the target to the overlay,
    innermost first, as the provider's JSX attaches them: [onKeyDown] on
    the content element and on the overlay; [onClick] on the content
    element ([stopPropagation]) and on the overlay; the capture handlers
    and [onAnimationEnd] on the overlay. *)
Definition dispatch (ev : Event) : M unit :=
  match ev with
  | EvOpen r => openWithRender r ;; mret ()
  | EvControls calls => current (λ p, call_controls p calls)
  | EvRetainedControls req calls => call_controls (Some req) calls
  | EvKeydown e tgt =>
      mounted ← gets isMounted;
      when_ mounted (
        when_ (contains dialogPath tgt) (handleKeydown e) ;;
        when_ (contains overlayPath tgt) (handleKeydown e))
  | EvClick tgt =>
      mounted ← gets isMounted;
      when_ mounted (
        if contains dialogPath tgt then stopPropagation
        else when_ (contains overlayPath tgt)
               (handleOverlayClick
                  {| target := Some tgt; currentTarget := overlayNode |}))
  | EvAnimationEnd tgt =>
      mounted ← gets isMounted;
      when_ (mounted && contains overlayPath tgt)
        (handleOverlayAnimationEnd
           {| target := Some tgt; currentTarget := overlayNode |})
  | EvWheel tgt =>
      mounted ← gets isMounted;
      when_ (mounted && inside overlayPath tgt)
        (passive_listener
           (handleWheelCapture
              {| target := tgt; currentTarget := overlayNode |}))
  | EvTouchMove tgt =>
      mounted ← gets isMounted;
      when_ (mounted && inside overlayPath tgt)
        (passive_listener
           (handleTouchMoveCapture
              {| target := tgt; currentTarget := overlayNode |}))
  | EvMediaChange matches => update matches
  | EvRender content => modify (with_contentDom content)
  | EvFocusChange n => modify (with_activeElement n)
  end.

(** A new event object: its flags are clear. *)
Definition begin_event : M unit :=
  modify (λ s, with_defaultPrevented false
                 (with_propagationStopped false
                    (with_inPassiveListener false s))).

Definition turn (ev : Event) : M unit :=
  begin_event ;; dispatch ev ;; commit ;; runMicrotasks.

Definition run (evs : list Event) (s : Store) : Store :=
  foldl (λ st ev, exec (turn ev) st) s evs.

Definition initialStore : Store :=
  {| pending := None; isMounted := false; visualState := vs_unmounted;
     previousActiveElementRef := None; restoreFocusOnCloseRef := false;
     prefersReducedMotionRef := false; externalOpenRef := None;
     updates := []; promises := []; activeElement := None;
     microtasks := []; contentDom := []; defaultPrevented := false;
     propagationStopped := false; inPassiveListener := false; log := [] |}.

(** A page with a mounted provider. *)
Definition mounted (reducedMotion : bool) : Store :=
  exec (mountProvider reducedMotion) initialStore.

(** ** String operations used by the form *)

(** WhiteSpace and LineTerminator code units, as [String.prototype.trim]
    strips them. *)
Definition is_line_terminator (c : N) : bool :=
  (c =? 10)%N || (c =? 13)%N || (c =? 8232)%N || (c =? 8233)%N.

Definition is_white_space (c : N) : bool :=
  (c =? 9)%N || (c =? 11)%N || (c =? 12)%N || (c =? 32)%N || (c =? 160)%N
  || (c =? 5760)%N || ((8192 <=? c)%N && (c <=? 8202)%N) || (c =? 8239)%N
  || (c =? 8287)%N || (c =? 12288)%N || (c =? 65279)%N.

Definition is_trimmed_unit (c : N) : bool :=
  is_white_space c || is_line_terminator c.

Fixpoint trimStart (s : jsstring) : jsstring :=
  match s with
  | c :: s' => if is_trimmed_unit c then trimStart s' else s
  | [] => []
  end.

Definition trim (s : jsstring) : jsstring :=
  reverse (trimStart (reverse (trimStart s))).

(** Regular expressions without flags, matched by derivatives. *)
Inductive Regex :=
  | r_empty
  | r_eps
  | r_dot
  | r_chr (c : N)
  | r_cat (a b : Regex)
  | r_alt (a b : Regex)
  | r_star (a : Regex)
  | r_plus (a : Regex).

Fixpoint nullable (r : Regex) : bool :=
  match r with
  | r_empty | r_dot | r_chr _ => false
  | r_eps | r_star _ => true
  | r_cat a b => nullable a && nullable b
  | r_alt a b => nullable a || nullable b
  | r_plus a => nullable a
  end.

Fixpoint deriv (c : N) (r : Regex) : Regex :=
  match r with
  | r_empty | r_eps => r_empty
  | r_dot => if is_line_terminator c then r_empty else r_eps
  | r_chr d => if (c =? d)%N then r_eps else r_empty
  | r_cat a b =>
      r_alt (r_cat (deriv c a) b) (if nullable a then deriv c b else r_empty)
  | r_alt a b => r_alt (deriv c a) (deriv c b)
  | r_star a => r_cat (deriv c a) (r_star a)
  | r_plus a => r_cat (deriv c a) (r_star a)
  end.

(** Some prefix of [s] matches [r]. *)
Fixpoint matches_prefix (r : Regex) (s : jsstring) : bool :=
  nullable r
  || match s with
     | [] => false
     | c :: s' => matches_prefix (deriv c r) s'
     end.

(** [r.test(s)]: a match may start at any position. *)
Fixpoint test (r : Regex) (s : jsstring) : bool :=
  matches_prefix r s
  || match s with
     | [] => false
     | _ :: s' => test r s'
     end.

(** ** FormModal *)

Record FormModal := {
  email : jsstring;
  error : option string
}.

Definition FormModal_initial : FormModal := {| email := []; error := None |}.

(** An element that is rendered and enabled and has no attribute but,
    possibly, [tabindex]: the browser lets it take the focus when it is a
    button or a form field, the summary of its [details], or has a tab
    index. *)
Definition element (t : Tag) (tabindex : option string) : Attrs :=
  {| el_tag := t; el_href := false; el_disabled := false;
     el_tabindex := tabindex; el_aria_hidden := false; el_hidden := false;
     el_role := None;
     el_focusable :=
       match t with
       | tag_button | tag_textarea | tag_input | tag_select => true
       | tag_summary of_details => of_details
       | tag_a | tag_other _ => false
       end
       || match tabindex ≫= parse_integer with
          | Some _ => true
          | None => false
          end |}.

Definition with_role (r : string) (a : Attrs) : Attrs :=
  {| el_tag := el_tag a; el_href := el_href a; el_disabled := el_disabled a;
     el_tabindex := el_tabindex a; el_aria_hidden := el_aria_hidden a;
     el_hidden := el_hidden a; el_role := Some r;
     el_focusable := el_focusable a |}.

(** The tree the component returns.  [{error ? ... : null}] renders the
    message when [error] is a string that is not empty. *)
Definition FormModal_render (f : FormModal) : list Dom :=
  [El (with_role "dialog" div)
     [El div
        [El (element (tag_other "h2") (Some "-1")) [Text "폼 모달"];
         El (element tag_button None) [Text "닫기"]];
      El (element (tag_other "p") None)
        [Text "데모: 제출 시 이메일 값을 반환하고, 취소/닫기 시 null을 반환합니다."];
      El (element (tag_other "form") None)
        ([El (element (tag_other "label") None)
            [El (element (tag_other "span") None) [Text "이메일"];
             El (element tag_input None) []];
          El (element (tag_other "label") None)
            [El (element (tag_other "span") None) [Text "이름 (선택)"];
             El (element tag_input None) []]]
         ++ match error f with
            | Some (String c msg) =>
                [El (with_role "alert" (element (tag_other "p") None))
                   [Text (String c msg)]]
            | _ => []
            end
         ++ [El div
               [El (element tag_button None) [Text "취소"];
                El (element tag_button None) [Text "제출"]]])]].

(** [node.textContent] *)
Fixpoint textContent (d : Dom) : string :=
  match d with
  | Text data => data
  | El _ kids =>
      (fix go (ks : list Dom) : string :=
         match ks with
         | [] => EmptyString
         | k :: ks' => String.append (textContent k) (go ks')
         end) kids
  end.

(** The text of the elements with [role="alert"] under [d], in document
    order: the messages the form shows. *)
Fixpoint alerts (d : Dom) : list string :=
  match d with
  | Text _ => []
  | El a kids =>
      (if bool_decide (el_role a = Some "alert") then [textContent d] else [])
      ++ (fix go (ks : list Dom) : list string :=
            match ks with
            | [] => []
            | k :: ks' => alerts k ++ go ks'
            end) kids
  end.

Definition shown_alerts (content : list Dom) : list string :=
  content ≫= alerts.

(** Where [titleRef] and [inputRef] point once the content is rendered
    inside the scroll region. *)
Definition titleRef : NodeRef :=
  LayerNode (scrollContentPath ++ [0; 0; 0]%nat).
Definition inputRef : NodeRef :=
  LayerNode (scrollContentPath ++ [0; 2; 0; 1]%nat).

(** [/.+@.+\..+/] *)
Definition email_pattern : Regex :=
  r_cat (r_plus r_dot)
    (r_cat (r_chr 64)
       (r_cat (r_plus r_dot) (r_cat (r_chr 46) (r_plus r_dot)))).

Definition isValidEmail (value : jsstring) : bool := test email_pattern value.

(** The mount effect of the component. *)
Definition FormModal_mount : M unit := focus titleRef.

Definition handleSubmit (onResolve : Value → M unit) (f : FormModal)
  : M FormModal :=
  preventDefault ;;
  let value := trim (email f) in
  if bool_decide (length value = 0%nat) then
    focus inputRef ;;
    mret {| email := email f; error := Some "이메일을 입력해 주세요." |}
  else if negb (isValidEmail value) then
    focus inputRef ;;
    mret {| email := email f;
            error := Some "올바른 이메일 형식을 입력해 주세요." |}
  else
    onResolve (VObject [("email", VString value)]) ;;
    mret {| email := email f; error := None |}.

(** [setEmail(e.target.value); if (error) setError(null)]: a string that
    is not empty is truthy. *)
Definition handleInputChange (value : jsstring) (f : FormModal) : FormModal :=
  {| email := value;
     error := match error f with
              | Some (String _ _) => None
              | e => e
              end |}.

(** [openFormModal]: the content is [FormModal] with the host's controls
    as [onResolve] and [onCancel]. *)
Definition openFormModal : M (Completion Future) :=
  openWithRender FormModalRender.

(** One turn in which the form is submitted and rendered again. *)
Definition submitForm (f : FormModal) : M FormModal :=
  begin_event ;;
  f' ← current (λ p, handleSubmit (resolve p) f);
  modify (with_contentDom (FormModal_render f')) ;;
  commit ;;
  runMicrotasks ;;
  mret f'.

(** One turn in which the page opens the form modal and the host renders
    the content, whose mount effect focuses the title. *)
Definition openForm : M (Completion Future) :=
  begin_event ;;
  p ← openFormModal;
  commit ;;
  modify (with_contentDom (FormModal_render FormModal_initial)) ;;
  FormModal_mount ;;
  runMicrotasks ;;
  mret p.

(** ** ModalFormPage *)

Definition truthy (v : Value) : bool :=
  match v with
  | VNull | VUndefined => false
  | VString s => negb (bool_decide (s = []))
  | VObject _ => true
  end.

Fixpoint lookup_field (name : string) (fields : list (string * Value))
  : Value :=
  match fields with
  | [] => VUndefined
  | (k, v) :: rest => if (k =? name)%string then v else lookup_field name rest
  end.

(** [v.email] for a value that is not [null] or [undefined]. *)
Definition get_email (v : Value) : Value :=
  match v with
  | VObject fields => lookup_field "email" fields
  | _ => VUndefined
  end.

(** What [handleOpen] passes to [setResult] once the awaited promise is
    fulfilled with [res]: [res ? res.email : null]. *)
Definition handleOpen_result (res : Value) : Value :=
  if truthy res then get_email res else VNull.

(** * Vocabulary of the statements and proof tools *)

(** Unfolds the primitives of the monad so that [cbn] can run a handler. *)
Ltac unfold_ops :=
  unfold setPending, setIsMounted, setVisualState, setState,
    call_resolvePromise, queueMicrotask, focus, preventDefault,
    stopPropagation, update, setExternalOpen, current, when_, emit, gets,
    modify, mbind, mret, M_bind, M_ret, exec, eval in *.

Ltac run_ops := unfold_ops; cbn in *.

(** Writes a store built with the field updates as a record. *)
Ltac store_norm :=
  cbv [with_pending with_isMounted with_visualState
       with_previousActiveElementRef with_restoreFocusOnCloseRef
       with_prefersReducedMotionRef with_externalOpenRef with_updates
       with_promises with_activeElement with_microtasks with_contentDom
       with_defaultPrevented with_propagationStopped with_inPassiveListener
       with_log
       pending isMounted visualState previousActiveElementRef
       restoreFocusOnCloseRef prefersReducedMotionRef externalOpenRef
       updates promises activeElement microtasks contentDom
       defaultPrevented propagationStopped inPassiveListener log
       fst snd] in *.

(** Opens a store into its fields. *)
Ltac open_store s :=
  destruct s as [s_pending s_mounted s_visual s_previous s_owed s_reduced
                   s_external s_updates s_promises s_active s_microtasks
                   s_content s_prevented s_stopped s_passive s_log];
  cbn in *; subst.

(** ** Cancellation triggers *)

Definition is_escape (e : KeyboardEvent) : Prop :=
  key e = "Escape" ∨ key e = "Esc".

(** The three ways a request is dismissed: the content calls [cancel()],
    an Escape keydown reaches the layer, or a click lands on the overlay
    element itself. *)
Inductive cancellation_trigger : Event → Prop :=
  | trigger_cancel : cancellation_trigger (EvControls [CallCancel])
  | trigger_escape (e : KeyboardEvent) (path : list nat) :
      is_escape e → cancellation_trigger (EvKeydown e (LayerNode path))
  | trigger_overlay_click : cancellation_trigger (EvClick overlayNode).

Section FormScenario.
Variable reducedMotion : bool.
Variable trigger : option NodeRef.

(** The page, with [trigger] focused, calls [openFormModal]. *)
Definition scenario_opened : Completion Future * Store :=
  openForm (with_activeElement trigger (mounted reducedMotion)).

(** The user submits the empty value. *)
Definition scenario_empty : FormModal * Store :=
  submitForm (handleInputChange (utf16 EmptyString) FormModal_initial)
    scenario_opened.2.

(** The user types [a@b.co] and submits again. *)
Definition scenario_valid : FormModal * Store :=
  submitForm (handleInputChange (utf16 "a@b.co") scenario_empty.1)
    scenario_empty.2.
End FormScenario.

(** What [handleKeydown] does on Tab once the set is known. *)
Definition trap (shift : bool) (first last : HTMLElement) : M unit :=
  active ← gets activeElement;
  if negb shift && is_active active last.1 then
    preventDefault ;; HTMLElement_focus first
  else if shift && (is_active active first.1 || is_active active dialogPath)
  then preventDefault ;; HTMLElement_focus last
  else mret ().

(** ** The set of the trap, as the claim words it

    The descendants of a focusable kind (a link, a button, a form field,
    an element with a [tabindex] attribute), without those marked not
    focusable ([disabled]), those hidden ([hidden] or [aria-hidden]) and
    those whose tab order [excluded] rules out; in document order. *)
Definition focusable_kind (a : Attrs) : bool :=
  match el_tag a with
  | tag_a => el_href a
  | tag_button | tag_textarea | tag_input | tag_select => true
  | tag_summary _ | tag_other _ => false
  end
  || match el_tabindex a with
     | Some _ => true
     | None => false
     end.

Definition claimed_tabbable (excluded : Z → bool) (el : HTMLElement) : bool :=
  focusable_kind el.2
  && negb (el_disabled el.2)
  && negb (el_aria_hidden el.2 || el_hidden el.2)
  && negb (excluded (tabIndex el.2)).

Definition claimed_tabbables (excluded : Z → bool) (container : Dom)
  : list HTMLElement :=
  filter (λ el, claimed_tabbable excluded el)
    (descendants dialogPath container).

(** [el] is not disabled, or is a button or an input without [tabindex]
    attribute: the elements whose [disabled] the selector looks at. *)
Definition disabled_as_the_selector_sees (el : HTMLElement) : bool :=
  negb (el_disabled el.2)
  || (match el_tag el.2 with
      | tag_button | tag_input => true
      | _ => false
      end
      && match el_tabindex el.2 with
         | None => true
         | Some _ => false
         end).

Definition only_buttons_and_inputs_disabled (container : Dom) : bool :=
  forallb disabled_as_the_selector_sees (descendants dialogPath container).

(** A descendant whose [tabindex] is -2 is selected and passes the
    filter, although its tab order is negative. *)
Definition skipped_in_tab_order : list Dom :=
  [El (element (tag_other "div") (Some "-2")) []].

(** ** What a render makes of the update queue *)

(** The rendered part of the state. *)
Definition Committed : Type := option PendingRequest * bool * VisualState.

Definition committed (s : Store) : Committed :=
  (pending s, isMounted s, visualState s).

Definition apply_committed (c : Committed) (u : Update) : Committed :=
  match u with
  | SetPending p => (p, c.1.2, c.2)
  | SetIsMounted b => (c.1.1, b, c.2)
  | SetVisualState v => (c.1.1, c.1.2, v)
  end.

(** The state the next render will commit. *)
Definition logical (s : Store) : Committed :=
  foldl apply_committed (committed s) (updates s).

Definition with_committed (c : Committed) (s : Store) : Store :=
  with_pending c.1.1 (with_isMounted c.1.2 (with_visualState c.2 s)).

(** ** One settlement, written out *)

Definition settlement_updates (reduced : bool) : list Update :=
  if reduced then
    [SetVisualState vs_closed; SetIsMounted false;
     SetVisualState vs_unmounted; SetPending None]
  else [SetVisualState vs_closed].

Definition settlement_microtasks (reduced : bool) : list Microtask :=
  if reduced then [RestoreFocus] else [].

(** The store after the [resolve] made for [req] has run with [value]. *)
Definition settled (req : PendingRequest) (value : Value) (s : Store) : Store :=
  let reduced := prefersReducedMotionRef s in
  with_log
    (log s
     ++ EResolvePromise (resolvePromise req) value
        :: (ESetState <$> settlement_updates reduced)
     ++ (EQueueMicrotask <$> settlement_microtasks reduced))
    (with_microtasks (microtasks s ++ settlement_microtasks reduced)
       (with_updates (updates s ++ settlement_updates reduced)
          (with_restoreFocusOnCloseRef true
             (with_promises (settle (resolvePromise req) value (promises s))
                s)))).

Definition control_value (c : ControlCall) : Value :=
  match c with
  | CallResolve v => v
  | CallCancel => VNull
  end.

(** ** Several settlements in one turn *)

Definition settled_all (req : PendingRequest) (cs : list ControlCall)
  (s : Store) : Store :=
  foldl (λ st c, settled req (control_value c) st) s cs.

(** [n] settlement batches in a row. *)
Fixpoint repeat_batch (n : nat) (reduced : bool) : list Update :=
  match n with
  | O => []
  | S n' => settlement_updates reduced ++ repeat_batch n' reduced
  end.

Definition batch_microtasks (n : nat) (reduced : bool) : list Microtask :=
  if reduced then replicate n RestoreFocus else [].

Definition visual_sets (l : list Effect) : list VisualState :=
  omap (λ e, match e with
             | ESetState (SetVisualState v) => Some v
             | _ => None
             end) l.

Definition visual_updates (us : list Update) : list VisualState :=
  omap (λ u, match u with SetVisualState v => Some v | _ => None end) us.

(** The parts of the store the settlements leave alone. *)
Definition settlement_frame (s : Store) :=
  (committed s, previousActiveElementRef s, prefersReducedMotionRef s,
   externalOpenRef s, activeElement s, contentDom s, defaultPrevented s,
   propagationStopped s).

(** ** The lifecycle machine

    The part of the store the lifecycle depends on, and the steps a
    dispatch can make on it. *)

Record Essence := {
  e_committed : Committed;
  e_updates : list Update;
  e_microtasks : list Microtask;
  e_promises : list PromiseState;
  e_owed : bool;
  e_reduced : bool;
  e_visual : list VisualState
}.

Definition essence (s : Store) : Essence :=
  {| e_committed := committed s; e_updates := updates s;
     e_microtasks := microtasks s; e_promises := promises s;
     e_owed := restoreFocusOnCloseRef s;
     e_reduced := prefersReducedMotionRef s;
     e_visual := visual_sets (log s) |}.

Definition e_pending (x : Essence) : option PendingRequest :=
  (e_committed x).1.1.
Definition e_isMounted (x : Essence) : bool := (e_committed x).1.2.
Definition e_visualState (x : Essence) : VisualState := (e_committed x).2.

Definition settledE (req : PendingRequest) (n : nat) (v : Value)
  (x : Essence) : Essence :=
  {| e_committed := e_committed x;
     e_updates := e_updates x ++ repeat_batch n (e_reduced x);
     e_microtasks := e_microtasks x ++ batch_microtasks n (e_reduced x);
     e_promises := settle (resolvePromise req) v (e_promises x);
     e_owed := true;
     e_reduced := e_reduced x;
     e_visual := e_visual x ++ visual_updates (repeat_batch n (e_reduced x)) |}.

Definition openedE (r : OpenRender) (x : Essence) : Essence :=
  {| e_committed := e_committed x;
     e_updates :=
       e_updates x
       ++ [SetPending
             (Some {| render := r; resolvePromise := length (e_promises x) |});
           SetIsMounted true; SetVisualState vs_open];
     e_microtasks := e_microtasks x;
     e_promises := e_promises x ++ [Pending];
     e_owed := e_owed x;
     e_reduced := e_reduced x;
     e_visual := e_visual x ++ [vs_open] |}.

Definition unmountedE (x : Essence) : Essence :=
  {| e_committed := e_committed x;
     e_updates :=
       e_updates x
       ++ [SetIsMounted false; SetVisualState vs_unmounted; SetPending None];
     e_microtasks :=
       e_microtasks x ++ (if e_owed x then [RestoreFocus] else []);
     e_promises := e_promises x;
     e_owed := e_owed x;
     e_reduced := e_reduced x;
     e_visual := e_visual x ++ [vs_unmounted] |}.

Definition with_reduced (b : bool) (x : Essence) : Essence :=
  {| e_committed := e_committed x; e_updates := e_updates x;
     e_microtasks := e_microtasks x; e_promises := e_promises x;
     e_owed := e_owed x; e_reduced := b; e_visual := e_visual x |}.

(** The request whose controls the handlers of [ev] call: the one a
    retained callback was given, otherwise the one held. *)
Definition controls_of (ev : Event) (held : option PendingRequest)
  : option PendingRequest :=
  match ev with
  | EvRetainedControls req _ => Some req
  | _ => held
  end.

(** What the handlers of one event do to the essence. *)
Inductive Dispatch : Event → Essence → Essence → Prop :=
  | dispatch_quiet ev x :
      Dispatch ev x x
  | dispatch_media b x :
      Dispatch (EvMediaChange b) x (with_reduced b x)
  | dispatch_settle ev req n v x :
      controls_of ev (e_pending x) = Some req → n ≠ 0%nat →
      Dispatch ev x (settledE req n v x)
  | dispatch_open r x :
      Dispatch (EvOpen r) x (openedE r x)
  | dispatch_animation_end x :
      e_isMounted x = true → e_visualState x = vs_closed →
      Dispatch (EvAnimationEnd overlayNode) x (unmountedE x).

Definition is_escape_b (e : KeyboardEvent) : bool :=
  (key e =? "Escape")%string || (key e =? "Esc")%string.

(** *** Rendering and microtasks on the essence *)

Definition openC (c : Committed) : bool :=
  match c.1.1 with Some _ => true | None => false end.

Definition rendered (c : Committed) (visual : list VisualState) (x : Essence)
  : Essence :=
  {| e_committed := c; e_updates := []; e_microtasks := e_microtasks x;
     e_promises := e_promises x; e_owed := e_owed x;
     e_reduced := e_reduced x; e_visual := visual |}.

Definition commitE (x : Essence) : Essence :=
  let c := foldl apply_committed (e_committed x) (e_updates x) in
  if Bool.eqb (openC c) (openC (e_committed x)) then rendered c (e_visual x) x
  else if openC c then
    rendered (c.1.1, true, vs_open) (e_visual x ++ [vs_open]) x
  else rendered c (e_visual x) x.

Definition microE (x : Essence) : Essence :=
  {| e_committed := e_committed x; e_updates := e_updates x;
     e_microtasks := [];
     e_promises := e_promises x;
     e_owed := match e_microtasks x with [] => e_owed x | _ => false end;
     e_reduced := e_reduced x; e_visual := e_visual x |}.

Definition restored (owed : bool) (x : Essence) : Essence :=
  {| e_committed := e_committed x; e_updates := e_updates x;
     e_microtasks := e_microtasks x; e_promises := e_promises x;
     e_owed := owed; e_reduced := e_reduced x; e_visual := e_visual x |}.

(** ** The invariants of the states between turns *)

(** Both queues are empty. *)
Definition QuietE (x : Essence) : Prop :=
  e_updates x = [] ∧ e_microtasks x = [].

(** In every run: a request that is held and whose future is fulfilled
    is closing, with the restoration owed. *)
Definition ClosingE (x : Essence) : Prop :=
  QuietE x ∧
  ∀ req v, e_pending x = Some req →
    e_promises x !! resolvePromise req = Some (Fulfilled v) →
    e_visualState x = vs_closed ∧ e_owed x = true.

Definition Closing (s : Store) : Prop := ClosingE (essence s).

(** In the runs of [reachable_orderly] below: the layer is rendered
    exactly while a request is held, open while its future is pending and
    closing once it is fulfilled. *)
Definition InvE (x : Essence) : Prop :=
  e_updates x = [] ∧ e_microtasks x = [] ∧
  match e_pending x with
  | None => e_isMounted x = false ∧ e_visualState x = vs_unmounted
  | Some req =>
      e_isMounted x = true ∧
      ((e_promises x !! resolvePromise req = Some Pending
        ∧ e_visualState x = vs_open)
       ∨ ((∃ v, e_promises x !! resolvePromise req = Some (Fulfilled v))
          ∧ e_visualState x = vs_closed ∧ e_owed x = true))
  end.

(** The essence at the end of a turn, for each step of the machine. *)
Definition finished (c : Committed) (ps : list PromiseState) (owed : bool)
  (visual : list VisualState) (x : Essence) : Essence :=
  {| e_committed := c; e_updates := []; e_microtasks := [];
     e_promises := ps; e_owed := owed; e_reduced := e_reduced x;
     e_visual := visual |}.

Definition Inv (s : Store) : Prop := InvE (essence s).

(** The states between turns, reached from a page whose provider has
    mounted, whatever the events. *)
Inductive reachable : Store → Prop :=
  | reachable_mounted (reducedMotion : bool) :
      reachable (mounted reducedMotion)
  | reachable_turn (s : Store) (ev : Event) :
      reachable s → reachable (exec (turn ev) s).

(** What neither a render nor a microtask depends on or changes. *)
Definition ambient (s : Store) :=
  (previousActiveElementRef s, externalOpenRef s, contentDom s).

(** ** The updates of a turn *)

(** The updates the handlers of an event enqueue. *)
Definition enqueued (ev : Event) (s : Store) : list Update :=
  updates (exec (dispatch ev) (exec begin_event s)).

(** ** The visual lifecycle *)

(** The values [setVisualState] was called with, oldest first. *)
Definition history (s : Store) : list VisualState := visual_sets (log s).

(** May [b] be set when the value set last (or rendered) is [a]?
    [unmounted] only after [closed], [open] only after [unmounted] or
    [open]; [closed] may be set at any point, also again. *)
Definition logical_step (a b : VisualState) : bool :=
  match b, a with
  | vs_unmounted, vs_closed => true
  | vs_unmounted, _ => false
  | vs_open, vs_closed => false
  | vs_open, _ => true
  | vs_closed, _ => true
  end.

Fixpoint path_from (a : VisualState) (q : list VisualState) : bool :=
  match q with
  | [] => true
  | b :: q' => logical_step a b && path_from b q'
  end.

Definition follows_lifecycle (l : list VisualState) : bool :=
  path_from vs_unmounted l.

(** The edges of [unmounted → open → closed → unmounted]. *)
Definition lifecycle_edge (a b : VisualState) : Prop :=
  a = b
  ∨ (a = vs_unmounted ∧ b = vs_open)
  ∨ (a = vs_open ∧ b = vs_closed)
  ∨ (a = vs_closed ∧ b = vs_unmounted).

(** The claim's runs: [open] is called only while no request is held. *)
Definition single_flight (s : Store) (ev : Event) : Prop :=
  match ev with
  | EvOpen _ => pending s = None
  | _ => True
  end.

Fixpoint single_flight_run (evs : list Event) (s : Store) : Prop :=
  match evs with
  | [] => True
  | ev :: evs' =>
      single_flight s ev ∧ single_flight_run evs' (exec (turn ev) s)
  end.

(** Moreover the controls of a request are called only while it is
    held. *)
Definition orderly (s : Store) (ev : Event) : Prop :=
  match ev with
  | EvOpen _ => pending s = None
  | EvRetainedControls req _ => pending s = Some req
  | _ => True
  end.

(** The runs in which every event is of that kind. *)
Inductive reachable_orderly : Store → Prop :=
  | reachable_orderly_mounted (reducedMotion : bool) :
      reachable_orderly (mounted reducedMotion)
  | reachable_orderly_turn (s : Store) (ev : Event) :
      reachable_orderly s → orderly s ev →
      reachable_orderly (exec (turn ev) s).

Definition batch_visual (reduced : bool) : list VisualState :=
  if reduced then [vs_closed; vs_unmounted] else [vs_closed].

Definition PathE (x : Essence) : Prop :=
  follows_lifecycle (e_visual x) = true
  ∧ List.last (e_visual x) vs_unmounted = e_visualState x.

(** The store without the ghost trace and the flags of the event object. *)
Definition host_state (s : Store) :=
  (pending s, isMounted s, visualState s, previousActiveElementRef s,
   restoreFocusOnCloseRef s, prefersReducedMotionRef s, externalOpenRef s,
   updates s, promises s, activeElement s, microtasks s, contentDom s).

(** One call of a control, by the rendered content or by a callback that
    has kept the controls, or one cancellation trigger. *)
Inductive settlement_attempt : Event → Prop :=
  | attempt_control (c : ControlCall) : settlement_attempt (EvControls [c])
  | attempt_retained (req : PendingRequest) (c : ControlCall) :
      settlement_attempt (EvRetainedControls req [c])
  | attempt_trigger (ev : Event) :
      cancellation_trigger ev → settlement_attempt ev.

(** The attempt [ev] comes too late: the controls it calls were made for
    no request, or for one whose future is fulfilled. *)
Definition already_settled (ev : Event) (s : Store) : Prop :=
  match controls_of ev (pending s) with
  | None => True
  | Some req => ∃ v, promises s !! resolvePromise req = Some (Fulfilled v)
  end.

(** The controls [ev] calls are those of the last render. *)
Definition of_last_render (ev : Event) (s : Store) : Prop :=
  controls_of ev (pending s) = pending s.

(** ** Settlement and the unmount path *)

(** The turn of [ev], taken at [s], settles the future [p]: pending
    before the turn, fulfilled after it. *)
Definition settles (ev : Event) (s : Store) (p : nat) : Prop :=
  promises s !! p = Some Pending
  ∧ ∃ v, promises (exec (turn ev) s) !! p = Some (Fulfilled v).

(** The handlers of [ev] run the unmount path: they set the visual state
    to [unmounted]. *)
Definition runs_unmount_path (ev : Event) (s : Store) : Prop :=
  SetVisualState vs_unmounted ∈ enqueued ev s.

(** The events whose handlers may call [resolve] or [cancel]: a call of
    the controls, an Escape keydown inside the layer, a click on the
    overlay element itself. *)
Definition calls_a_control (ev : Event) : bool :=
  match ev with
  | EvControls (_ :: _) | EvRetainedControls _ (_ :: _) => true
  | EvKeydown e (LayerNode _) => is_escape_b e
  | EvClick tgt => bool_decide (tgt = overlayNode)
  | _ => false
  end.

(** Runs a turn on a store whose queues are known. *)
Ltac run_turn :=
  cbv [host_state enqueued turn dispatch handleOverlayClick
       handleOverlayAnimationEnd call_controls call_control resolve cancel
       commit runMicrotasks run_microtask flush begin_event isOpenEffect
       isOpen setPending setIsMounted setVisualState setState
       call_resolvePromise queueMicrotask focus preventDefault
       stopPropagation update setExternalOpen current when_ emit gets modify
       mbind mret M_bind M_ret exec eval
       with_pending with_isMounted with_visualState
       with_previousActiveElementRef with_restoreFocusOnCloseRef
       with_prefersReducedMotionRef with_externalOpenRef with_updates
       with_promises with_activeElement with_microtasks with_contentDom
       with_defaultPrevented with_propagationStopped with_inPassiveListener
       with_log passive_listener
       pending isMounted visualState previousActiveElementRef
       restoreFocusOnCloseRef prefersReducedMotionRef externalOpenRef
       updates promises activeElement microtasks contentDom
       defaultPrevented propagationStopped inPassiveListener log
       fst snd foldl apply_update Bool.eqb app negb andb orb].

(** A request is opened, cancelled by its content and unmounted after
    the closing animation; reduced motion is off. *)
Definition cancelled_and_unmounted : Store :=
  run [EvOpen (CustomRender 0); EvControls [CallCancel];
       EvAnimationEnd overlayNode] (mounted false).

(** The request that run opened. *)
Definition first_request : PendingRequest :=
  {| render := CustomRender 0; resolvePromise := 0 |}.

(** [resolve] has fulfilled the future, the closing animation is running
    and the reduced-motion preference has just turned on. *)
Definition closing_when_motion_is_reduced : Store :=
  run [EvOpen (CustomRender 0);
       EvControls [CallResolve (VString (utf16 "done"))];
       EvMediaChange true] (mounted false).

(** ** Focus restoration *)

(** How often the restoration callback has run. *)
Definition restorations (l : list Effect) : nat :=
  length (omap (λ e, match e with
                     | ERunMicrotask RestoreFocus => Some ()
                     | _ => None
                     end) l).

Definition focus_calls (n : NodeRef) (l : list Effect) : nat :=
  length (omap (λ e, match e with
                     | EFocus m => if decide (m = n) then Some () else None
                     | _ => None
                     end) l).

(** The page's button has the focus, the form modal is opened under
    reduced motion, and Escape is pressed with the focus on the title. *)
Definition escape_under_reduced_motion : Store :=
  run [EvFocusChange (Some (PageNode 0));
       EvOpen FormModalRender;
       EvRender (FormModal_render FormModal_initial);
       EvFocusChange (Some titleRef);
       EvKeydown {| key := "Escape"; shiftKey := false |} titleRef]
    (mounted true).

(** With the same setting, a [cancel()] called once by the content
    restores the focus once. *)
Definition cancel_under_reduced_motion : Store :=
  run [EvFocusChange (Some (PageNode 0));
       EvOpen FormModalRender;
       EvRender (FormModal_render FormModal_initial);
       EvFocusChange (Some titleRef);
       EvControls [CallCancel]]
    (mounted true).

(** Under reduced motion the request is cancelled and unmounted and the
    focus is back on the page's button; the user then moves it on. *)
Definition cancelled_and_focus_moved : Store :=
  run [EvFocusChange (Some (PageNode 0));
       EvOpen (CustomRender 0);
       EvControls [CallCancel];
       EvFocusChange (Some (PageNode 1))]
    (mounted true).

(** ** What the provider renders *)

(** The layer: [data-state] of the overlay and of the content element, and
    [pending?.render(controls)], the render callback of the request held
    applied to the controls made for it. *)
Record LayerView := {
  data_state : string;
  layer_content : option (OpenRender * PendingRequest)
}.

(** [wrapper_className] is the class of the element around the page. *)
Record ProviderView := {
  wrapper_className : option string;
  layer : option LayerView
}.

Definition shouldRenderLayer (s : Store) : bool := isMounted s.

Definition ModalProvider_render (s : Store) : ProviderView :=
  {| wrapper_className :=
       if shouldRenderLayer s then Some "h-dvh max-h-dvh overflow-hidden"
       else None;
     layer :=
       if shouldRenderLayer s then
         Some {| data_state :=
                   match visualState s with
                   | vs_open => "open"
                   | _ => "closed"
                   end;
                 layer_content := (λ req, (render req, req)) <$> pending s |}
       else None |}.

(** In every run: the layer is mounted exactly while a request is held. *)
Definition MountedE (x : Essence) : Prop :=
  QuietE x ∧ e_isMounted x = openC (e_committed x).


(** Every event of the list is [orderly] where it happens. *)
Fixpoint orderly_run (evs : list Event) (s : Store) : Prop :=
  match evs with
  | [] => True
  | ev :: evs' => orderly s ev ∧ orderly_run evs' (exec (turn ev) s)
  end.

(** The refs only [open] and the provider's mount effects write. *)
Definition saved_refs (s : Store) :=
  (previousActiveElementRef s, externalOpenRef s).

(** The future [p] is pending and is not that of the request held. *)
Definition orphaned (p : nat) (s : Store) : Prop :=
  QuietE (essence s)
  ∧ promises s !! p = Some Pending
  ∧ ∀ req, pending s = Some req → resolvePromise req ≠ p.

(** The events of the layer and of its content. *)
Definition layer_event (ev : Event) : bool :=
  match ev with
  | EvControls _ | EvKeydown _ _ | EvClick _ | EvAnimationEnd _
  | EvWheel _ | EvTouchMove _ => true
  | _ => false
  end.

(** ** Vocabulary for the form *)

(** Every code unit of [s] is one that [trim] strips. *)
Definition blank (s : jsstring) : Prop :=
  Forall (λ c, is_trimmed_unit c = true) s.

(** [s] neither starts nor ends with a code unit that [trim] strips. *)
Definition trimmed (s : jsstring) : Prop :=
  (∀ c, head s = Some c → is_trimmed_unit c = false)
  ∧ (∀ c, last s = Some c → is_trimmed_unit c = false).

(** The strings a regular expression matches as a whole. *)
Inductive Matches : Regex → jsstring → Prop :=
  | m_eps : Matches r_eps []
  | m_dot c : is_line_terminator c = false → Matches r_dot [c]
  | m_chr c : Matches (r_chr c) [c]
  | m_cat a b s t :
      Matches a s → Matches b t → Matches (r_cat a b) (s ++ t)
  | m_alt_l a b s : Matches a s → Matches (r_alt a b) s
  | m_alt_r a b s : Matches b s → Matches (r_alt a b) s
  | m_star_nil a : Matches (r_star a) []
  | m_star_cons a s t :
      Matches a s → Matches (r_star a) t → Matches (r_star a) (s ++ t)
  | m_plus a s t :
      Matches a s → Matches (r_star a) t → Matches (r_plus a) (s ++ t).

(** No code unit of [s] is a line terminator. *)
Definition one_line (s : jsstring) : Prop :=
  Forall (λ c, is_line_terminator c = false) s.

(** ** The browser's part in a submission

    The email field is [<input type="email">], in a form without
    [noValidate].  Its value is what was typed after the value
    sanitization of such a field: newlines are removed, then the ASCII
    whitespace at both ends. *)
Definition is_ascii_space (c : N) : bool :=
  (c =? 9)%N || (c =? 10)%N || (c =? 12)%N || (c =? 13)%N || (c =? 32)%N.

Fixpoint strip_leading_spaces (s : jsstring) : jsstring :=
  match s with
  | c :: s' => if is_ascii_space c then strip_leading_spaces s' else s
  | [] => []
  end.

Definition email_value (typed : jsstring) : jsstring :=
  let kept :=
    filter (λ c, negb ((c =? 10)%N || (c =? 13)%N) = true) typed in
  reverse (strip_leading_spaces (reverse (strip_leading_spaces kept))).

(** A valid e-mail address of the HTML Standard: one or more characters
    of [atext] or [.], an [@], and one or more labels separated by [.],
    each of 1 to 63 letters, digits or hyphens with a letter or digit at
    both ends. *)
Definition is_letter_or_digit (c : N) : bool :=
  ((48 <=? c)%N && (c <=? 57)%N) || ((65 <=? c)%N && (c <=? 90)%N)
  || ((97 <=? c)%N && (c <=? 122)%N).

(** [atext] with the full stop: letters, digits and
    [. ! # $ % & ' * + / = ? ^ _ ` { | } ~ -]. *)
Definition is_atext_or_dot (c : N) : bool :=
  is_letter_or_digit c
  || bool_decide (c ∈ [46; 33; 35; 36; 37; 38; 39; 42; 43; 47; 61; 63; 94;
                       95; 96; 123; 124; 125; 126; 45]%N).

Definition valid_label (l : jsstring) : bool :=
  match l with
  | [] => false
  | c :: _ =>
      is_letter_or_digit c && is_letter_or_digit (List.last l c)
      && forallb (λ d, is_letter_or_digit d || (d =? 45)%N) l
      && (length l <=? 63)%nat
  end.

(** [s] cut at every [c]. *)
Fixpoint split_on (c : N) (s : jsstring) : list jsstring :=
  match s with
  | [] => [[]]
  | x :: s' =>
      if (x =? c)%N then [] :: split_on c s'
      else match split_on c s' with
           | l :: ls => (x :: l) :: ls
           | [] => [[x]]
           end
  end.

Definition valid_email_address (s : jsstring) : bool :=
  match split_on 64 s with
  | [local; domain] =>
      negb (bool_decide (local = [])) && forallb is_atext_or_dot local
      && forallb valid_label (split_on 46 domain)
  | _ => false
  end.

(** The field passes the browser's validation: it is not required, so an
    empty value passes; any other value must be a valid e-mail
    address. *)
Definition passes_validation (value : jsstring) : bool :=
  bool_decide (value = []) || valid_email_address value.

(** The user asks to submit the form (the submit button, or Enter in a
    field).  The browser validates the field first; when the value does
    not pass it reports the problem, moves the focus to the field and
    fires no [submit] event. *)
Definition requestSubmit (f : FormModal) : M FormModal :=
  if passes_validation (email f) then submitForm f
  else focus inputRef ;; mret f.

(** The page, with [trigger] focused, opens the form modal; the user
    types [typed] into the email field and asks to submit. *)
Definition typed_and_submitted (reducedMotion : bool)
  (trigger : option NodeRef) (typed : jsstring) : FormModal * Store :=
  requestSubmit (handleInputChange (email_value typed) FormModal_initial)
    (scenario_opened reducedMotion trigger).2.

(** Where the buttons of [FormModal] are once it is rendered inside the
    scroll region; the row of the two lower buttons comes after the error
    message when there is one. *)
Definition closeButton : list nat := scrollContentPath ++ [0; 0; 1]%nat.
Definition emailInput : list nat := scrollContentPath ++ [0; 2; 0; 1]%nat.
Definition nameInput : list nat := scrollContentPath ++ [0; 2; 1; 1]%nat.
Definition buttonRow (f : FormModal) : list nat :=
  scrollContentPath
  ++ [0; 2; match error f with Some _ => 3 | None => 2 end]%nat.
Definition cancelButton (f : FormModal) : list nat := buttonRow f ++ [0%nat].
Definition submitButton (f : FormModal) : list nat := buttonRow f ++ [1%nat].

(** * Properties *)

(** ** Running the monad *)

Lemma exec_bind {A B} (m : M A) (f : A → M B) (s : Store) :
  exec (m ≫= f) s = exec (f (eval m s)) (exec m s).
Proof. reflexivity. Qed.

Lemma exec_when (b : bool) (m : M unit) (s : Store) :
  exec (when_ b m) s = if b then exec m s else s.
Proof. by destruct b. Qed.

Lemma exec_gets {A} (f : Store → A) (s : Store) : exec (gets f) s = s.
Proof. reflexivity. Qed.

Lemma eval_gets {A} (f : Store → A) (s : Store) : eval (gets f) s = f s.
Proof. reflexivity. Qed.

Lemma exec_current {A} (f : option PendingRequest → M A) (s : Store) :
  exec (current f) s = exec (f (pending s)) s.
Proof. reflexivity. Qed.

(** ** Promises *)

Lemma settle_pending (p : nat) (v : Value) (ps : list PromiseState) :
  ps !! p = Some Pending → settle p v ps !! p = Some (Fulfilled v).
Proof.
  intros H. unfold settle. rewrite H.
  apply list_lookup_insert_eq. eapply lookup_lt_Some, H.
Qed.

Lemma settle_fulfilled (p q : nat) (v w : Value) (ps : list PromiseState) :
  ps !! q = Some (Fulfilled w) → settle p v ps !! q = Some (Fulfilled w).
Proof.
  intros H. unfold settle.
  destruct (ps !! p) as [[|u]|] eqn:E; try assumption.
  destruct (decide (p = q)) as [->|Hne]; [congruence|].
  by rewrite list_lookup_insert_ne.
Qed.

Lemma settle_already (p : nat) (v w : Value) (ps : list PromiseState) :
  ps !! p = Some (Fulfilled w) → settle p v ps = ps.
Proof. intros H. unfold settle. by rewrite H. Qed.

Lemma settle_length (p : nat) (v : Value) (ps : list PromiseState) :
  length (settle p v ps) = length ps.
Proof.
  unfold settle. destruct (ps !! p) as [[|u]|]; try done.
  apply length_insert.
Qed.

(** ** The two controls share one body *)

Lemma cancel_is_resolve_null (p : option PendingRequest) :
  cancel p = resolve p VNull.
Proof. reflexivity. Qed.

Lemma resolve_without_pending (v : Value) (s : Store) :
  resolve None v s = ((), s).
Proof. reflexivity. Qed.

Lemma resolve_promises (v : Value) (s : Store) (req : PendingRequest) :
  promises (exec (resolve (Some req) v) s)
  = settle (resolvePromise req) v (promises s).
Proof.
  unfold resolve. run_ops.
  destruct (prefersReducedMotionRef s); reflexivity.
Qed.

Lemma current_eq {A} (f : option PendingRequest → M A) (s : Store) :
  current f s = f (pending s) s.
Proof. reflexivity. Qed.

(** ** Frame lemmas for rendering and microtasks *)

Lemma foldl_frame {A B C} (f : A → B → A) (g : A → C) (l : list B) (a : A) :
  (∀ a b, g (f a b) = g a) → g (foldl f a l) = g a.
Proof.
  intros H. revert a. induction l as [|b l IH]; intros a; cbn; [done|].
  by rewrite IH, H.
Qed.

Lemma flush_promises (s : Store) : promises (flush s) = promises s.
Proof.
  unfold flush. cbn.
  apply (foldl_frame apply_update promises). by intros a [].
Qed.

Lemma isOpenEffect_promises (s : Store) :
  promises (exec isOpenEffect s) = promises s.
Proof. unfold isOpenEffect. run_ops. by destruct (isOpen s). Qed.

Lemma commit_unfold (s : Store) :
  exec commit s
  = if Bool.eqb (isOpen (flush s)) (isOpen s) then flush s
    else flush (exec isOpenEffect (flush s)).
Proof. unfold exec, commit. cbn. by destruct (Bool.eqb _ _). Qed.

Lemma turn_unfold (ev : Event) (s : Store) :
  exec (turn ev) s
  = exec runMicrotasks (exec commit (exec (dispatch ev) (exec begin_event s))).
Proof. reflexivity. Qed.

Lemma commit_promises (s : Store) : promises (exec commit s) = promises s.
Proof.
  rewrite commit_unfold. destruct (Bool.eqb _ _).
  - apply flush_promises.
  - by rewrite flush_promises, isOpenEffect_promises, flush_promises.
Qed.

Lemma run_microtask_promises (m : Microtask) (s : Store) :
  promises (exec (run_microtask m) s) = promises s.
Proof.
  destruct m. unfold run_microtask. run_ops.
  by destruct (previousActiveElementRef s).
Qed.

Lemma runMicrotasks_promises (s : Store) :
  promises (exec runMicrotasks s) = promises s.
Proof.
  unfold exec, runMicrotasks. cbn.
  rewrite (foldl_frame _ promises); [done|].
  intros a b. apply run_microtask_promises.
Qed.

(** After the event's handlers have run, the rest of the turn leaves the
    promise heap alone. *)
Lemma turn_promises (ev : Event) (s : Store) :
  promises (exec (turn ev) s)
  = promises (exec (dispatch ev) (exec begin_event s)).
Proof.
  by rewrite turn_unfold, runMicrotasks_promises, commit_promises.
Qed.

(** ** Cancellation triggers (C2) *)

Lemma handleKeydown_escape (e : KeyboardEvent) :
  is_escape e → handleKeydown e = (preventDefault ;; current cancel).
Proof. destruct e as [k sh]. intros [H|H]; cbn in H; subst; reflexivity. Qed.

Lemma handleOverlayClick_on_overlay (e : UIEvent) :
  target e = Some (currentTarget e) → handleOverlayClick e = current cancel.
Proof.
  intros H. unfold handleOverlayClick. by rewrite bool_decide_eq_true_2.
Qed.

Lemma handleOverlayClick_nested (e : UIEvent) (s : Store) :
  target e ≠ Some (currentTarget e) → handleOverlayClick e s = ((), s).
Proof.
  intros H. unfold handleOverlayClick. by rewrite bool_decide_eq_false_2.
Qed.

Lemma settle_twice (p : nat) (v w : Value) (ps : list PromiseState) :
  ps !! p = Some Pending →
  settle p w (settle p v ps) !! p = Some (Fulfilled v).
Proof. intros H. by apply settle_fulfilled, settle_pending. Qed.

Lemma trigger_fulfils_with_null (s : Store) (req : PendingRequest)
  (ev : Event) :
  pending s = Some req →
  promises s !! resolvePromise req = Some Pending →
  isMounted s = true →
  cancellation_trigger ev →
  promises (exec (turn ev) s) !! resolvePromise req = Some (Fulfilled VNull).
Proof.
  intros Hp Hq Hm Hev. rewrite turn_promises.
  destruct Hev as [|e path He|].
  - open_store s. unfold cancel. run_ops.
    destruct s_reduced; cbn; by apply settle_pending.
  - unfold dispatch. rewrite (handleKeydown_escape e He).
    open_store s. unfold cancel. run_ops.
    destruct (bool_decide (dialogPath `prefix_of` path));
      destruct s_reduced; cbn;
      first [by apply settle_twice | by apply settle_pending].
  - open_store s. unfold handleOverlayClick, cancel.
    run_ops.
    destruct s_reduced; cbn; by apply settle_pending.
Qed.

(** C2.  For an open request, each cancellation trigger fulfils the
    request's future with [null]; the Escape branch of [handleKeydown] and
    [handleOverlayClick] on a click whose target is the overlay are calls
    of the [cancel] of the last render, and a click on nested content
    does nothing. *)
Theorem cancellation_resolves_with_null (s : Store) (req : PendingRequest) :
  pending s = Some req →
  promises s !! resolvePromise req = Some Pending →
  isMounted s = true →
  (∀ ev, cancellation_trigger ev →
     promises (exec (turn ev) s) !! resolvePromise req
     = Some (Fulfilled VNull))
  ∧ (∀ e, is_escape e → handleKeydown e = (preventDefault ;; current cancel))
  ∧ (∀ e, target e = Some (currentTarget e) →
       handleOverlayClick e = current cancel)
  ∧ (∀ e, target e ≠ Some (currentTarget e) →
       handleOverlayClick e s = ((), s)).
Proof.
  intros Hp Hq Hm. repeat split.
  - intros ev. by apply trigger_fulfils_with_null.
  - apply handleKeydown_escape.
  - apply handleOverlayClick_on_overlay.
  - intros e. apply handleOverlayClick_nested.
Qed.

Lemma cancellation_resolves_with_null_witness :
  promises
    (exec (turn (EvKeydown {| key := "Escape"; shiftKey := false |} titleRef))
       (run [EvOpen FormModalRender] (mounted true))) !! 0%nat
  = Some (Fulfilled VNull).
Proof.
  apply (proj1 (cancellation_resolves_with_null
                  (run [EvOpen FormModalRender] (mounted true))
                  {| render := FormModalRender; resolvePromise := 0 |}
                  eq_refl eq_refl eq_refl)).
  apply trigger_escape. by left.
Defined.

(** ** The global access shim (C6) *)

(** C6.  With no host registered, [openWithRender] returns normally (it
    does not throw) a promise rejected with the host-not-mounted error,
    and leaves the store as it was. *)
Theorem openWithRender_without_host (r : OpenRender) (s : Store) :
  externalOpenRef s = None →
  openWithRender r s
  = (Normal (FRejected (MkError "ModalProvider is not mounted")), s).
Proof. intros H. unfold openWithRender. run_ops. by rewrite H. Qed.

Lemma openWithRender_without_host_witness :
  externalOpenRef (exec unmountProvider (mounted false)) = None
  ∧ openWithRender FormModalRender (exec unmountProvider (mounted false))
    = (Normal (FRejected (MkError "ModalProvider is not mounted")),
       exec unmountProvider (mounted false)).
Proof.
  split; [reflexivity|].
  apply (openWithRender_without_host FormModalRender
           (exec unmountProvider (mounted false))).
  reflexivity.
Defined.

(** By contrast the hook throws when used outside a provider. *)
Lemma useOpenModal_outside_provider :
  useOpenModal None
  = Throw (MkError "useOpenModal must be used within ModalProvider").
Proof. reflexivity. Qed.

(** ** Scroll containment (C8) *)

Lemma inside_scroll_inside_dialog (tgt : option NodeRef) :
  inside scrollContentPath tgt = true → inside dialogPath tgt = true.
Proof.
  destruct tgt as [[n|p]|]; cbn; try done.
  rewrite !bool_decide_eq_true. intros H.
  etrans; [|exact H]. by exists [0%nat].
Qed.

Lemma capture_handlers_agree (e : UIEvent) :
  handleTouchMoveCapture e = handleWheelCapture e.
Proof. reflexivity. Qed.

Lemma handleWheelCapture_spec (s : Store) (e : UIEvent) :
  isMounted s = true →
  handleWheelCapture e s
  = if inside scrollContentPath (target e) then ((), s) else preventDefault s.
Proof.
  intros Hm. unfold handleWheelCapture, isInsideDialog, isInsideScrollContent,
    dialogRef, scrollContentRef. run_ops. rewrite Hm.
  pose proof (inside_scroll_inside_dialog (target e)) as Hn.
  destruct (target e) as [n|]; cbn in *; [|done].
  destruct (contains scrollContentPath n); cbn.
  - by rewrite Hn.
  - by rewrite orb_true_r.
Qed.

(** C8 on a wheel or touch-move event that reaches the overlay.  The
    capture handlers call [preventDefault] exactly when the target is
    outside the scroll region (which lies inside the dialog container),
    but React runs them as passive listeners and the call is ignored:
    the default action is never prevented, so the page behind the layer
    scrolls all the same, and nothing else of the host changes. *)
Theorem scroll_default_is_not_prevented (s : Store) (tgt : option NodeRef)
  (ev : Event) :
  isMounted s = true → inside overlayPath tgt = true →
  ev = EvWheel tgt ∨ ev = EvTouchMove tgt →
  log (exec (dispatch ev) (exec begin_event s))
  = log s ++ (if inside scrollContentPath tgt then [] else [EPreventDefault])
  ∧ defaultPrevented (exec (dispatch ev) (exec begin_event s)) = false
  ∧ host_state (exec (dispatch ev) (exec begin_event s)) = host_state s
  ∧ (inside scrollContentPath tgt = true → inside dialogPath tgt = true).
Proof.
  intros Hm Ho Hev.
  assert (Hd : exec (dispatch ev) (exec begin_event s)
               = exec (passive_listener
                         (handleWheelCapture
                            {| target := tgt; currentTarget := overlayNode |}))
                   (exec begin_event s)).
  { destruct Hev as [->| ->]; cbn [dispatch];
      rewrite exec_bind, exec_gets, eval_gets, exec_when;
      change (isMounted (exec begin_event s)) with (isMounted s);
      by rewrite Hm, Ho. }
  rewrite Hd. unfold passive_listener, exec, mbind, M_bind, modify.
  cbn [fst snd]. rewrite handleWheelCapture_spec by exact Hm.
  cbn [target].
  repeat split; [..|apply inside_scroll_inside_dialog];
    destruct (inside scrollContentPath tgt); open_store s;
    by rewrite ?app_nil_r.
Qed.

Lemma scroll_default_is_not_prevented_witness :
  let s := run [EvOpen FormModalRender] (mounted false) in
  let s' := exec (dispatch (EvWheel (Some overlayNode))) (exec begin_event s) in
  log s' = log s ++ [EPreventDefault] ∧ defaultPrevented s' = false.
Proof.
  intros s s'.
  destruct (scroll_default_is_not_prevented s (Some overlayNode)
              (EvWheel (Some overlayNode)) eq_refl eq_refl
              (or_introl eq_refl)) as (H1 & H2 & _).
  exact (conj H1 H2).
Defined.

(** ** The host forwards the resolved value as it is (C10) *)

Lemma dispatch_resolve_promises (v : Value) (s : Store) (req : PendingRequest) :
  pending s = Some req →
  promises (exec (turn (EvControls [CallResolve v])) s)
  = settle (resolvePromise req) v (promises s).
Proof.
  intros Hp. rewrite turn_promises.
  open_store s. unfold resolve. run_ops.
  by destruct s_reduced.
Qed.

(** C10.  For an open request, the [resolve] of its render, called with
    [v], fulfils the future with [v] itself, whatever [v] is.
    [resolve null] is the same computation as [cancel], leaves the future
    as every cancellation trigger does, and the page's [handleOpen]
    computes the same result from it. *)
Theorem resolve_forwards_value (s : Store) (req : PendingRequest) (v : Value) :
  pending s = Some req →
  promises s !! resolvePromise req = Some Pending →
  isMounted s = true →
  promises (exec (resolve (pending s) v) s) !! resolvePromise req
  = Some (Fulfilled v)
  ∧ promises (exec (turn (EvControls [CallResolve v])) s) !! resolvePromise req
    = Some (Fulfilled v)
  ∧ resolve (pending s) VNull = cancel (pending s)
  ∧ exec (turn (EvControls [CallResolve VNull])) s
    = exec (turn (EvControls [CallCancel])) s
  ∧ (∀ ev, cancellation_trigger ev →
       promises (exec (turn ev) s) !! resolvePromise req
       = promises (exec (turn (EvControls [CallResolve VNull])) s)
           !! resolvePromise req)
  ∧ handleOpen_result VNull = VNull.
Proof.
  intros Hp Hq Hm. repeat split.
  - rewrite Hp, (resolve_promises v s req). by apply settle_pending.
  - rewrite (dispatch_resolve_promises v s req Hp). by apply settle_pending.
  - intros ev Hev.
    rewrite (dispatch_resolve_promises VNull s req Hp).
    rewrite (settle_pending _ VNull _ Hq).
    by apply trigger_fulfils_with_null.
Qed.

Lemma resolve_forwards_value_witness :
  promises
    (exec (resolve (pending (run [EvOpen (CustomRender 0)] (mounted false)))
             (VString (utf16 "kept as it is")))
       (run [EvOpen (CustomRender 0)] (mounted false))) !! 0%nat
  = Some (Fulfilled (VString (utf16 "kept as it is")))
  ∧ exec (turn (EvControls [CallResolve VNull]))
      (run [EvOpen (CustomRender 0)] (mounted false))
    = exec (turn (EvControls [CallCancel]))
        (run [EvOpen (CustomRender 0)] (mounted false)).
Proof.
  pose proof (resolve_forwards_value
                (run [EvOpen (CustomRender 0)] (mounted false))
                {| render := CustomRender 0; resolvePromise := 0 |}
                (VString (utf16 "kept as it is")) eq_refl eq_refl eq_refl)
    as (H1 & _ & _ & H4 & _).
  split; [exact H1 | exact H4].
Defined.

(** ** The form scenario (C9) *)

Lemma handleSubmit_empty (onResolve : Value → M unit) (f : FormModal)
  (s : Store) :
  trim (email f) = [] →
  handleSubmit onResolve f s
  = ({| email := email f; error := Some "이메일을 입력해 주세요." |},
     exec (preventDefault ;; focus inputRef) s).
Proof. intros H. unfold handleSubmit. rewrite H. reflexivity. Qed.

Lemma handleSubmit_malformed (onResolve : Value → M unit) (f : FormModal)
  (s : Store) :
  trim (email f) ≠ [] →
  isValidEmail (trim (email f)) = false →
  handleSubmit onResolve f s
  = ({| email := email f;
        error := Some "올바른 이메일 형식을 입력해 주세요." |},
     exec (preventDefault ;; focus inputRef) s).
Proof.
  intros Hne Hv. unfold handleSubmit.
  destruct (trim (email f)) as [|c cs] eqn:E; [done|].
  rewrite bool_decide_eq_false_2 by (cbn; lia).
  rewrite Hv. reflexivity.
Qed.

Lemma handleSubmit_valid (onResolve : Value → M unit) (f : FormModal)
  (s : Store) :
  trim (email f) ≠ [] →
  isValidEmail (trim (email f)) = true →
  handleSubmit onResolve f s
  = ({| email := email f; error := None |},
     exec (preventDefault ;;
           onResolve (VObject [("email", VString (trim (email f)))])) s).
Proof.
  intros Hne Hv. unfold handleSubmit.
  destruct (trim (email f)) as [|c cs] eqn:E; [done|].
  rewrite bool_decide_eq_false_2 by (cbn; lia).
  rewrite Hv. reflexivity.
Qed.

(** C9.  In the form scenario no message is shown when the form opens;
    the empty submission leaves the future pending, sets the error, which
    the form then renders as its one alert, and focuses the input; the
    submission of [a@b.co] fulfils the future with [{ email: "a@b.co" }]. *)
Theorem form_scenario (reducedMotion : bool) (trigger : option NodeRef) :
  (scenario_opened reducedMotion trigger).1 = Normal (FHost 0)
  ∧ promises (scenario_opened reducedMotion trigger).2 !! 0%nat = Some Pending
  ∧ shown_alerts (contentDom (scenario_opened reducedMotion trigger).2) = []
  ∧ promises (scenario_empty reducedMotion trigger).2 !! 0%nat = Some Pending
  ∧ error (scenario_empty reducedMotion trigger).1
    = Some "이메일을 입력해 주세요."
  ∧ shown_alerts (contentDom (scenario_empty reducedMotion trigger).2)
    = ["이메일을 입력해 주세요."]
  ∧ activeElement (scenario_empty reducedMotion trigger).2 = Some inputRef
  ∧ promises (scenario_valid reducedMotion trigger).2 !! 0%nat
    = Some (Fulfilled (VObject [("email", VString (utf16 "a@b.co"))]))
  ∧ handleOpen_result (VObject [("email", VString (utf16 "a@b.co"))])
    = VString (utf16 "a@b.co").
Proof.
  destruct reducedMotion, trigger; repeat split; vm_compute; reflexivity.
Qed.

(** ** The focus trap (C3) *)

Lemma elem_of_tabbables (container : Dom) (el : HTMLElement) :
  el ∈ tabbables container
  ↔ el ∈ descendants dialogPath container
    ∧ matches_selector el.2 = true
    ∧ el_aria_hidden el.2 = false
    ∧ el_hidden el.2 = false
    ∧ tabIndex el.2 ≠ (-1)%Z.
Proof.
  unfold tabbables, querySelectorAll, tabbable_filter.
  rewrite !list_elem_of_filter.
  rewrite !andb_True, !negb_True, !Is_true_false, Z.eqb_neq, Is_true_true.
  tauto.
Qed.

Lemma last_default {A} (l : list A) (x d : A) :
  last l = Some x → List.last l d = x.
Proof.
  induction l as [|a [|b l] IH]; intros H; [done| |].
  - cbn in *. congruence.
  - rewrite last_cons_cons in H. exact (IH H).
Qed.

Lemma handleKeydown_tab (s : Store) (e : KeyboardEvent) :
  key e = "Tab" → isMounted s = true →
  handleKeydown e s
  = match tabbables (dialogElement (contentDom s)) with
    | [] => preventDefault s
    | first :: rest =>
        trap (shiftKey e) first (List.last (first :: rest) first) s
    end.
Proof.
  destruct e as [k sh]. cbn [key shiftKey]. intros -> Hm.
  unfold handleKeydown, trap, dialogRef, gets, mbind, M_bind.
  cbn -[tabbables]. rewrite Hm.
  by destruct (tabbables (dialogElement (contentDom s))).
Qed.

(** [tabindex="-1"] gives the tab order -1, whatever the element. *)
Lemma tabIndex_minus_one (a : Attrs) :
  el_tabindex a = Some "-1" → tabIndex a = (-1)%Z.
Proof. intros H. unfold tabIndex. by rewrite H. Qed.

Lemma filter_ext_in {A} (P Q : A → Prop) `{!∀ x, Decision (P x)}
  `{!∀ x, Decision (Q x)} (l : list A) :
  (∀ x, x ∈ l → P x ↔ Q x) → filter P l = filter Q l.
Proof.
  induction l as [|a l IH]; intros Hext; [done|].
  rewrite !filter_cons.
  rewrite IH by (intros x Hx; apply Hext; by right).
  destruct (decide (P a)) as [HP|HP], (decide (Q a)) as [HQ|HQ];
    try done; exfalso.
  - apply HQ, Hext; [by left | done].
  - apply HP, Hext; [by left | done].
Qed.

(** On an element that is not disabled, or is a disabled button or input
    without [tabindex] attribute, the selector and the filter decide as
    the claim's words do, once its "negative" is read as -1. *)
Lemma tabbable_as_claimed (el : HTMLElement) :
  disabled_as_the_selector_sees el = true →
  matches_selector el.2 && tabbable_filter el
  = claimed_tabbable (λ order, (order =? -1)%Z) el.
Proof.
  unfold disabled_as_the_selector_sees, matches_selector, tabbable_filter,
    claimed_tabbable, focusable_kind.
  destruct el as [path a]. cbn [fst snd].
  destruct (el_tabindex a) as [v|] eqn:Ev.
  - destruct (String.eqb_spec v "-1") as [->|Hne].
    + rewrite (tabIndex_minus_one a Ev). intros _.
      destruct (el_tag a), (el_href a), (el_disabled a), (el_aria_hidden a),
        (el_hidden a); done.
    + intros H.
      destruct (el_tag a), (el_href a), (el_disabled a), (el_aria_hidden a),
        (el_hidden a), (tabIndex a =? -1)%Z; done.
  - intros H.
    destruct (el_tag a), (el_href a), (el_disabled a), (el_aria_hidden a),
      (el_hidden a), (tabIndex a =? -1)%Z; done.
Qed.

Lemma tabbables_as_claimed (container : Dom) :
  only_buttons_and_inputs_disabled container = true →
  tabbables container
  = claimed_tabbables (λ order, (order =? -1)%Z) container.
Proof.
  intros H. unfold tabbables, querySelectorAll, claimed_tabbables.
  rewrite list_filter_filter. apply filter_ext_in. intros el Hel.
  unfold only_buttons_and_inputs_disabled in H.
  apply Is_true_true, forallb_True in H.
  rewrite Forall_forall in H. specialize (H el Hel).
  apply Is_true_true in H.
  rewrite <- (tabbable_as_claimed el H).
  rewrite andb_True. tauto.
Qed.

(** With an empty set, a Tab keydown in the layer has its default
    prevented and leaves the focus where it is, whether the handler runs
    once (on the overlay) or twice (on the content element as well). *)
Lemma empty_trap_dispatch (s : Store) (e : KeyboardEvent) (path : list nat) :
  key e = "Tab" → isMounted s = true →
  tabbables (dialogElement (contentDom s)) = [] →
  defaultPrevented
    (exec (dispatch (EvKeydown e (LayerNode path))) (exec begin_event s))
  = true
  ∧ activeElement
      (exec (dispatch (EvKeydown e (LayerNode path))) (exec begin_event s))
    = activeElement s.
Proof.
  intros Hk Hm HT.
  assert (Hrun : ∀ s', isMounted s' = true → contentDom s' = contentDom s →
            handleKeydown e s' = preventDefault s').
  { intros s' Hm' Hc. by rewrite (handleKeydown_tab s' e Hk Hm'), Hc, HT. }
  unfold dispatch, exec, gets, mbind, M_bind, when_. cbn [fst snd].
  change (isMounted (begin_event s).2) with (isMounted s). rewrite Hm.
  cbn [contains overlayPath].
  rewrite (bool_decide_eq_true_2 ([] `prefix_of` path)) by apply prefix_nil.
  destruct (bool_decide (dialogPath `prefix_of` path)).
  - rewrite (Hrun (begin_event s).2 Hm eq_refl).
    rewrite Hrun; [|by open_store s..]. by open_store s.
  - cbn [fst snd mret M_ret].
    rewrite (Hrun (begin_event s).2 Hm eq_refl). by open_store s.
Qed.




(** A [tabindex] outside the range of [long] counts as absent: the [div]
    falls back to its default tab order -1 and is left out of the set,
    which holds the button alone. *)
Lemma out_of_range_tabindex_is_ignored :
  tabIndex (element (tag_other "div") (Some "4294967295")) = (-1)%Z
  ∧ (tabbables
       (dialogElement
          [El (element tag_button None) [];
           El (element (tag_other "div") (Some "4294967295")) []])).*1
    = [[0; 0; 0]%nat].
Proof. split; vm_compute; reflexivity. Qed.

(** A disabled [textarea] is selected all the same, and the browser does
    not let it take the focus: Tab on the last element then has its
    default prevented and the focus stays on that element. *)
Lemma disabled_textarea_is_kept :
  let textarea :=
    {| el_tag := tag_textarea; el_href := false; el_disabled := true;
       el_tabindex := None; el_aria_hidden := false; el_hidden := false;
       el_role := None; el_focusable := false |} in
  let content := [El textarea []; El (element tag_button None) []] in
  let s := with_activeElement (Some (LayerNode [0; 0; 1]%nat))
             (with_contentDom content
                (run [EvOpen (CustomRender 0)] (mounted false))) in
  (tabbables (dialogElement content)).*1 = [[0; 0; 0]; [0; 0; 1]]%nat
  ∧ activeElement
      (exec (turn (EvKeydown {| key := "Tab"; shiftKey := false |}
                     (LayerNode [0; 0; 1]%nat))) s)
    = Some (LayerNode [0; 0; 1]%nat)
  ∧ defaultPrevented
      (exec (turn (EvKeydown {| key := "Tab"; shiftKey := false |}
                     (LayerNode [0; 0; 1]%nat))) s)
    = true.
Proof. repeat split; vm_compute; reflexivity. Qed.

(** What a run of the trap does to the focus. *)
Lemma trap_activeElement (shift : bool) (first lst : HTMLElement)
  (s : Store) :
  activeElement (exec (trap shift first lst) s)
  = if negb shift && is_active (activeElement s) lst.1 then
      if el_focusable first.2 then Some (LayerNode first.1)
      else activeElement s
    else if shift && (is_active (activeElement s) first.1
                      || is_active (activeElement s) dialogPath) then
      if el_focusable lst.2 then Some (LayerNode lst.1) else activeElement s
    else activeElement s.
Proof.
  unfold trap, HTMLElement_focus, preventDefault, focus, emit, modify, when_,
    exec, gets, mbind, M_bind.
  cbn [fst snd].
  destruct (negb shift && _);
    [by destruct (el_focusable first.2), (inPassiveListener s)|].
  destruct (shift && _);
    [by destruct (el_focusable lst.2), (inPassiveListener s)|done].
Qed.

Lemma trap_frame (shift : bool) (first lst : HTMLElement) (s : Store) :
  isMounted (exec (trap shift first lst) s) = isMounted s
  ∧ contentDom (exec (trap shift first lst) s) = contentDom s.
Proof.
  unfold trap, HTMLElement_focus, preventDefault, focus, emit, modify, when_,
    exec, gets, mbind, M_bind.
  cbn [fst snd].
  destruct (negb shift && _);
    [by destruct (el_focusable first.2), (inPassiveListener s)|].
  destruct (shift && _);
    [by destruct (el_focusable lst.2), (inPassiveListener s)|done].
Qed.

(** X16.  The handler is attached to the content element and to the
    overlay, so a Tab keydown inside the content runs it twice; the second
    run leaves the focus where the first one put it.  Tab on the last
    element of the set ends on the first, Shift+Tab on the first or on the
    dialog container ends on the last, when the browser lets that element
    take the focus; when it does not, the focus stays where it was. *)
Lemma tab_dispatch_wraps (s : Store) (e : KeyboardEvent) (path : list nat)
  (first lst : HTMLElement) :
  key e = "Tab" → isMounted s = true →
  head (tabbables (dialogElement (contentDom s))) = Some first →
  last (tabbables (dialogElement (contentDom s))) = Some lst →
  (shiftKey e = false → activeElement s = Some (LayerNode lst.1) →
     activeElement (exec (dispatch (EvKeydown e (LayerNode path))) s)
     = Some (LayerNode (if el_focusable first.2 then first.1 else lst.1)))
  ∧ (shiftKey e = true →
     activeElement s = Some (LayerNode first.1)
     ∨ activeElement s = Some dialogNode →
     activeElement (exec (dispatch (EvKeydown e (LayerNode path))) s)
     = if el_focusable lst.2 then Some (LayerNode lst.1)
       else activeElement s).
Proof.
  intros Hk Hm Hh Hl.
  assert (Hrun : ∀ s', isMounted s' = true → contentDom s' = contentDom s →
            handleKeydown e s' = trap (shiftKey e) first lst s').
  { intros s' Hm' Hc. rewrite (handleKeydown_tab s' e Hk Hm'), Hc.
    destruct (tabbables (dialogElement (contentDom s))) as [|x rest] eqn:ET;
      [done|].
    cbn in Hh. injection Hh as ->. by rewrite (last_default _ lst first Hl). }
  destruct (trap_frame (shiftKey e) first lst s) as [Hm1 Hc1].
  assert (Hd : exec (dispatch (EvKeydown e (LayerNode path))) s
               = if contains dialogPath (LayerNode path) then
                   exec (trap (shiftKey e) first lst)
                     (exec (trap (shiftKey e) first lst) s)
                 else exec (trap (shiftKey e) first lst) s).
  { unfold dispatch, exec, gets, mbind, M_bind, when_. cbn [fst snd].
    rewrite Hm. cbn [contains overlayPath].
    rewrite (bool_decide_eq_true_2 ([] `prefix_of` path)) by apply prefix_nil.
    destruct (bool_decide (dialogPath `prefix_of` path)).
    - rewrite (Hrun s Hm eq_refl).
      rewrite Hrun; [done | exact (eq_trans Hm1 Hm) | exact Hc1].
    - cbn [fst snd mret M_ret]. by rewrite (Hrun s Hm eq_refl). }
  rewrite Hd.
  split.
  - intros Hs Ha.
    assert (H1 : activeElement (exec (trap (shiftKey e) first lst) s)
                 = Some (LayerNode
                           (if el_focusable first.2 then first.1 else lst.1))).
    { rewrite trap_activeElement, Hs, Ha. unfold is_active. cbn [negb andb].
      rewrite bool_decide_eq_true_2 by done.
      by destruct (el_focusable first.2). }
    destruct (contains dialogPath (LayerNode path)); [|exact H1].
    rewrite trap_activeElement, H1, Hs. unfold is_active. cbn [negb andb].
    destruct (el_focusable first.2) eqn:Hf.
    + by destruct (bool_decide _).
    + by rewrite bool_decide_eq_true_2.
  - intros Hs Ha.
    assert (Hb : is_active (activeElement s) first.1
                 || is_active (activeElement s) dialogPath = true).
    { unfold is_active. destruct Ha as [Ha|Ha].
      - by rewrite (bool_decide_eq_true_2 _ Ha).
      - rewrite (bool_decide_eq_true_2
                   (activeElement s = Some (LayerNode dialogPath)) Ha).
        apply orb_true_r. }
    assert (H1 : activeElement (exec (trap (shiftKey e) first lst) s)
                 = if el_focusable lst.2 then Some (LayerNode lst.1)
                   else activeElement s).
    { rewrite trap_activeElement, Hs, Hb. done. }
    destruct (contains dialogPath (LayerNode path)); [|exact H1].
    rewrite trap_activeElement, H1, Hs. cbn [negb andb].
    destruct (el_focusable lst.2) eqn:Hf; by repeat case_match.
Qed.

(** ** What a render makes of the update queue *)

Lemma foldl_apply_update (us : list Update) (s : Store) :
  foldl apply_update s us
  = with_committed (foldl apply_committed (committed s) us) s.
Proof.
  revert s. induction us as [|u us IH]; intros s; cbn [foldl].
  - by destruct s.
  - rewrite IH. by destruct s, u.
Qed.

Lemma flush_eq (s : Store) :
  flush s = with_updates [] (with_committed (logical s) s).
Proof. unfold flush, logical. by rewrite foldl_apply_update. Qed.

Lemma committed_flush (s : Store) : committed (flush s) = logical s.
Proof. rewrite flush_eq. by destruct (logical s) as [[p m] v]. Qed.

Lemma logical_quiescent (s : Store) :
  updates s = [] → logical s = committed s.
Proof. intros H. unfold logical. by rewrite H. Qed.

(** ** Settlements, written out *)

Lemma resolve_with_pending (value : Value) (s : Store) (req : PendingRequest) :
  exec (resolve (Some req) value) s = settled req value s.
Proof.
  open_store s. unfold resolve, settled. run_ops.
  destruct s_reduced; store_norm; rewrite <- ?app_assoc, ?app_nil_r;
    reflexivity.
Qed.

Lemma call_control_with_pending (c : ControlCall) (s : Store)
  (req : PendingRequest) :
  exec (call_control (Some req) c) s = settled req (control_value c) s.
Proof.
  destruct c; cbn [call_control control_value].
  - apply resolve_with_pending.
  - rewrite cancel_is_resolve_null. apply resolve_with_pending.
Qed.

Lemma call_control_without_pending (c : ControlCall) (s : Store) :
  call_control None c s = ((), s).
Proof. by destruct c. Qed.

Lemma call_controls_cons (p : option PendingRequest) (c : ControlCall)
  (cs : list ControlCall) (s : Store) :
  exec (call_controls p (c :: cs)) s
  = exec (call_controls p cs) (exec (call_control p c) s).
Proof. reflexivity. Qed.

Lemma call_controls_with_pending (cs : list ControlCall) (s : Store)
  (req : PendingRequest) :
  exec (call_controls (Some req) cs) s = settled_all req cs s.
Proof.
  revert s. induction cs as [|c cs IH]; intros s; [done|].
  rewrite call_controls_cons, (call_control_with_pending c s req).
  by rewrite IH.
Qed.

Lemma call_controls_without_pending (cs : list ControlCall) (s : Store) :
  exec (call_controls None cs) s = s.
Proof.
  induction cs as [|c cs IH]; [done|].
  rewrite call_controls_cons. unfold exec at 2.
  by rewrite (call_control_without_pending c s).
Qed.

Lemma visual_sets_app (l k : list Effect) :
  visual_sets (l ++ k) = visual_sets l ++ visual_sets k.
Proof. apply omap_app. Qed.

Lemma visual_updates_app (l k : list Update) :
  visual_updates (l ++ k) = visual_updates l ++ visual_updates k.
Proof. apply omap_app. Qed.

Lemma settle_settle (p : nat) (v w : Value) (ps : list PromiseState) :
  settle p w (settle p v ps) = settle p v ps.
Proof.
  destruct (ps !! p) as [[|u]|] eqn:E.
  - apply (settle_already p w v). by apply settle_pending.
  - by rewrite (settle_already p v u ps E), (settle_already p w u ps E).
  - unfold settle at 2. rewrite E. unfold settle. by rewrite E.
Qed.

Lemma settled_all_cons req c cs s :
  settled_all req (c :: cs) s
  = settled_all req cs (settled req (control_value c) s).
Proof. reflexivity. Qed.

Lemma settled_all_frame req cs s :
  settlement_frame (settled_all req cs s) = settlement_frame s.
Proof.
  revert s. induction cs as [|c cs IH]; intros s; [done|].
  by rewrite settled_all_cons, IH.
Qed.

Lemma settled_all_reduced req cs s :
  prefersReducedMotionRef (settled_all req cs s) = prefersReducedMotionRef s.
Proof.
  pose proof (settled_all_frame req cs s) as H. unfold settlement_frame in H.
  congruence.
Qed.

Lemma settled_all_committed req cs s :
  committed (settled_all req cs s) = committed s.
Proof.
  pose proof (settled_all_frame req cs s) as H. unfold settlement_frame in H.
  congruence.
Qed.

Lemma settled_all_previous req cs s :
  previousActiveElementRef (settled_all req cs s) = previousActiveElementRef s.
Proof.
  pose proof (settled_all_frame req cs s) as H. unfold settlement_frame in H.
  congruence.
Qed.

Lemma settled_all_updates req cs s :
  updates (settled_all req cs s)
  = updates s ++ repeat_batch (length cs) (prefersReducedMotionRef s).
Proof.
  revert s. induction cs as [|c cs IH]; intros s.
  - cbn. by rewrite app_nil_r.
  - rewrite settled_all_cons, IH. cbn. by rewrite <- app_assoc.
Qed.

Lemma settled_all_microtasks req cs s :
  microtasks (settled_all req cs s)
  = microtasks s ++ batch_microtasks (length cs) (prefersReducedMotionRef s).
Proof.
  revert s. induction cs as [|c cs IH]; intros s.
  - unfold batch_microtasks. cbn. destruct (prefersReducedMotionRef s);
      by rewrite app_nil_r.
  - rewrite settled_all_cons, IH. cbn.
    unfold batch_microtasks, settlement_microtasks.
    destruct (prefersReducedMotionRef s); cbn; by rewrite <- app_assoc.
Qed.

Lemma settled_all_log req cs s :
  visual_sets (log (settled_all req cs s))
  = visual_sets (log s)
    ++ visual_updates (repeat_batch (length cs) (prefersReducedMotionRef s)).
Proof.
  revert s. induction cs as [|c cs IH]; intros s.
  - cbn. by rewrite app_nil_r.
  - rewrite settled_all_cons, IH. cbn [length repeat_batch].
    rewrite visual_updates_app, app_assoc. f_equal.
    unfold settled. cbn. rewrite visual_sets_app.
    by destruct (prefersReducedMotionRef s).
Qed.

Lemma settled_all_owed req cs s :
  cs ≠ [] → restoreFocusOnCloseRef (settled_all req cs s) = true.
Proof.
  revert s. induction cs as [|c cs IH]; intros s H; [done|].
  rewrite settled_all_cons.
  destruct cs as [|c' cs']; [done|]. by apply IH.
Qed.

Lemma settled_all_promises req c cs s :
  promises (settled_all req (c :: cs) s)
  = settle (resolvePromise req) (control_value c) (promises s).
Proof.
  revert s c. induction cs as [|c' cs IH]; intros s c; [done|].
  rewrite settled_all_cons, IH. cbn. apply settle_settle.
Qed.

(** ** The lifecycle machine is refined by the handlers *)

Lemma essence_settled_all req c cs s :
  essence (settled_all req (c :: cs) s)
  = settledE req (S (length cs)) (control_value c) (essence s).
Proof.
  unfold essence, settledE. cbn [e_committed e_updates e_microtasks e_promises
    e_owed e_reduced e_visual].
  rewrite settled_all_committed, settled_all_updates, settled_all_microtasks,
    settled_all_promises, settled_all_reduced, settled_all_log.
  by rewrite settled_all_owed.
Qed.

(** Operations that leave the essence alone. *)
Lemma essence_preventDefault s : essence (exec preventDefault s) = essence s.
Proof.
  unfold essence. run_ops.
  destruct (inPassiveListener s); cbn; by rewrite visual_sets_app, app_nil_r.
Qed.

Lemma essence_focus n s : essence (exec (focus n) s) = essence s.
Proof.
  unfold essence. run_ops. by rewrite visual_sets_app, app_nil_r.
Qed.

Lemma essence_stopPropagation s : essence (exec stopPropagation s) = essence s.
Proof.
  unfold essence. run_ops. by rewrite visual_sets_app, app_nil_r.
Qed.

Lemma essence_begin_event s : essence (exec begin_event s) = essence s.
Proof. reflexivity. Qed.

Lemma essence_HTMLElement_focus el s :
  essence (exec (HTMLElement_focus el) s) = essence s.
Proof.
  unfold HTMLElement_focus.
  destruct (el_focusable el.2); [apply essence_focus|].
  unfold essence. run_ops. by rewrite visual_sets_app, app_nil_r.
Qed.

Lemma essence_trap shift first lst s :
  essence (exec (trap shift first lst) s) = essence s.
Proof.
  unfold trap, exec, gets, mbind, M_bind. cbn [fst snd].
  destruct (_ && _).
  - fold (exec preventDefault s).
    fold (exec (HTMLElement_focus first) (exec preventDefault s)).
    by rewrite essence_HTMLElement_focus, essence_preventDefault.
  - destruct (_ && _); [|done].
    fold (exec preventDefault s).
    fold (exec (HTMLElement_focus lst) (exec preventDefault s)).
    by rewrite essence_HTMLElement_focus, essence_preventDefault.
Qed.

Lemma is_escape_b_spec (e : KeyboardEvent) : is_escape_b e = true ↔ is_escape e.
Proof.
  unfold is_escape_b, is_escape.
  rewrite orb_true_iff, !String.eqb_eq. done.
Qed.

Lemma handleKeydown_escape_exec (e : KeyboardEvent) (s : Store) :
  is_escape_b e = true →
  exec (handleKeydown e) s = exec (cancel (pending s)) (exec preventDefault s).
Proof.
  intros H. apply is_escape_b_spec in H.
  rewrite (handleKeydown_escape e H).
  unfold exec, current, preventDefault, emit, modify, when_, gets, mbind,
    M_bind.
  cbn [fst snd]. by destruct (inPassiveListener s).
Qed.

Lemma handleKeydown_other_essence (e : KeyboardEvent) (s : Store) :
  is_escape_b e = false →
  essence (exec (handleKeydown e) s) = essence s.
Proof.
  intros H. unfold handleKeydown. fold (is_escape_b e). rewrite H.
  destruct (key e =? "Tab")%string; [|done].
  unfold exec, gets, mbind, M_bind. cbn [fst snd].
  destruct (dialogRef s) as [c|]; [|done].
  destruct (tabbables c) as [|first rest] eqn:ET.
  - apply essence_preventDefault.
  - apply (essence_trap (shiftKey e) first (List.last (first :: rest) first)).
Qed.

Lemma essence_settled req v s :
  essence (settled req v s) = settledE req 1 v (essence s).
Proof. apply (essence_settled_all req (CallResolve v) [] s). Qed.

Lemma repeat_batch_snoc n reduced :
  repeat_batch (S n) reduced
  = repeat_batch n reduced ++ settlement_updates reduced.
Proof.
  induction n as [|n IH]; cbn [repeat_batch] in *.
  - by rewrite app_nil_r.
  - by rewrite IH at 1; rewrite app_assoc.
Qed.

Lemma settledE_again req n v w x :
  n ≠ 0%nat →
  settledE req 1 w (settledE req n v x) = settledE req (S n) v x.
Proof.
  intros Hn. unfold settledE.
  cbn [e_committed e_updates e_microtasks e_promises e_owed e_reduced
         e_visual].
  rewrite settle_settle, (repeat_batch_snoc n), visual_updates_app.
  cbn [repeat_batch]. rewrite !app_nil_r, <- !app_assoc.
  f_equal. unfold batch_microtasks.
  destruct (e_reduced x); [|done].
  change [RestoreFocus] with (replicate 1 RestoreFocus).
  by rewrite <- replicate_add, Nat.add_1_r.
Qed.

Lemma essence_cancel_with_pending req s :
  essence (exec (cancel (Some req)) s) = settledE req 1 VNull (essence s).
Proof.
  by rewrite cancel_is_resolve_null, resolve_with_pending, essence_settled.
Qed.

Lemma pending_preventDefault s : pending (exec preventDefault s) = pending s.
Proof.
  unfold exec, preventDefault, emit, modify, when_, gets, mbind, M_bind.
  cbn [fst snd]. by destruct (inPassiveListener s).
Qed.

Lemma essence_open r s :
  essence (exec (open r) s) = openedE r (essence s).
Proof.
  open_store s. unfold open, essence, openedE, committed. run_ops. store_norm.
  rewrite !visual_sets_app. cbn. by rewrite <- !app_assoc.
Qed.

Lemma handleKeydown_escape_step (e : KeyboardEvent) (s : Store)
  (req : PendingRequest) :
  is_escape_b e = true → pending s = Some req →
  pending (exec (handleKeydown e) s) = Some req
  ∧ essence (exec (handleKeydown e) s) = settledE req 1 VNull (essence s).
Proof.
  intros He Hp. rewrite handleKeydown_escape_exec by done.
  rewrite Hp, cancel_is_resolve_null.
  rewrite (resolve_with_pending VNull (exec preventDefault s) req).
  split.
  - change (pending (exec preventDefault s) = Some req).
    by rewrite pending_preventDefault.
  - by rewrite essence_settled, essence_preventDefault.
Qed.

Lemma handleKeydown_escape_idle (e : KeyboardEvent) (s : Store) :
  is_escape_b e = true → pending s = None →
  pending (exec (handleKeydown e) s) = None
  ∧ essence (exec (handleKeydown e) s) = essence s.
Proof.
  intros He Hp. rewrite handleKeydown_escape_exec by done.
  rewrite Hp. split; [|apply essence_preventDefault].
  change (pending (exec preventDefault s) = None).
  by rewrite pending_preventDefault.
Qed.

Lemma essence_unmount_path (s : Store) :
  essence
    (exec (setIsMounted false ;;
           setVisualState vs_unmounted ;;
           setPending None ;;
           owed ← gets restoreFocusOnCloseRef;
           when_ owed (queueMicrotask RestoreFocus)) s)
  = unmountedE (essence s).
Proof.
  open_store s. unfold essence, unmountedE, committed. run_ops.
  destruct s_owed; store_norm; rewrite !visual_sets_app; cbn;
    by rewrite ?app_nil_r, <- ?app_assoc.
Qed.

Lemma essence_passive_listener (m : M unit) (s : Store) :
  essence (exec (passive_listener m) s)
  = essence (exec m (with_inPassiveListener true s)).
Proof. reflexivity. Qed.

Lemma essence_capture (e : UIEvent) (s : Store) :
  essence (exec (handleWheelCapture e) s) = essence s.
Proof.
  unfold handleWheelCapture, isInsideDialog, isInsideScrollContent.
  rewrite !exec_bind, !exec_gets, !eval_gets, exec_when.
  destruct (_ || _); [|done]. apply essence_preventDefault.
Qed.

(** Every dispatch is a step of the lifecycle machine. *)
Lemma dispatch_refines (ev : Event) (s : Store) :
  Dispatch ev (essence s) (essence (exec (dispatch ev) s)).
Proof.
  destruct ev as [r|cs|req cs|e tgt|tgt|tgt|tgt|tgt|b|content|n];
    cbn [dispatch].
  - (* open *)
    unfold openWithRender, exec, gets, mbind, M_bind. cbn [fst snd].
    destruct (externalOpenRef s) as [[]|] eqn:Hext.
    + cbn [call_open fst snd mret M_ret].
      fold (exec (open r) s). rewrite essence_open. constructor.
    + constructor.
  - (* controls of the last render *)
    rewrite exec_current.
    destruct (pending s) as [req|] eqn:Hp.
    + rewrite (call_controls_with_pending cs s req).
      destruct cs as [|c cs]; [constructor|].
      rewrite essence_settled_all. by apply dispatch_settle.
    + rewrite (call_controls_without_pending cs s). constructor.
  - (* retained controls *)
    rewrite (call_controls_with_pending cs s req).
    destruct cs as [|c cs]; [constructor|].
    rewrite essence_settled_all. by apply dispatch_settle.
  - (* keydown *)
    rewrite exec_bind, exec_gets, eval_gets, exec_when.
    destruct (isMounted s); [|constructor].
    rewrite exec_bind, !exec_when.
    destruct (is_escape_b e) eqn:He.
    + destruct (pending s) as [req|] eqn:Hp.
      * destruct (contains dialogPath tgt), (contains overlayPath tgt).
        -- destruct (handleKeydown_escape_step e s req He Hp) as [P1 E1].
           destruct (handleKeydown_escape_step e _ req He P1) as [_ E2].
           rewrite E2, E1, settledE_again by done. by constructor.
        -- destruct (handleKeydown_escape_step e s req He Hp) as [_ E1].
           rewrite E1. by constructor.
        -- destruct (handleKeydown_escape_step e s req He Hp) as [_ E1].
           rewrite E1. by constructor.
        -- constructor.
      * destruct (contains dialogPath tgt), (contains overlayPath tgt).
        -- destruct (handleKeydown_escape_idle e s He Hp) as [P1 E1].
           destruct (handleKeydown_escape_idle e _ He P1) as [_ E2].
           rewrite E2, E1. constructor.
        -- destruct (handleKeydown_escape_idle e s He Hp) as [_ E1].
           rewrite E1. constructor.
        -- destruct (handleKeydown_escape_idle e s He Hp) as [_ E1].
           rewrite E1. constructor.
        -- constructor.
    + destruct (contains dialogPath tgt), (contains overlayPath tgt);
        rewrite ?handleKeydown_other_essence by done; constructor.
  - (* click *)
    rewrite exec_bind, exec_gets, eval_gets, exec_when.
    destruct (isMounted s); [|constructor].
    destruct (contains dialogPath tgt).
    { rewrite essence_stopPropagation. constructor. }
    rewrite exec_when.
    destruct (contains overlayPath tgt); [|constructor].
    unfold handleOverlayClick. rewrite exec_when. cbn [target currentTarget].
    case_bool_decide; [|constructor].
    rewrite exec_current.
    destruct (pending s) as [req|] eqn:Hp.
    + rewrite (essence_cancel_with_pending req s). by apply dispatch_settle.
    + constructor.
  - (* animation end *)
    rewrite exec_bind, exec_gets, eval_gets, exec_when.
    destruct (isMounted s) eqn:Hm; [|constructor].
    destruct (contains overlayPath tgt); cbn [andb]; [|constructor].
    unfold handleOverlayAnimationEnd. cbn [target currentTarget].
    case_bool_decide as Ht; [constructor|].
    assert (tgt = overlayNode) as -> by congruence.
    rewrite exec_bind, exec_gets, eval_gets, exec_when.
    case_bool_decide as Hv; [|constructor].
    rewrite essence_unmount_path. by constructor.
  - (* wheel *)
    rewrite exec_bind, exec_gets, eval_gets, exec_when.
    destruct (_ && _); [|constructor].
    rewrite essence_passive_listener, essence_capture. constructor.
  - (* touch move *)
    rewrite exec_bind, exec_gets, eval_gets, exec_when.
    destruct (_ && _); [|constructor].
    rewrite essence_passive_listener, capture_handlers_agree, essence_capture.
    constructor.
  - (* media change *)
    apply dispatch_media.
  - (* render *)
    constructor.
  - (* focus change *)
    constructor.
Qed.

Lemma essence_flush (s : Store) :
  essence (flush s) = rendered (logical s) (visual_sets (log s)) (essence s).
Proof.
  rewrite flush_eq. unfold essence, rendered. cbn.
  by destruct (logical s) as [[p m] v].
Qed.

Lemma isOpen_flush (s : Store) : isOpen (flush s) = openC (logical s).
Proof.
  unfold isOpen, openC.
  change (pending (flush s)) with (committed (flush s)).1.1.
  by rewrite committed_flush.
Qed.

Lemma updates_flush (s : Store) : updates (flush s) = [].
Proof. by rewrite flush_eq. Qed.

Lemma flush_quiescent (s : Store) : updates s = [] → flush s = s.
Proof. intros H. unfold flush. rewrite H. open_store s. done. Qed.

Lemma isOpenEffect_closed (s : Store) :
  isOpen s = false → exec isOpenEffect s = s.
Proof.
  intros H. unfold isOpenEffect.
  rewrite exec_bind, exec_gets, eval_gets, exec_when.
  by rewrite H.
Qed.

Lemma essence_isOpenEffect_open (s : Store) :
  isOpen s = true → updates s = [] →
  essence (flush (exec isOpenEffect s))
  = rendered ((e_committed (essence s)).1.1, true, vs_open)
      (e_visual (essence s) ++ [vs_open]) (essence s).
Proof.
  intros H Hu. unfold isOpenEffect.
  rewrite exec_bind, exec_gets, eval_gets, exec_when, H.
  rewrite essence_flush.
  open_store s. unfold rendered, essence, logical, committed. run_ops.
  store_norm. rewrite !visual_sets_app. cbn. by rewrite app_nil_r.
Qed.

Lemma essence_commit (s : Store) :
  essence (exec commit s) = commitE (essence s).
Proof.
  rewrite commit_unfold. unfold commitE.
  cbn [essence e_committed e_updates e_visual].
  fold (logical s). rewrite isOpen_flush.
  change (isOpen s) with (openC (committed s)).
  destruct (Bool.eqb _ _).
  - apply essence_flush.
  - destruct (openC (logical s)) eqn:Hl.
    + rewrite essence_isOpenEffect_open.
      * rewrite essence_flush. unfold rendered.
        by cbn [e_committed e_updates e_microtasks e_promises e_owed
                  e_reduced e_visual essence].
      * by rewrite isOpen_flush.
      * apply updates_flush.
    + rewrite isOpenEffect_closed by (by rewrite isOpen_flush).
      rewrite (flush_quiescent (flush s)) by apply updates_flush.
      apply essence_flush.
Qed.

Lemma essence_run_microtask (m : Microtask) (s : Store) :
  essence (exec (run_microtask m) s) = restored false (essence s).
Proof.
  destruct m. open_store s.
  unfold run_microtask, essence, restored, committed. run_ops.
  destruct s_previous; store_norm; cbn;
    by rewrite !visual_sets_app, ?app_nil_r.
Qed.

Lemma essence_run_microtasks (ms : list Microtask) (s : Store) :
  essence (foldl (λ st m, exec (run_microtask m) st) s ms)
  = restored (match ms with [] => restoreFocusOnCloseRef s | _ => false end)
      (essence s).
Proof.
  revert s. induction ms as [|m ms IH]; intros s.
  { by destruct s. }
  cbn [foldl]. rewrite IH, essence_run_microtask.
  destruct ms as [|m' ms']; [|done].
  change (restoreFocusOnCloseRef (exec (run_microtask m) s))
    with (e_owed (essence (exec (run_microtask m) s))).
  by rewrite essence_run_microtask.
Qed.

Lemma essence_runMicrotasks (s : Store) :
  essence (exec runMicrotasks s) = microE (essence s).
Proof.
  unfold exec, runMicrotasks. cbn [snd].
  by rewrite essence_run_microtasks.
Qed.

(** A turn is a step of the machine, a render and the microtasks. *)
Lemma turn_essence (ev : Event) (s : Store) :
  ∃ y, Dispatch ev (essence s) y
       ∧ essence (exec (turn ev) s) = microE (commitE y).
Proof.
  exists (essence (exec (dispatch ev) (exec begin_event s))). split.
  - rewrite <- (essence_begin_event s) at 1. apply dispatch_refines.
  - by rewrite turn_unfold, essence_runMicrotasks, essence_commit.
Qed.

(** Events whose handlers leave the machine where it is. *)
Lemma other_keys_keep_promises (e : KeyboardEvent) (tgt : NodeRef)
  (s : Store) :
  is_escape_b e = false →
  essence (exec (dispatch (EvKeydown e tgt)) s) = essence s.
Proof.
  intros He. cbn [dispatch].
  rewrite exec_bind, exec_gets, eval_gets, exec_when.
  destruct (isMounted s); [|done].
  rewrite exec_bind, !exec_when.
  destruct (contains dialogPath tgt), (contains overlayPath tgt);
    by rewrite ?handleKeydown_other_essence.
Qed.

Lemma click_off_overlay (tgt : NodeRef) (s : Store) :
  tgt ≠ overlayNode →
  exec (dispatch (EvClick tgt)) s
  = if isMounted s && contains dialogPath tgt then exec stopPropagation s
    else s.
Proof.
  intros Hne. cbn [dispatch].
  rewrite exec_bind, exec_gets, eval_gets, exec_when.
  destruct (isMounted s); [|done]. cbn [andb].
  destruct (contains dialogPath tgt); [done|].
  rewrite exec_when. destruct (contains overlayPath tgt); [|done].
  unfold handleOverlayClick. rewrite exec_when. cbn [target currentTarget].
  rewrite bool_decide_eq_false_2; [done|]. congruence.
Qed.

(** ** The order of render and microtasks *)

Lemma flush_frame {A} (g : Store → A) (s : Store) :
  (∀ a u, g (apply_update a u) = g a) → (∀ a, g (with_updates [] a) = g a) →
  g (flush s) = g s.
Proof.
  intros H1 H2. unfold flush. rewrite H2.
  by apply (foldl_frame apply_update g).
Qed.

Lemma commit_ambient (s : Store) :
  ambient (exec commit s) = ambient s
  ∧ activeElement (exec commit s) = activeElement s.
Proof.
  assert (Hf : ∀ t, ambient (flush t) = ambient t
                    ∧ activeElement (flush t) = activeElement t).
  { intros t. split; apply flush_frame; try done; by intros a []. }
  assert (He : ∀ t, ambient (exec isOpenEffect t) = ambient t
                    ∧ activeElement (exec isOpenEffect t) = activeElement t).
  { intros t. unfold isOpenEffect. run_ops. by destruct (isOpen t). }
  rewrite commit_unfold. destruct (Bool.eqb _ _); [apply Hf|].
  destruct (Hf (exec isOpenEffect (flush s))) as [-> ->].
  destruct (He (flush s)) as [-> ->]. apply Hf.
Qed.

Lemma run_microtask_ambient (m : Microtask) (s : Store) :
  ambient (exec (run_microtask m) s) = ambient s
  ∧ activeElement (exec (run_microtask m) s)
    = match previousActiveElementRef s with
      | Some el => Some el
      | None => activeElement s
      end.
Proof.
  destruct m. unfold run_microtask. run_ops.
  by destruct (previousActiveElementRef s).
Qed.

Lemma runMicrotasks_ambient (s : Store) :
  ambient (exec runMicrotasks s) = ambient s
  ∧ activeElement (exec runMicrotasks s)
    = match microtasks s, previousActiveElementRef s with
      | _ :: _, Some el => Some el
      | _, _ => activeElement s
      end.
Proof.
  unfold exec, runMicrotasks. cbn [snd].
  assert (H : ∀ ms t,
            ambient (foldl (λ st m, exec (run_microtask m) st) t ms) = ambient t
            ∧ activeElement (foldl (λ st m, exec (run_microtask m) st) t ms)
              = match ms, previousActiveElementRef t with
                | _ :: _, Some el => Some el
                | _, _ => activeElement t
                end).
  { induction ms as [|m ms IH]; intros t; cbn [foldl]; [done|].
    destruct (IH (exec (run_microtask m) t)) as [-> ->].
    destruct (run_microtask_ambient m t) as [Ha Hb]. rewrite Ha.
    split; [done|]. rewrite Hb.
    assert (Hp : previousActiveElementRef (exec (run_microtask m) t)
                 = previousActiveElementRef t).
    { unfold ambient in Ha. congruence. }
    rewrite Hp. clear. by destruct (previousActiveElementRef t), ms. }
  destruct (H (microtasks s) (with_microtasks [] s)) as [-> ->].
  by destruct s.
Qed.

Lemma microE_commitE (x : Essence) : microE (commitE x) = commitE (microE x).
Proof.
  unfold commitE.
  change (e_committed (microE x)) with (e_committed x).
  change (e_updates (microE x)) with (e_updates x).
  change (e_visual (microE x)) with (e_visual x).
  destruct (Bool.eqb _ _); [done|]. by destruct (openC _).
Qed.

Lemma host_state_by_essence (s t : Store) :
  e_committed (essence s) = e_committed (essence t) →
  e_updates (essence s) = e_updates (essence t) →
  e_microtasks (essence s) = e_microtasks (essence t) →
  e_promises (essence s) = e_promises (essence t) →
  e_owed (essence s) = e_owed (essence t) →
  e_reduced (essence s) = e_reduced (essence t) →
  ambient s = ambient t → activeElement s = activeElement t →
  host_state s = host_state t.
Proof.
  destruct s, t. unfold host_state, ambient, committed. cbn.
  intros. by simplify_eq.
Qed.

(** The host's state after a turn does not depend on whether the render
    or the microtasks come first. *)
Lemma render_and_microtasks_commute (s : Store) :
  host_state (exec runMicrotasks (exec commit s))
  = host_state (exec commit (exec runMicrotasks s)).
Proof.
  pose proof (essence_runMicrotasks (exec commit s)) as H1.
  rewrite essence_commit, microE_commitE in H1.
  pose proof (essence_commit (exec runMicrotasks s)) as H2.
  rewrite essence_runMicrotasks in H2.
  destruct (runMicrotasks_ambient (exec commit s)) as [A1 B1].
  destruct (commit_ambient s) as [A2 B2].
  destruct (commit_ambient (exec runMicrotasks s)) as [A3 B3].
  destruct (runMicrotasks_ambient s) as [A4 B4].
  assert (Hm : microtasks (exec commit s) = microtasks s).
  { change (e_microtasks (essence (exec commit s)) = e_microtasks (essence s)).
    rewrite essence_commit. unfold commitE. by repeat case_match. }
  apply host_state_by_essence; rewrite ?H1, ?H2; try reflexivity.
  - by rewrite A1, A2, A3, A4.
  - rewrite B1, B3, B4, Hm, B2.
    assert (previousActiveElementRef (exec commit s)
            = previousActiveElementRef s) as ->; [|done].
    unfold ambient in A2. congruence.
Qed.

(** ** The invariants of the states between turns *)

Lemma foldl_repeat_batch (n : nat) (reduced : bool) (c : Committed) :
  n ≠ 0%nat →
  foldl apply_committed c (repeat_batch n reduced)
  = if reduced then (None, false, vs_unmounted) else (c.1.1, c.1.2, vs_closed).
Proof.
  revert c. induction n as [|n IH]; intros c Hn; [done|].
  cbn [repeat_batch]. rewrite foldl_app.
  destruct n as [|n].
  - by destruct reduced.
  - rewrite IH by done. by destruct reduced.
Qed.

Lemma elem_of_repeat_batch_animated (n : nat) (u : Update) :
  u ∈ repeat_batch n false → u = SetVisualState vs_closed.
Proof.
  induction n as [|n IH]; cbn; [by intros ?%elem_of_nil|].
  intros [->|H]%elem_of_cons; [done|]. by apply IH.
Qed.

Lemma after_quiet (x : Essence) : QuietE x → microE (commitE x) = x.
Proof.
  intros [Hu Hm]. destruct x as [c us ms ps owed red vis].
  cbn in Hu, Hm. subst us ms. unfold commitE. cbn.
  by rewrite Bool.eqb_reflx.
Qed.

Lemma after_media (b : bool) (x : Essence) :
  QuietE x → microE (commitE (with_reduced b x)) = with_reduced b x.
Proof.
  intros [Hu Hm]. destruct x as [c us ms ps owed red vis].
  cbn in Hu, Hm. subst us ms. unfold commitE. cbn.
  by rewrite Bool.eqb_reflx.
Qed.

(** A settlement through any controls, those of the request held or
    retained ones. *)
Lemma after_settled (req : PendingRequest) (n : nat) (v : Value)
  (x : Essence) :
  QuietE x → n ≠ 0%nat →
  microE (commitE (settledE req n v x))
  = finished
      (if e_reduced x then (None, false, vs_unmounted)
       else (e_pending x, e_isMounted x, vs_closed))
      (settle (resolvePromise req) v (e_promises x))
      (negb (e_reduced x))
      (e_visual x ++ visual_updates (repeat_batch n (e_reduced x))) x.
Proof.
  intros [Hu Hm] Hn.
  destruct x as [[[p m] vs] us ms ps owed red vis].
  unfold e_pending, e_isMounted, e_visualState in *.
  cbn in Hu, Hm. subst us ms.
  unfold commitE, settledE, finished.
  cbn [e_committed e_updates e_microtasks e_promises e_owed e_reduced
         e_visual app fst snd].
  rewrite foldl_repeat_batch by done.
  destruct n as [|n]; [done|]. by destruct red, p.
Qed.

Lemma after_opened (r : OpenRender) (x : Essence) :
  QuietE x →
  microE (commitE (openedE r x))
  = finished
      (Some {| render := r; resolvePromise := length (e_promises x) |},
       true, vs_open)
      (e_promises x ++ [Pending]) (e_owed x)
      (e_visual x
       ++ match e_pending x with
          | None => [vs_open; vs_open]
          | Some _ => [vs_open]
          end) x.
Proof.
  intros [Hu Hm].
  destruct x as [[[p m] vs] us ms ps owed red vis].
  unfold e_pending, e_isMounted, e_visualState in *.
  cbn in Hu, Hm. subst us ms.
  unfold commitE, openedE, finished.
  destruct p as [req|]; cbn; [done|]. by rewrite <- app_assoc.
Qed.

Lemma after_unmounted (x : Essence) :
  QuietE x →
  microE (commitE (unmountedE x))
  = finished (None, false, vs_unmounted) (e_promises x) false
      (e_visual x ++ [vs_unmounted]) x.
Proof.
  intros [Hu Hm].
  destruct x as [[[p m] vs] us ms ps owed red vis].
  cbn in Hu, Hm. subst us ms.
  unfold commitE, unmountedE, finished. cbn. by destruct p, owed.
Qed.

(** *** In every run *)

Lemma ClosingE_step (ev : Event) (x y : Essence) :
  ClosingE x → Dispatch ev x y → ClosingE (microE (commitE y)).
Proof.
  intros [HQ HC] Hd.
  destruct Hd as [ev x|b x|ev req n w x Hp Hn|r x|x Hmt Hv].
  - by rewrite after_quiet.
  - rewrite after_media by done. by split.
  - rewrite (after_settled req n w x HQ Hn).
    split; [done|]. intros req' v.
    unfold finished, e_pending, e_visualState. cbn.
    by destruct (e_reduced x).
  - rewrite (after_opened r x HQ).
    split; [done|]. intros req' v.
    unfold finished, e_pending, e_visualState. cbn.
    intros [= <-]. cbn. by rewrite list_lookup_middle.
  - rewrite (after_unmounted x HQ). by split.
Qed.

Lemma Closing_turn (ev : Event) (s : Store) :
  Closing s → Closing (exec (turn ev) s).
Proof.
  intros H. destruct (turn_essence ev s) as (y & Hd & He).
  unfold Closing. rewrite He. by eapply ClosingE_step.
Qed.

Lemma reachable_Closing (s : Store) : reachable s → Closing s.
Proof.
  induction 1 as [b|s ev _ IH].
  - by destruct b.
  - by apply Closing_turn.
Qed.

Lemma reachable_quiet (s : Store) :
  reachable s → updates s = [] ∧ microtasks s = [].
Proof. by intros [H _]%reachable_Closing. Qed.

Lemma reachable_run (evs : list Event) (s : Store) :
  reachable s → reachable (run evs s).
Proof.
  revert s. induction evs as [|ev evs IH]; intros s H; [done|].
  cbn. apply IH. by constructor.
Qed.

(** *** In the runs of [reachable_orderly] *)

Lemma InvE_QuietE (x : Essence) : InvE x → QuietE x.
Proof. by intros (Hu & Hm & _). Qed.

Lemma after_settled_held (req : PendingRequest) (n : nat) (v : Value)
  (x : Essence) :
  InvE x → e_pending x = Some req → n ≠ 0%nat →
  microE (commitE (settledE req n v x))
  = finished
      (if e_reduced x then (None, false, vs_unmounted)
       else (Some req, true, vs_closed))
      (settle (resolvePromise req) v (e_promises x))
      (negb (e_reduced x))
      (e_visual x ++ visual_updates (repeat_batch n (e_reduced x))) x.
Proof.
  intros HI Hp Hn. rewrite after_settled by (done || by apply InvE_QuietE).
  destruct HI as (_ & _ & HI). rewrite Hp in *. destruct HI as [-> _]. done.
Qed.

Lemma InvE_step (ev : Event) (x y : Essence) :
  InvE x → Dispatch ev x y →
  controls_of ev (e_pending x) = e_pending x →
  InvE (microE (commitE y)).
Proof.
  intros HI Hd Hc. pose proof (InvE_QuietE x HI) as HQ.
  destruct Hd as [ev x|b x|ev req n w x Hp Hn|r x|x Hmt Hv].
  - by rewrite after_quiet.
  - rewrite after_media by done. exact HI.
  - rewrite Hc in Hp. rewrite (after_settled_held req n w x HI Hp Hn).
    destruct HI as (_ & _ & Hinv). rewrite Hp in Hinv.
    destruct Hinv as [_ Hinv].
    unfold InvE, finished, e_pending, e_isMounted, e_visualState.
    destruct (e_reduced x); cbn; [done|].
    repeat split; try done. right. repeat split; try done.
    destruct Hinv as [[Hq _]|[[u Hq] _]].
    + exists w. by apply settle_pending.
    + exists u. by apply settle_fulfilled.
  - rewrite (after_opened r x HQ).
    unfold InvE, finished, e_pending, e_isMounted, e_visualState. cbn.
    repeat split; try done. left. split; [|done].
    by apply list_lookup_middle.
  - rewrite (after_unmounted x HQ). done.
Qed.

Lemma orderly_controls (s : Store) (ev : Event) :
  orderly s ev → controls_of ev (pending s) = pending s.
Proof. by destruct ev. Qed.

Lemma Inv_turn (ev : Event) (s : Store) :
  Inv s → orderly s ev → Inv (exec (turn ev) s).
Proof.
  intros H Hsf. destruct (turn_essence ev s) as (y & Hd & He).
  unfold Inv. rewrite He. eapply InvE_step; [done..|].
  by apply orderly_controls.
Qed.

Lemma reachable_orderly_Inv (s : Store) : reachable_orderly s → Inv s.
Proof.
  induction 1 as [b|s ev _ IH Hsf].
  - by destruct b.
  - by apply Inv_turn.
Qed.

Lemma reachable_orderly_reachable (s : Store) :
  reachable_orderly s → reachable s.
Proof. induction 1; by constructor. Qed.

(** ** When the unmount path runs (C4) *)

Lemma unmount_only_on_animation_end (s : Store) (ev : Event) :
  updates s = [] → prefersReducedMotionRef s = false →
  SetVisualState vs_unmounted ∈ enqueued ev s →
  ev = EvAnimationEnd overlayNode
  ∧ isMounted s = true ∧ visualState s = vs_closed.
Proof.
  intros Hu Hr Hin. unfold enqueued in Hin.
  pose proof (dispatch_refines ev (exec begin_event s)) as Hd.
  change (updates (exec (dispatch ev) (exec begin_event s)))
    with (e_updates (essence (exec (dispatch ev) (exec begin_event s))))
    in Hin.
  rewrite essence_begin_event in Hd.
  remember (essence (exec (dispatch ev) (exec begin_event s))) as y eqn:Ey.
  remember (essence s) as x eqn:Ex.
  assert (Hux : e_updates x = []) by (by subst x).
  assert (Hrx : e_reduced x = false) by (by subst x).
  assert (Hvx : e_visualState x = visualState s) by (by subst x).
  assert (Hmx : e_isMounted x = isMounted s) by (by subst x).
  clear Ey Ex Hu Hr.
  destruct Hd as [ev x|b x|ev req n w x Hp Hn|r x|x Hmt Hv]; cbn in Hin.
  - rewrite Hux in Hin. by apply elem_of_nil in Hin.
  - rewrite Hux in Hin. by apply elem_of_nil in Hin.
  - rewrite Hux, Hrx in Hin. cbn in Hin.
    by apply elem_of_repeat_batch_animated in Hin.
  - rewrite Hux in Hin. cbn in Hin.
    repeat (apply elem_of_cons in Hin as [Hin|Hin]; [discriminate Hin|]).
    by apply elem_of_nil in Hin.
  - repeat split; congruence.
Qed.

Lemma animation_end_unmounts (s : Store) :
  updates s = [] → microtasks s = [] →
  isMounted s = true → visualState s = vs_closed →
  enqueued (EvAnimationEnd overlayNode) s
  = [SetIsMounted false; SetVisualState vs_unmounted; SetPending None]
  ∧ visualState (exec (turn (EvAnimationEnd overlayNode)) s) = vs_unmounted
  ∧ pending (exec (turn (EvAnimationEnd overlayNode)) s) = None
  ∧ isMounted (exec (turn (EvAnimationEnd overlayNode)) s) = false.
Proof.
  intros Hu Hm Hmt Hv. unfold enqueued.
  open_store s. destruct s_owed, s_previous, s_pending; done.
Qed.

Lemma promises_after (y : Essence) :
  e_promises (microE (commitE y)) = e_promises y.
Proof. unfold microE, commitE. cbn. by repeat case_match. Qed.

Lemma turn_refines (ev : Event) (s : Store) :
  Dispatch ev (essence s) (essence (exec (dispatch ev) (exec begin_event s)))
  ∧ essence (exec (turn ev) s)
    = microE (commitE (essence (exec (dispatch ev) (exec begin_event s)))).
Proof.
  split.
  - rewrite <- (essence_begin_event s) at 1. apply dispatch_refines.
  - by rewrite turn_unfold, essence_runMicrotasks, essence_commit.
Qed.

(** A turn that fulfils a pending future has run a settlement. *)
Lemma settles_is_settlement (ev : Event) (s : Store) (p : nat) :
  settles ev s p →
  ∃ req n v, n ≠ 0%nat
    ∧ essence (exec (dispatch ev) (exec begin_event s))
      = settledE req n v (essence s).
Proof.
  intros (Hq & v & Hf).
  destruct (turn_refines ev s) as (Hd & He).
  change (promises (exec (turn ev) s))
    with (e_promises (essence (exec (turn ev) s))) in Hf.
  rewrite He, promises_after in Hf.
  change (promises s) with (e_promises (essence s)) in Hq.
  revert Hd Hf. generalize (essence (exec (dispatch ev) (exec begin_event s))).
  revert Hq. generalize (essence s). clear He s.
  intros x Hq y Hd Hf.
  destruct Hd as [ev x|b x|ev req n w x Hp Hn|r x|x Hmt Hv]; cbn in Hf.
  - congruence.
  - congruence.
  - by exists req, n, w.
  - rewrite (lookup_app_l_Some _ _ _ _ Hq) in Hf. congruence.
  - congruence.
Qed.

Lemma updates_essence (s t : Store) :
  essence s = essence t → updates s = updates t.
Proof. intros H. by apply (f_equal e_updates) in H. Qed.

Lemma unmounted_in_batch (n : nat) :
  n ≠ 0%nat → SetVisualState vs_unmounted ∈ repeat_batch n true.
Proof.
  destruct n as [|n]; [done|]. intros _. cbn [repeat_batch].
  apply elem_of_app. left. apply list_elem_of_lookup. by exists 2%nat.
Qed.

(** The events that call no control run the unmount path only as the
    animation end of a closing layer. *)
Lemma unmount_without_control (ev : Event) (s : Store) :
  calls_a_control ev = false →
  SetVisualState vs_unmounted ∈ updates (exec (dispatch ev) s) →
  SetVisualState vs_unmounted ∈ updates s
  ∨ (ev = EvAnimationEnd overlayNode
     ∧ isMounted s = true ∧ visualState s = vs_closed).
Proof.
  destruct ev as [r|cs|req cs|e tgt|tgt|tgt|tgt|tgt|b|content|n];
    cbn [calls_a_control]; intros Hc Hin.
  - (* open *)
    left. cbn [dispatch] in Hin. unfold openWithRender in Hin.
    rewrite !exec_bind, exec_gets, eval_gets in Hin.
    destruct (externalOpenRef s) as [[]|]; [|exact Hin].
    rewrite exec_bind in Hin. cbn [call_open] in Hin.
    change (SetVisualState vs_unmounted
            ∈ e_updates (essence (exec (open r) s))) in Hin.
    rewrite essence_open in Hin. cbn in Hin.
    apply elem_of_app in Hin as [Hin|Hin]; [exact Hin|].
    repeat (apply elem_of_cons in Hin as [Hin|Hin]; [discriminate Hin|]).
    by apply elem_of_nil in Hin.
  - destruct cs; [by left | discriminate Hc].
  - destruct cs; [by left | discriminate Hc].
  - (* keydown *)
    left. destruct tgt as [n|path].
    + cbn [dispatch] in Hin.
      rewrite exec_bind, exec_gets, eval_gets, exec_when in Hin.
      by destruct (isMounted s).
    + by rewrite (updates_essence _ _
                    (other_keys_keep_promises e (LayerNode path) s Hc)) in Hin.
  - (* click *)
    left. apply bool_decide_eq_false in Hc.
    rewrite (click_off_overlay tgt s Hc) in Hin.
    destruct (isMounted s && contains dialogPath tgt); [|exact Hin].
    by rewrite (updates_essence _ _ (essence_stopPropagation s)) in Hin.
  - (* animation end *)
    cbn [dispatch] in Hin.
    rewrite exec_bind, exec_gets, eval_gets, exec_when in Hin.
    destruct (isMounted s) eqn:Hm; [|by left].
    destruct (contains overlayPath tgt); cbn [andb] in Hin; [|by left].
    unfold handleOverlayAnimationEnd in Hin. cbn [target currentTarget] in Hin.
    case_bool_decide as Ht; [by left|].
    assert (tgt = overlayNode) as -> by congruence.
    rewrite exec_bind, exec_gets, eval_gets, exec_when in Hin.
    case_bool_decide as Hv; [by right | by left].
  - (* wheel *)
    left. cbn [dispatch] in Hin.
    rewrite exec_bind, exec_gets, eval_gets, exec_when in Hin.
    destruct (_ && _); [|exact Hin].
    rewrite (updates_essence _ s) in Hin; [exact Hin|].
    by rewrite essence_passive_listener, essence_capture.
  - (* touch move *)
    left. cbn [dispatch] in Hin.
    rewrite exec_bind, exec_gets, eval_gets, exec_when in Hin.
    destruct (_ && _); [|exact Hin].
    rewrite (updates_essence _ s) in Hin; [exact Hin|].
    by rewrite essence_passive_listener, capture_handlers_agree,
      essence_capture.
  - by left.
  - by left.
  - by left.
Qed.




(** ** The visual lifecycle (C7) *)

Lemma last_cons_default {A} (a b : A) (l : list A) :
  List.last (b :: l) a = List.last l b.
Proof.
  revert a b. induction l as [|c l IH]; intros a b; [done|].
  change (List.last (b :: c :: l) a) with (List.last (c :: l) a).
  by rewrite !IH.
Qed.

Lemma path_from_app (a : VisualState) (l q : list VisualState) :
  path_from a (l ++ q) = path_from a l && path_from (List.last l a) q.
Proof.
  revert a. induction l as [|b l IH]; intros a; [done|].
  cbn [app path_from]. by rewrite IH, andb_assoc, last_cons_default.
Qed.

Lemma visual_updates_repeat_batch (n : nat) (reduced : bool) :
  visual_updates (repeat_batch (S n) reduced)
  = visual_updates (repeat_batch n reduced) ++ batch_visual reduced.
Proof.
  rewrite repeat_batch_snoc, visual_updates_app. by destruct reduced.
Qed.

Lemma path_from_batches (a : VisualState) (n : nat) (reduced : bool) :
  path_from a (visual_updates (repeat_batch n reduced)) = true.
Proof.
  revert a. induction n as [|n IH]; intros a; [done|].
  cbn [repeat_batch]. rewrite visual_updates_app.
  destruct reduced; cbn; by rewrite IH.
Qed.

Lemma last_batches (n : nat) (reduced : bool) (l : list VisualState)
  (d : VisualState) :
  n ≠ 0%nat →
  List.last (l ++ visual_updates (repeat_batch n reduced)) d
  = if reduced then vs_unmounted else vs_closed.
Proof.
  intros Hn. destruct n as [|n]; [done|].
  rewrite visual_updates_repeat_batch, app_assoc.
  destruct reduced; cbn [batch_visual].
  - by rewrite (app_assoc _ [vs_closed] [vs_unmounted]), last_last.
  - by rewrite last_last.
Qed.

Lemma batches_end_closed_unmounted (n : nat) :
  n ≠ 0%nat →
  ∃ q, visual_updates (repeat_batch n true) = q ++ [vs_closed; vs_unmounted].
Proof.
  intros Hn. destruct n as [|n]; [done|].
  rewrite visual_updates_repeat_batch. by eexists.
Qed.

Lemma PathE_step (ev : Event) (x y : Essence) :
  InvE x → PathE x → Dispatch ev x y →
  (∀ r, ev = EvOpen r → e_pending x = None) →
  controls_of ev (e_pending x) = e_pending x →
  PathE (microE (commitE y))
  ∧ ∃ q, e_visual (microE (commitE y)) = e_visual x ++ q
         ∧ (lifecycle_edge (e_visualState x)
              (e_visualState (microE (commitE y)))
            ∨ (e_visualState x = vs_open
               ∧ e_visualState (microE (commitE y)) = vs_unmounted
               ∧ ∃ q', q = q' ++ [vs_closed; vs_unmounted])).
Proof.
  intros HI [Hpath Hlast] Hd Hsf Hc. unfold PathE, follows_lifecycle in *.
  pose proof (InvE_QuietE x HI) as HQ.
  destruct Hd as [ev x|b x|ev req n w x Hp Hn|r x|x Hmt Hv].
  - (* quiet *)
    rewrite after_quiet by done. split; [done|].
    exists []. rewrite app_nil_r. split; [done|]. left. by left.
  - (* media *)
    rewrite after_media by done. split; [done|].
    exists []. rewrite app_nil_r. split; [done|]. left. by left.
  - (* settlement *)
    rewrite Hc in Hp. rewrite (after_settled_held req n w x HI Hp Hn).
    unfold finished, e_visualState. cbn [e_visual e_committed snd].
    split.
    + split.
      * by rewrite path_from_app, Hpath, path_from_batches.
      * rewrite last_batches by done. by destruct (e_reduced x).
    + eexists. split; [done|].
      destruct HI as (_ & _ & Hinv). rewrite Hp in Hinv.
      destruct Hinv as [_ [[_ Hv]|[_ [Hv _]]]];
        unfold e_visualState in Hv; rewrite Hv;
        destruct (e_reduced x).
      * right. repeat split. by apply batches_end_closed_unmounted.
      * left. right. right. by left.
      * left. right. right. by right.
      * left. by left.
  - (* open *)
    rewrite (after_opened r x HQ). rewrite (Hsf r eq_refl).
    destruct HI as (_ & _ & Hinv). rewrite (Hsf r eq_refl) in Hinv.
    destruct Hinv as [_ Hv].
    unfold finished, e_visualState in *. cbn [e_visual e_committed snd].
    rewrite Hv in Hlast. rewrite ?Hv.
    split.
    + split.
      * by rewrite path_from_app, Hpath, Hlast.
      * by rewrite (app_assoc _ [vs_open] [vs_open]), last_last.
    + eexists. split; [done|]. left. right. by left.
  - (* animation end *)
    rewrite (after_unmounted x HQ).
    unfold finished, e_visualState in *. cbn [e_visual e_committed snd].
    rewrite Hv in Hlast. rewrite ?Hv.
    split.
    + split.
      * by rewrite path_from_app, Hpath, Hlast.
      * by rewrite last_last.
    + eexists. split; [done|]. left. right. right. by right.
Qed.

Lemma reachable_orderly_path (s : Store) :
  reachable_orderly s → PathE (essence s).
Proof.
  induction 1 as [b|s ev Hs IH Hsf].
  - by destruct b.
  - destruct (turn_essence ev s) as (y & Hd & He). rewrite He.
    eapply PathE_step; try done.
    + by apply reachable_orderly_Inv.
    + intros r ->. exact Hsf.
    + by apply orderly_controls.
Qed.

Lemma no_edge_to_closed_from_unmounted :
  ¬ lifecycle_edge vs_unmounted vs_closed ∧ ¬ lifecycle_edge vs_closed vs_open.
Proof. unfold lifecycle_edge. split; intros H; by decompose [and or] H. Qed.

(** One request is opened, cancelled by its content and unmounted after
    the closing animation; then the [cancel] the content was given for
    that request is called once more.  It was made by a render whose
    [pending] was the request, so its guard passes: the rendered state
    goes from [unmounted] to [closed] with no request held and no layer
    rendered, and the next [open] takes it from [closed] to [open]. *)
Lemma retained_cancel_after_unmount :
  let late := EvRetainedControls first_request [CallCancel] in
  pending (run [EvOpen (CustomRender 0)] (mounted false)) = Some first_request
  ∧ single_flight_run
      [EvOpen (CustomRender 0); EvControls [CallCancel];
       EvAnimationEnd overlayNode; late; EvOpen (CustomRender 1)]
      (mounted false)
  ∧ committed cancelled_and_unmounted = (None, false, vs_unmounted)
  ∧ committed (exec (turn late) cancelled_and_unmounted)
    = (None, false, vs_closed)
  ∧ visualState
      (run [late; EvOpen (CustomRender 1)] cancelled_and_unmounted) = vs_open.
Proof. repeat split; vm_compute; reflexivity. Qed.

(** Why single flight is read on the request held, not on its future:
    an [open] during the closing animation of a settled request takes the
    rendered state from [closed] to [open]. *)
Lemma reopening_while_closing :
  let s := run [EvOpen (CustomRender 0);
                EvControls [CallResolve (VString (utf16 "done"))]]
             (mounted false) in
  committed s = (Some first_request, true, vs_closed)
  ∧ promises s = [Fulfilled (VString (utf16 "done"))]
  ∧ visualState (exec (turn (EvOpen (CustomRender 1))) s) = vs_open.
Proof. repeat split; vm_compute; reflexivity. Qed.

(** C7 as it is written fails: in the single-flight run above, the turn
    of the late call moves the rendered state from [unmounted] to
    [closed], which is no edge of the lifecycle. *)
Lemma retained_cancel_leaves_lifecycle :
  ¬ (∀ (reducedMotion : bool) (evs : list Event) (ev : Event),
       single_flight_run (evs ++ [ev]) (mounted reducedMotion) →
       lifecycle_edge (visualState (run evs (mounted reducedMotion)))
         (visualState (exec (turn ev) (run evs (mounted reducedMotion))))
       ∨ (visualState (run evs (mounted reducedMotion)) = vs_open
          ∧ visualState (exec (turn ev) (run evs (mounted reducedMotion)))
            = vs_unmounted)).
Proof.
  intros H.
  specialize (H false
                [EvOpen (CustomRender 0); EvControls [CallCancel];
                 EvAnimationEnd overlayNode]
                (EvRetainedControls first_request [CallCancel])).
  assert (Hs : visualState
                 (run [EvOpen (CustomRender 0); EvControls [CallCancel];
                       EvAnimationEnd overlayNode] (mounted false))
               = vs_unmounted) by (vm_compute; reflexivity).
  assert (Hl : visualState
                 (exec (turn (EvRetainedControls first_request [CallCancel]))
                    (run [EvOpen (CustomRender 0); EvControls [CallCancel];
                          EvAnimationEnd overlayNode] (mounted false)))
               = vs_closed) by (vm_compute; reflexivity).
  rewrite Hs, Hl in H.
  destruct H as [H|[H _]].
  - repeat split; vm_compute; reflexivity.
  - by apply no_edge_to_closed_from_unmounted in H.
  - discriminate H.
Qed.

(** C7, as the code has it.  In a run where [open] is called only while
    no request is held and the controls of a request only while it is
    held: the values set so far follow the lifecycle and end in the
    rendered state; a turn extends them, and moves the rendered state
    along an edge of [unmounted → open → closed → unmounted] or leaves
    it, or, under reduced motion, moves it from [open] to [unmounted] by
    setting [closed] and then [unmounted] within the turn. *)
Theorem visual_lifecycle (s : Store) (ev : Event) :
  reachable_orderly s → orderly s ev →
  follows_lifecycle (history s) = true
  ∧ List.last (history s) vs_unmounted = visualState s
  ∧ follows_lifecycle (history (exec (turn ev) s)) = true
  ∧ List.last (history (exec (turn ev) s)) vs_unmounted
    = visualState (exec (turn ev) s)
  ∧ ∃ q, history (exec (turn ev) s) = history s ++ q
         ∧ (lifecycle_edge (visualState s) (visualState (exec (turn ev) s))
            ∨ (visualState s = vs_open
               ∧ visualState (exec (turn ev) s) = vs_unmounted
               ∧ ∃ q', q = q' ++ [vs_closed; vs_unmounted])).
Proof.
  intros Hs Hsf.
  destruct (reachable_orderly_path s Hs) as [Hp Hl].
  destruct (turn_essence ev s) as (y & Hd & He).
  assert (Hstep := PathE_step ev (essence s) y (reachable_orderly_Inv s Hs)
            (conj Hp Hl) Hd).
  destruct Hstep as ([Hp' Hl'] & q & Hq & Hedge).
  { intros r ->. exact Hsf. }
  { by apply orderly_controls. }
  rewrite <- He in Hp', Hl', Hq, Hedge.
  repeat split; try done. by exists q.
Qed.

Lemma visual_lifecycle_witness :
  let s := run [EvOpen FormModalRender] (mounted true) in
  let ev := EvKeydown {| key := "Escape"; shiftKey := false |} titleRef in
  follows_lifecycle (history (exec (turn ev) s)) = true
  ∧ visualState s = vs_open
  ∧ visualState (exec (turn ev) s) = vs_unmounted.
Proof.
  intros s ev.
  assert (Hs : reachable_orderly s).
  { apply (reachable_orderly_turn (mounted true) (EvOpen FormModalRender)).
    - apply reachable_orderly_mounted.
    - reflexivity. }
  pose proof (visual_lifecycle s ev Hs I) as (_ & _ & H & _).
  split; [exact H|]. split; reflexivity.
Defined.

(** ** Settling a request that is already settled (C1) *)

Lemma Dispatch_keeps_fulfilled (ev : Event) (x y : Essence) (p : nat)
  (v : Value) :
  Dispatch ev x y →
  e_promises x !! p = Some (Fulfilled v) →
  e_promises y !! p = Some (Fulfilled v).
Proof.
  intros Hd H. destruct Hd; cbn; try done.
  - by apply settle_fulfilled.
  - by apply lookup_app_l_Some.
Qed.

Lemma turn_keeps_fulfilled (ev : Event) (s : Store) (p : nat) (v : Value) :
  promises s !! p = Some (Fulfilled v) →
  promises (exec (turn ev) s) !! p = Some (Fulfilled v).
Proof.
  intros H. destruct (turn_essence ev s) as (y & Hd & He).
  change (promises (exec (turn ev) s))
    with (e_promises (essence (exec (turn ev) s))).
  rewrite He.
  assert (Hy := Dispatch_keeps_fulfilled ev (essence s) y p v Hd H).
  unfold commitE. by repeat case_match.
Qed.

(** A future that has been fulfilled keeps its value in every run. *)
Lemma run_keeps_fulfilled (evs : list Event) (s : Store) (p : nat) (v : Value) :
  promises s !! p = Some (Fulfilled v) →
  promises (run evs s) !! p = Some (Fulfilled v).
Proof.
  revert s. induction evs as [|ev evs IH]; intros s H; [done|].
  cbn. apply IH. by apply turn_keeps_fulfilled.
Qed.

Lemma contains_overlay (path : list nat) :
  contains overlayPath (LayerNode path) = true.
Proof. apply bool_decide_eq_true_2, prefix_nil. Qed.

Lemma dispatch_click_overlay (s : Store) :
  isMounted s = true → dispatch (EvClick overlayNode) s = current cancel s.
Proof.
  intros Hm. unfold dispatch, gets, mbind, M_bind. cbn [fst snd].
  rewrite Hm. unfold when_.
  change (contains dialogPath overlayNode) with false.
  change (contains overlayPath overlayNode) with true.
  by rewrite handleOverlayClick_on_overlay.
Qed.

(** The guard: controls made by a render that held no request do
    nothing. *)
Lemma attempt_without_request (s : Store) (ev : Event) :
  updates s = [] → microtasks s = [] →
  settlement_attempt ev → controls_of ev (pending s) = None →
  host_state (exec (turn ev) s) = host_state s.
Proof.
  intros Hu Hm Hev Hp. open_store s.
  destruct Hev as [c|req c|ev [|e path He|]]; cbn in Hp; subst;
    [by destruct c|done|done|..].
  - unfold turn, dispatch.
    rewrite (handleKeydown_escape e He), contains_overlay.
    by destruct s_mounted, (contains dialogPath (LayerNode path)).
  - by destruct s_mounted.
Qed.

(** A call that finds its request closing, without reduced motion. *)
Lemma attempt_while_closing (s : Store) (ev : Event) (req : PendingRequest)
  (v : Value) :
  updates s = [] → microtasks s = [] →
  settlement_attempt ev →
  controls_of ev (pending s) = Some req → pending s = Some req →
  promises s !! resolvePromise req = Some (Fulfilled v) →
  visualState s = vs_closed → restoreFocusOnCloseRef s = true →
  prefersReducedMotionRef s = false →
  host_state (exec (turn ev) s) = host_state s.
Proof.
  intros Hu Hm Hev Hc Hp Hq Hv Ho Hr. open_store s.
  destruct Hev as [c|req' c|ev [|e path He|]]; cbn in Hc.
  - destruct c; run_turn; by rewrite (settle_already _ _ v).
  - injection Hc as ->.
    destruct c; run_turn; by rewrite (settle_already _ _ v).
  - run_turn; by rewrite (settle_already _ _ v).
  - unfold turn, dispatch.
    rewrite (handleKeydown_escape e He), contains_overlay.
    destruct s_mounted, (contains dialogPath (LayerNode path)); run_turn;
      by rewrite ?(settle_already (resolvePromise req) VNull v s_promises Hq).
  - destruct s_mounted; [|done].
    rewrite turn_unfold. unfold exec at 3.
    rewrite dispatch_click_overlay by done.
    run_turn; by rewrite (settle_already _ _ v).
Qed.

(** No attempt that comes too late touches a future. *)
Lemma attempt_keeps_promises (s : Store) (ev : Event) :
  settlement_attempt ev → already_settled ev s →
  promises (exec (turn ev) s) = promises s.
Proof.
  intros Hev Hs. unfold already_settled in Hs. rewrite turn_promises.
  open_store s.
  destruct Hev as [c|req c|ev [|e path He|]]; cbn [controls_of] in Hs.
  - destruct s_pending as [req|]; [|by destruct c].
    destruct Hs as [v Hq].
    destruct c, s_reduced; run_turn; by rewrite (settle_already _ _ v).
  - destruct Hs as [v Hq].
    destruct c, s_reduced; run_turn; by rewrite (settle_already _ _ v).
  - destruct s_pending as [req|]; [|done].
    destruct Hs as [v Hq].
    destruct s_reduced; run_turn; by rewrite (settle_already _ _ v).
  - unfold dispatch.
    rewrite (handleKeydown_escape e He), contains_overlay.
    destruct s_pending as [req|].
    + destruct Hs as [v Hq].
      destruct s_mounted, (contains dialogPath (LayerNode path)), s_reduced;
        run_turn;
        by rewrite ?(settle_already (resolvePromise req) VNull v s_promises Hq).
    + by destruct s_mounted, (contains dialogPath (LayerNode path)).
  - destruct s_mounted; [|done].
    unfold exec at 1. rewrite dispatch_click_overlay by done.
    destruct s_pending as [req|]; [|done].
    destruct Hs as [v Hq].
    destruct s_reduced; run_turn; by rewrite (settle_already _ _ v).
Qed.

Lemma host_state_visualState (s s' : Store) :
  host_state s = host_state s' → visualState s = visualState s'.
Proof. unfold host_state. congruence. Qed.

Lemma closing_when_motion_is_reduced_facts :
  already_settled (EvControls [CallCancel]) closing_when_motion_is_reduced
  ∧ promises closing_when_motion_is_reduced
    = [Fulfilled (VString (utf16 "done"))]
  ∧ visualState closing_when_motion_is_reduced = vs_closed
  ∧ visualState
      (exec (turn (EvControls [CallCancel])) closing_when_motion_is_reduced)
    = vs_unmounted.
Proof.
  split.
  - exists (VString (utf16 "done")). vm_compute. reflexivity.
  - repeat split; vm_compute; reflexivity.
Qed.

(** C1 as it is written fails: after [resolve] has fulfilled the
    future and the closing animation is running, the reduced-motion
    preference turns on and the content calls [cancel]; the call finds
    the request still held and unmounts the layer at once. *)
Lemma late_cancel_is_not_a_noop :
  ¬ (∀ s ev, reachable s → settlement_attempt ev → already_settled ev s →
       host_state (exec (turn ev) s) = host_state s).
Proof.
  intros H.
  destruct closing_when_motion_is_reduced_facts as (Hs & _ & Hc & Hu).
  specialize (H closing_when_motion_is_reduced (EvControls [CallCancel])
                (reachable_run _ _ (reachable_mounted false))
                (attempt_control CallCancel) Hs).
  apply host_state_visualState in H. rewrite Hc, Hu in H. discriminate H.
Qed.

(** C1, as the code has it.  Between turns, in every run: an attempt
    through controls that were made for no request, or for a request
    whose future is already fulfilled, leaves every future as it is,
    whether the rendered content makes it or a callback that has kept
    the controls, and whether the request is still held or not.  The
    attempt changes nothing of the host's state when its controls were
    made for no request, or when they are those of the last render and
    reduced motion is off.  A fulfilled future keeps its value in every
    run. *)
Theorem late_settlement (s : Store) (ev : Event) :
  reachable s → settlement_attempt ev → already_settled ev s →
  promises (exec (turn ev) s) = promises s
  ∧ (controls_of ev (pending s) = None
     ∨ (of_last_render ev s ∧ prefersReducedMotionRef s = false) →
     host_state (exec (turn ev) s) = host_state s)
  ∧ (∀ p v evs, promises s !! p = Some (Fulfilled v) →
       promises (run evs s) !! p = Some (Fulfilled v)).
Proof.
  intros [[Hu Hm] HC]%reachable_Closing Hev Hs. repeat apply conj.
  - by apply attempt_keeps_promises.
  - intros [Hp|[Hl Hr]]; [by apply attempt_without_request|].
    unfold already_settled in Hs. unfold of_last_render in Hl.
    destruct (controls_of ev (pending s)) as [req|] eqn:Hc.
    + destruct Hs as [v Hq].
      destruct (HC req v (eq_sym Hl) Hq) as [Hv Ho].
      by eapply attempt_while_closing.
    + by apply attempt_without_request.
  - intros p v evs. apply run_keeps_fulfilled.
Qed.

Lemma late_settlement_witness :
  let s := run [EvOpen (CustomRender 0);
                EvControls [CallResolve (VString (utf16 "done"))]]
             (mounted false) in
  let late := EvRetainedControls first_request [CallCancel] in
  (already_settled (EvControls [CallCancel]) s
   ∧ promises (exec (turn (EvControls [CallCancel])) s) = promises s
   ∧ host_state (exec (turn (EvControls [CallCancel])) s) = host_state s)
  ∧ (already_settled late cancelled_and_unmounted
     ∧ promises (exec (turn late) cancelled_and_unmounted)
       = promises cancelled_and_unmounted).
Proof.
  intros s late.
  assert (Hs : already_settled (EvControls [CallCancel]) s)
    by (by exists (VString (utf16 "done"))).
  assert (Hl : already_settled late cancelled_and_unmounted)
    by (by exists VNull).
  pose proof (late_settlement s (EvControls [CallCancel])
                (reachable_run _ _ (reachable_mounted false))
                (attempt_control CallCancel) Hs) as (H1 & H2 & _).
  pose proof (late_settlement cancelled_and_unmounted late
                (reachable_run _ _ (reachable_mounted false))
                (attempt_retained first_request CallCancel) Hl)
    as (H3 & _ & _).
  split.
  - split; [exact Hs|]. split; [exact H1|]. apply H2. right. by split.
  - split; [exact Hl | exact H3].
Defined.

(** ** Focus restoration (C5) *)

(** C5 at [escape_under_reduced_motion]: reduced motion is on, the form
    modal is opened from the page's button and Escape is pressed once
    with the focus on the title.  The keydown reaches [handleKeydown] on
    the content element and on the overlay, [cancel] runs twice on the
    same render, both runs find the flag set and queue the callback, and
    the focus move back to the button is made twice for the one
    request. *)
Lemma focus_restoration_runs_twice :
  promises escape_under_reduced_motion = [Fulfilled VNull]
  ∧ restorations (log escape_under_reduced_motion) = 2%nat
  ∧ focus_calls (PageNode 0) (log escape_under_reduced_motion) = 2%nat
  ∧ activeElement escape_under_reduced_motion = Some (PageNode 0)
  ∧ restoreFocusOnCloseRef escape_under_reduced_motion = false.
Proof. repeat split; reflexivity. Qed.

Lemma focus_restoration_runs_once_on_cancel :
  promises cancel_under_reduced_motion = [Fulfilled VNull]
  ∧ restorations (log cancel_under_reduced_motion) = 1%nat
  ∧ focus_calls (PageNode 0) (log cancel_under_reduced_motion) = 1%nat
  ∧ activeElement cancel_under_reduced_motion = Some (PageNode 0).
Proof. repeat split; reflexivity. Qed.

(** The parts of C5 that hold.  A settlement calls [resolvePromise]
    first, then enqueues its updates, then queues the restoration; it
    makes no [focus()] call of its own. *)
Lemma settlement_order (value : Value) (s : Store) (req : PendingRequest) :
  log (exec (resolve (Some req) value) s)
  = log s
    ++ EResolvePromise (resolvePromise req) value
       :: (ESetState <$> settlement_updates (prefersReducedMotionRef s))
    ++ (EQueueMicrotask <$> settlement_microtasks (prefersReducedMotionRef s)).
Proof. by rewrite (resolve_with_pending value s req). Qed.

(** The unmount path of the animation-end handler enqueues its updates
    and then queues the restoration if it is owed. *)
Lemma animation_end_order (s : Store) :
  visualState s = vs_closed →
  log (exec (handleOverlayAnimationEnd
               {| target := Some overlayNode; currentTarget := overlayNode |})
         s)
  = log s
    ++ [ESetState (SetIsMounted false);
        ESetState (SetVisualState vs_unmounted);
        ESetState (SetPending None)]
    ++ (if restoreFocusOnCloseRef s then [EQueueMicrotask RestoreFocus]
        else []).
Proof.
  intros Hv. unfold handleOverlayAnimationEnd. cbn [target currentTarget].
  rewrite bool_decide_eq_false_2 by (intros H; by apply H).
  rewrite exec_bind, exec_gets, eval_gets, exec_when.
  rewrite bool_decide_eq_true_2 by done.
  open_store s. run_ops.
  destruct s_owed; store_norm; by rewrite <- ?app_assoc, ?app_nil_r.
Qed.

(** When the animation-end handler unmounts, the future of the request
    held has been fulfilled. *)
Lemma closed_means_fulfilled (s : Store) :
  reachable_orderly s → visualState s = vs_closed →
  ∃ req v, pending s = Some req
           ∧ promises s !! resolvePromise req = Some (Fulfilled v).
Proof.
  intros (_ & _ & H)%reachable_orderly_Inv Hv.
  unfold e_pending, e_isMounted, e_visualState in H. cbn in H.
  destruct (pending s) as [req|].
  - destruct H as [_ [[_ H]|[[v H] _]]]; [congruence|]. by exists req, v.
  - destruct H as [_ H]. congruence.
Qed.

(** The callback moves the focus to the saved element, if there is one,
    and clears the flag. *)
Lemma run_microtask_restores (s : Store) :
  restoreFocusOnCloseRef (exec (run_microtask RestoreFocus) s) = false
  ∧ activeElement (exec (run_microtask RestoreFocus) s)
    = match previousActiveElementRef s with
      | Some el => Some el
      | None => activeElement s
      end.
Proof.
  unfold run_microtask. run_ops. by destruct (previousActiveElementRef s).
Qed.

(** A call through retained controls after the request is cleared passes
    the guard of [cancel] as well: under reduced motion it queues the
    restoration once more and takes the focus back to the button. *)
Lemma retained_cancel_restores_again :
  let late := EvRetainedControls first_request [CallCancel] in
  pending cancelled_and_focus_moved = None
  ∧ promises cancelled_and_focus_moved = [Fulfilled VNull]
  ∧ activeElement cancelled_and_focus_moved = Some (PageNode 1)
  ∧ restorations (log cancelled_and_focus_moved) = 1%nat
  ∧ promises (exec (turn late) cancelled_and_focus_moved) = [Fulfilled VNull]
  ∧ activeElement (exec (turn late) cancelled_and_focus_moved)
    = Some (PageNode 0)
  ∧ restorations (log (exec (turn late) cancelled_and_focus_moved)) = 2%nat.
Proof. repeat split; vm_compute; reflexivity. Qed.

(** * Further properties of the host and of the form *)

(** ** Opening *)



(** X2.  Mounting the provider registers its [open] and records the
    reduced-motion preference; unmounting it unregisters: [openWithRender]
    then returns a rejected future again.  Neither touches a future
    handed out before: a request that is held when the provider goes away
    is left pending. *)
Theorem registration_round_trip (matches : bool) (r : OpenRender) (s : Store) :
  let up := exec (mountProvider matches) s in
  let down := exec unmountProvider up in
  externalOpenRef up = Some HostOpen
  ∧ prefersReducedMotionRef up = matches
  ∧ eval (openWithRender r) up = Normal (FHost (length (promises s)))
  ∧ externalOpenRef down = None
  ∧ openWithRender r down
    = (Normal (FRejected (MkError "ModalProvider is not mounted")), down)
  ∧ promises up = promises s ∧ promises down = promises s
  ∧ committed down = committed s.
Proof. by destruct s. Qed.

(** ** What is rendered between turns *)

Lemma MountedE_step (ev : Event) (x y : Essence) :
  MountedE x → Dispatch ev x y → MountedE (microE (commitE y)).
Proof.
  intros [HQ HM] Hd.
  destruct Hd as [ev x|b x|ev req n w x Hp Hn|r x|x Hmt Hv].
  - by rewrite after_quiet.
  - rewrite after_media by done. by split.
  - rewrite (after_settled req n w x HQ Hn).
    split; [done|]. unfold finished, e_isMounted, e_pending. cbn.
    by destruct (e_reduced x).
  - by rewrite (after_opened r x HQ).
  - by rewrite (after_unmounted x HQ).
Qed.

Lemma reachable_MountedE (s : Store) : reachable s → MountedE (essence s).
Proof.
  induction 1 as [b|s ev _ IH].
  - by destruct b.
  - destruct (turn_essence ev s) as (y & Hd & ->). by eapply MountedE_step.
Qed.



Lemma reachable_orderly_run (evs : list Event) (s : Store) :
  reachable_orderly s → orderly_run evs s → reachable_orderly (run evs s).
Proof.
  revert s. induction evs as [|ev evs IH]; intros s Hs H; [done|].
  destruct H as [H1 H2]. cbn [run foldl]. apply IH; [|done].
  by constructor.
Qed.



(** ** What settles a future *)

Lemma settle_other (p q : nat) (v : Value) (ps : list PromiseState) :
  p ≠ q → settle q v ps !! p = ps !! p.
Proof.
  intros Hne. unfold settle. destruct (ps !! q) as [[|w]|]; try done.
  by apply list_lookup_insert_ne.
Qed.

Lemma settle_fulfils (p q : nat) (v w : Value) (ps : list PromiseState) :
  ps !! p = Some Pending →
  settle q w ps !! p = Some (Fulfilled v) → q = p ∧ w = v.
Proof.
  intros Hp Hf. destruct (decide (p = q)) as [<-|Hne].
  - rewrite (settle_pending p w ps Hp) in Hf. by injection Hf as ->.
  - rewrite settle_other in Hf by done. congruence.
Qed.

Lemma promises_essence (s t : Store) :
  essence s = essence t → promises s = promises t.
Proof. intros H. by apply (f_equal e_promises) in H. Qed.

(** The events whose handlers leave every future alone. *)
Lemma dispatch_keeps_promises (ev : Event) (s : Store) :
  match ev with
  | EvAnimationEnd _ | EvWheel _ | EvTouchMove _ | EvMediaChange _
  | EvRender _ | EvFocusChange _ => True
  | _ => False
  end →
  promises (exec (dispatch ev) s) = promises s.
Proof.
  destruct ev as [r|cs|req cs|e tgt|tgt|tgt|tgt|tgt|b|content|n];
    try done; intros _; cbn [dispatch].
  - rewrite exec_bind, exec_gets, eval_gets, exec_when.
    destruct (_ && _); [|done].
    unfold handleOverlayAnimationEnd. cbn [target currentTarget].
    case_bool_decide; [done|].
    rewrite exec_bind, exec_gets, eval_gets, exec_when.
    case_bool_decide; [|done].
    pose proof (essence_unmount_path s) as H1.
    by apply (f_equal e_promises) in H1.
  - rewrite exec_bind, exec_gets, eval_gets, exec_when.
    destruct (_ && _); [|done].
    apply promises_essence.
    by rewrite essence_passive_listener, essence_capture.
  - rewrite exec_bind, exec_gets, eval_gets, exec_when.
    destruct (_ && _); [|done].
    apply promises_essence.
    by rewrite essence_passive_listener, capture_handlers_agree,
      essence_capture.
Qed.

Lemma controls_settle (p : option PendingRequest) (cs : list ControlCall)
  (s : Store) :
  promises (exec (call_controls p cs) s)
  = match p, cs with
    | Some req, c :: _ =>
        settle (resolvePromise req) (control_value c) (promises s)
    | _, _ => promises s
    end.
Proof.
  destruct p as [req|].
  - rewrite call_controls_with_pending. destruct cs as [|c cs]; [done|].
    apply settled_all_promises.
  - rewrite call_controls_without_pending. by destruct cs.
Qed.

Lemma cancel_settles (p : option PendingRequest) (s : Store) :
  promises (exec (cancel p) s)
  = match p with
    | Some req => settle (resolvePromise req) VNull (promises s)
    | None => promises s
    end.
Proof. apply (controls_settle p [CallCancel] s). Qed.

Lemma escape_settles (e : KeyboardEvent) (tgt : NodeRef) (s : Store) :
  is_escape_b e = true →
  promises (exec (dispatch (EvKeydown e tgt)) s)
  = match pending s with
    | Some req =>
        if isMounted s && contains overlayPath tgt then
          settle (resolvePromise req) VNull (promises s)
        else promises s
    | None => promises s
    end.
Proof.
  intros He. cbn [dispatch].
  rewrite exec_bind, exec_gets, eval_gets, exec_when.
  destruct (isMounted s); [|by destruct (pending s)]. cbn [andb].
  rewrite exec_bind, !exec_when.
  assert (Hd : contains dialogPath tgt = true → contains overlayPath tgt = true).
  { destruct tgt as [n|path]; [done|]. intros _. apply contains_overlay. }
  destruct (pending s) as [req|] eqn:Hp.
  - destruct (contains dialogPath tgt), (contains overlayPath tgt);
      try done; [|by specialize (Hd eq_refl)|].
    + destruct (handleKeydown_escape_step e s req He Hp) as [P1 E1].
      destruct (handleKeydown_escape_step e _ req He P1) as [_ E2].
      rewrite E1 in E2. apply (f_equal e_promises) in E2. cbn in E2.
      rewrite E2. apply settle_settle.
    + destruct (handleKeydown_escape_step e s req He Hp) as [_ E1].
      by apply (f_equal e_promises) in E1.
  - destruct (contains dialogPath tgt), (contains overlayPath tgt); try done.
    + destruct (handleKeydown_escape_idle e s He Hp) as [P1 E1].
      destruct (handleKeydown_escape_idle e _ He P1) as [_ E2].
      rewrite E1 in E2. by apply (f_equal e_promises) in E2.
    + destruct (handleKeydown_escape_idle e s He Hp) as [_ E1].
      by apply (f_equal e_promises) in E1.
    + destruct (handleKeydown_escape_idle e s He Hp) as [_ E1].
      by apply (f_equal e_promises) in E1.
Qed.

Lemma click_settles (tgt : NodeRef) (s : Store) :
  promises (exec (dispatch (EvClick tgt)) s)
  = match pending s with
    | Some req =>
        if isMounted s && bool_decide (tgt = overlayNode) then
          settle (resolvePromise req) VNull (promises s)
        else promises s
    | None => promises s
    end.
Proof.
  cbn [dispatch].
  rewrite exec_bind, exec_gets, eval_gets, exec_when.
  destruct (isMounted s); [|by destruct (pending s)]. cbn [andb].
  destruct (contains dialogPath tgt) eqn:Hd.
  { rewrite (promises_essence _ _ (essence_stopPropagation s)).
    rewrite bool_decide_eq_false_2; [by destruct (pending s)|].
    intros ->. discriminate Hd. }
  rewrite exec_when.
  destruct (contains overlayPath tgt) eqn:Ho.
  - unfold handleOverlayClick. rewrite exec_when. cbn [target currentTarget].
    case_bool_decide as Ht.
    + injection Ht as ->. rewrite bool_decide_eq_true_2 by done.
      rewrite exec_current. apply cancel_settles.
    + rewrite bool_decide_eq_false_2 by congruence. by destruct (pending s).
  - rewrite bool_decide_eq_false_2; [by destruct (pending s)|].
    intros ->. discriminate Ho.
Qed.

(** X5.  A future is fulfilled only by one of these: a call of the
    controls made for its request (the first call of the turn gives the
    value), or, while the request is held and the layer rendered, an
    Escape or Esc keydown inside the layer or a click on the overlay
    element itself (the value is [null]).  No other event, and no event
    aimed at another request, fulfils it. *)
Theorem only_triggers_settle (s : Store) (ev : Event) (p : nat) (v : Value) :
  promises s !! p = Some Pending →
  promises (exec (turn ev) s) !! p = Some (Fulfilled v) →
  ∃ req, controls_of ev (pending s) = Some req ∧ resolvePromise req = p
    ∧ ((∃ c cs, (ev = EvControls (c :: cs)
                 ∨ ev = EvRetainedControls req (c :: cs))
                ∧ v = control_value c)
       ∨ (isMounted s = true ∧ v = VNull
          ∧ ((∃ e path, ev = EvKeydown e (LayerNode path) ∧ is_escape e)
             ∨ ev = EvClick overlayNode))).
Proof.
  intros Hq Hf. rewrite turn_promises in Hf.
  change (promises s) with (promises (exec begin_event s)) in Hq.
  change (pending s) with (pending (exec begin_event s)).
  change (isMounted s) with (isMounted (exec begin_event s)).
  generalize dependent (exec begin_event s). clear s. intros s Hq Hf.
  destruct ev as [r|cs|req cs|e tgt|tgt|tgt|tgt|tgt|b|content|n];
    try (rewrite dispatch_keeps_promises in Hf by done; congruence).
  - (* open *)
    exfalso. cbn [dispatch] in Hf.
    unfold openWithRender in Hf.
    rewrite !exec_bind, exec_gets, eval_gets in Hf.
    destruct (externalOpenRef s) as [[]|]; [|cbn in Hf; congruence].
    rewrite exec_bind in Hf. cbn [call_open] in Hf.
    change (promises (exec (open r) s) !! p = Some (Fulfilled v)) in Hf.
    change (promises (exec (open r) s))
      with (e_promises (essence (exec (open r) s))) in Hf.
    rewrite essence_open in Hf. cbn in Hf.
    rewrite (lookup_app_l_Some _ _ _ _ Hq) in Hf. congruence.
  - (* controls of the last render *)
    cbn [dispatch controls_of] in *. rewrite exec_current, controls_settle in Hf.
    destruct (pending s) as [req|]; [|congruence].
    destruct cs as [|c cs]; [congruence|].
    destruct (settle_fulfils _ _ _ _ _ Hq Hf) as [Hi Hv].
    exists req. repeat split; [done|]. left. exists c, cs. split; [by left|done].
  - (* retained controls *)
    cbn [dispatch controls_of] in *. rewrite controls_settle in Hf.
    destruct cs as [|c cs]; [congruence|].
    destruct (settle_fulfils _ _ _ _ _ Hq Hf) as [Hi Hv].
    exists req. repeat split; [done|]. left. exists c, cs. split; [by right|done].
  - (* keydown *)
    cbn [controls_of].
    destruct (is_escape_b e) eqn:He.
    + rewrite escape_settles in Hf by done.
      destruct (pending s) as [req|]; [|congruence].
      destruct (isMounted s); [|cbn in Hf; congruence]. cbn [andb] in Hf.
      destruct tgt as [n|path]; [cbn in Hf; congruence|].
      rewrite contains_overlay in Hf.
      destruct (settle_fulfils _ _ _ _ _ Hq Hf) as [Hi Hv].
      exists req. repeat split; [done|]. right. repeat split; [done|].
      left. exists e, path. split; [done|]. by apply is_escape_b_spec.
    + rewrite (promises_essence _ _ (other_keys_keep_promises e tgt s He))
        in Hf.
      congruence.
  - (* click *)
    cbn [controls_of]. rewrite click_settles in Hf.
    destruct (pending s) as [req|]; [|congruence].
    destruct (isMounted s); [|cbn in Hf; congruence]. cbn [andb] in Hf.
    case_bool_decide as Ht; [|congruence]. subst tgt.
    destruct (settle_fulfils _ _ _ _ _ Hq Hf) as [Hi Hv].
    exists req. repeat split; [done|]. right. repeat split; [done|]. by right.
Qed.

Lemma only_triggers_settle_witness :
  let s := run [EvOpen FormModalRender] (mounted false) in
  let ev := EvKeydown {| key := "Esc"; shiftKey := false |} titleRef in
  ∃ req, controls_of ev (pending s) = Some req ∧ resolvePromise req = 0%nat.
Proof.
  intros s ev.
  assert (Hq : promises s !! 0%nat = Some Pending) by (vm_compute; reflexivity).
  assert (Hf : promises (exec (turn ev) s) !! 0%nat = Some (Fulfilled VNull))
    by (vm_compute; reflexivity).
  destruct (only_triggers_settle s ev 0 VNull Hq Hf) as (req & Hc & Hi & _).
  by exists req.
Defined.

(** ** The saved focus target *)

Lemma saved_refs_settled_all req cs s :
  saved_refs (settled_all req cs s) = saved_refs s.
Proof.
  pose proof (settled_all_frame req cs s) as H. unfold settlement_frame in H.
  unfold saved_refs. congruence.
Qed.

Lemma saved_refs_controls (p : option PendingRequest) (cs : list ControlCall)
  (s : Store) :
  saved_refs (exec (call_controls p cs) s) = saved_refs s.
Proof.
  destruct p as [req|].
  - rewrite call_controls_with_pending. apply saved_refs_settled_all.
  - by rewrite call_controls_without_pending.
Qed.

Lemma saved_refs_cancel (p : option PendingRequest) (s : Store) :
  saved_refs (exec (cancel p) s) = saved_refs s.
Proof. apply (saved_refs_controls p [CallCancel] s). Qed.

Lemma saved_refs_preventDefault s :
  saved_refs (exec preventDefault s) = saved_refs s.
Proof.
  unfold exec, preventDefault, emit, modify, when_, gets, mbind, M_bind.
  cbn [fst snd]. by destruct (inPassiveListener s).
Qed.

Lemma saved_refs_trap shift first lst s :
  saved_refs (exec (trap shift first lst) s) = saved_refs s.
Proof.
  unfold trap, HTMLElement_focus, exec, gets, mbind, M_bind. cbn [fst snd].
  destruct (_ && _).
  { fold (exec preventDefault s). rewrite <- (saved_refs_preventDefault s).
    by destruct (el_focusable first.2). }
  destruct (_ && _); [|done].
  fold (exec preventDefault s). rewrite <- (saved_refs_preventDefault s).
  by destruct (el_focusable lst.2).
Qed.

Lemma saved_refs_capture (e : UIEvent) (s : Store) :
  saved_refs (exec (passive_listener (handleWheelCapture e)) s)
  = saved_refs s.
Proof.
  unfold passive_listener, handleWheelCapture, isInsideDialog,
    isInsideScrollContent.
  rewrite !exec_bind, !exec_gets, !eval_gets, exec_when.
  destruct (_ || _); [|done].
  change (saved_refs
            (exec preventDefault (with_inPassiveListener true s))
          = saved_refs s).
  by rewrite saved_refs_preventDefault.
Qed.

Lemma saved_refs_handleKeydown (e : KeyboardEvent) (s : Store) :
  saved_refs (exec (handleKeydown e) s) = saved_refs s.
Proof.
  destruct (is_escape_b e) eqn:He.
  - rewrite handleKeydown_escape_exec by done.
    by rewrite saved_refs_cancel, saved_refs_preventDefault.
  - unfold handleKeydown. fold (is_escape_b e). rewrite He.
    destruct (key e =? "Tab")%string; [|done].
    unfold exec, gets, mbind, M_bind. cbn [fst snd].
    destruct (dialogRef s) as [c|]; [|done].
    destruct (tabbables c) as [|first rest] eqn:ET;
      [apply saved_refs_preventDefault|].
    apply (saved_refs_trap (shiftKey e) first (List.last (first :: rest) first)).
Qed.

Lemma saved_refs_dispatch (ev : Event) (s : Store) :
  (∀ r, ev ≠ EvOpen r) →
  saved_refs (exec (dispatch ev) s) = saved_refs s.
Proof.
  intros Hev.
  destruct ev as [r|cs|req cs|e tgt|tgt|tgt|tgt|tgt|b|content|n];
    cbn [dispatch]; try done.
  - by destruct (Hev r).
  - rewrite exec_current. apply saved_refs_controls.
  - apply saved_refs_controls.
  - rewrite exec_bind, exec_gets, eval_gets, exec_when.
    destruct (isMounted s); [|done].
    rewrite exec_bind, !exec_when.
    destruct (contains dialogPath tgt), (contains overlayPath tgt);
      by rewrite ?saved_refs_handleKeydown.
  - rewrite exec_bind, exec_gets, eval_gets, exec_when.
    destruct (isMounted s); [|done].
    destruct (contains dialogPath tgt); [done|].
    rewrite exec_when. destruct (contains overlayPath tgt); [|done].
    unfold handleOverlayClick. rewrite exec_when.
    destruct (bool_decide _); [|done].
    rewrite exec_current. apply saved_refs_cancel.
  - rewrite exec_bind, exec_gets, eval_gets, exec_when.
    destruct (_ && _); [|done].
    unfold handleOverlayAnimationEnd. cbn [target currentTarget].
    case_bool_decide; [done|].
    rewrite exec_bind, exec_gets, eval_gets, exec_when.
    case_bool_decide; [|done].
    open_store s. run_ops. by destruct s_owed.
  - rewrite exec_bind, exec_gets, eval_gets, exec_when.
    destruct (_ && _); [|done]. apply saved_refs_capture.
  - rewrite exec_bind, exec_gets, eval_gets, exec_when.
    destruct (_ && _); [|done].
    rewrite capture_handlers_agree. apply saved_refs_capture.
Qed.

Lemma saved_refs_ambient (s t : Store) :
  ambient s = ambient t → saved_refs s = saved_refs t.
Proof. unfold ambient, saved_refs. congruence. Qed.

Lemma saved_refs_turn (ev : Event) (s : Store) :
  saved_refs (exec (turn ev) s)
  = saved_refs (exec (dispatch ev) (exec begin_event s)).
Proof.
  rewrite turn_unfold.
  rewrite (saved_refs_ambient _ _ (proj1 (runMicrotasks_ambient _))).
  by rewrite (saved_refs_ambient _ _ (proj1 (commit_ambient _))).
Qed.

Lemma saved_refs_open (r : OpenRender) (s : Store) :
  saved_refs (exec (dispatch (EvOpen r)) s)
  = (match externalOpenRef s with
     | Some _ => activeElement s
     | None => previousActiveElementRef s
     end, externalOpenRef s).
Proof.
  open_store s. unfold saved_refs. cbn [dispatch].
  unfold openWithRender, call_open, open. run_ops.
  by destruct s_external as [[]|].
Qed.

Lemma reachable_registered (s : Store) :
  reachable s → externalOpenRef s = Some HostOpen.
Proof.
  induction 1 as [b|s ev _ IH]; [done|].
  assert (H : (saved_refs (exec (turn ev) s)).2 = Some HostOpen);
    [|exact H].
  rewrite saved_refs_turn.
  destruct ev as [r| | | | | | | | | |];
    try (rewrite saved_refs_dispatch by done; exact IH).
  by rewrite saved_refs_open.
Qed.

(** X6.  The saved focus target is written by [open] alone: no other
    event changes it, whatever the state, and an [open] with a host
    registered sets it to the element that has the focus at that moment
    (to nothing when no element has it). *)
Theorem focus_target_is_saved_by_open (s : Store) (ev : Event) :
  ((∀ r, ev ≠ EvOpen r) →
   previousActiveElementRef (exec (turn ev) s) = previousActiveElementRef s)
  ∧ (∀ r, ev = EvOpen r → externalOpenRef s = Some HostOpen →
       previousActiveElementRef (exec (turn ev) s) = activeElement s).
Proof.
  split.
  - intros Hev.
    assert (H : (saved_refs (exec (turn ev) s)).1 = (saved_refs s).1);
      [|exact H].
    by rewrite saved_refs_turn, saved_refs_dispatch.
  - intros r -> He.
    assert (H : (saved_refs (exec (turn (EvOpen r)) s)).1 = activeElement s);
      [|exact H].
    rewrite saved_refs_turn, saved_refs_open.
    change (externalOpenRef (exec begin_event s)) with (externalOpenRef s).
    by rewrite He.
Qed.

Lemma focus_target_is_saved_by_open_witness :
  let s := run [EvFocusChange (Some (PageNode 0)); EvOpen FormModalRender]
             (mounted false) in
  previousActiveElementRef
    (exec (turn (EvFocusChange (Some inputRef))) s)
  = previousActiveElementRef s.
Proof.
  intros s.
  apply (proj1 (focus_target_is_saved_by_open s
                  (EvFocusChange (Some inputRef)))).
  intros r. discriminate.
Defined.

(** X7.  In a run where [open] is called only while no request is held
    and the controls of a request only while it is held, the turn that
    unmounts the layer also restores the focus: the animation end of a
    closing layer, or, under reduced motion, the call of a control
    itself.  The focus goes to the element saved by [open]; when none was
    saved the focus stays where it is.  The flag is clear afterwards and
    the host is idle. *)
Theorem unmount_restores_focus (s : Store) :
  reachable_orderly s →
  let restored (s' : Store) :=
    activeElement s'
    = match previousActiveElementRef s with
      | Some el => Some el
      | None => activeElement s
      end
    ∧ restoreFocusOnCloseRef s' = false
    ∧ committed s' = (None, false, vs_unmounted) in
  (visualState s = vs_closed →
   restored (exec (turn (EvAnimationEnd overlayNode)) s))
  ∧ (∀ req c, pending s = Some req → prefersReducedMotionRef s = true →
       restored (exec (turn (EvControls [c])) s)).
Proof.
  intros (Hu & Hm & H)%reachable_orderly_Inv restored.
  unfold e_pending, e_isMounted, e_visualState in H. cbn in Hu, Hm, H.
  subst restored. cbn beta. split.
  - intros Hv. destruct (pending s) as [req|] eqn:Hp; [|destruct H; congruence].
    destruct H as [Hmt [[_ Hv']|(_ & _ & Ho)]]; [congruence|].
    open_store s. by destruct s_previous.
  - intros req c Hp Hr. rewrite Hp in H. destruct H as [Hmt _].
    open_store s. by destruct c, s_previous.
Qed.

Lemma unmount_restores_focus_witness :
  let s := run [EvFocusChange (Some (PageNode 0)); EvOpen FormModalRender;
                EvFocusChange (Some titleRef); EvControls [CallCancel]]
             (mounted false) in
  activeElement s = Some titleRef
  ∧ activeElement (exec (turn (EvAnimationEnd overlayNode)) s)
    = Some (PageNode 0).
Proof.
  intros s.
  assert (Hr : reachable_orderly s).
  { apply reachable_orderly_run; [apply reachable_orderly_mounted|].
    vm_compute. tauto. }
  assert (Ha : activeElement s = Some titleRef) by (vm_compute; reflexivity).
  assert (Hv : visualState s = vs_closed) by (vm_compute; reflexivity).
  assert (Hp : previousActiveElementRef s = Some (PageNode 0))
    by (vm_compute; reflexivity).
  destruct (proj1 (unmount_restores_focus s Hr) Hv) as (H & _).
  rewrite Hp in H. exact (conj Ha H).
Defined.

(** ** A second open before the first request is settled *)

Lemma turn_open_registered (r : OpenRender) (s : Store) :
  externalOpenRef s = Some HostOpen → updates s = [] → microtasks s = [] →
  pending (exec (turn (EvOpen r)) s)
  = Some {| render := r; resolvePromise := length (promises s) |}
  ∧ promises (exec (turn (EvOpen r)) s) = promises s ++ [Pending].
Proof. intros He Hu Hm. open_store s. by destruct s_pending. Qed.

Lemma orphaned_turn (p : nat) (ev : Event) (s : Store) :
  orphaned p s →
  (∀ req cs, ev = EvRetainedControls req cs → resolvePromise req ≠ p) →
  orphaned p (exec (turn ev) s).
Proof.
  intros (HQ & Hq & Hp) Hev. unfold orphaned.
  destruct (turn_essence ev s) as (y & Hd & He).
  change (promises (exec (turn ev) s))
    with (e_promises (essence (exec (turn ev) s))).
  change (pending (exec (turn ev) s))
    with (e_pending (essence (exec (turn ev) s))).
  rewrite He.
  change (promises s) with (e_promises (essence s)) in Hq.
  change (pending s) with (e_pending (essence s)) in Hp.
  revert HQ Hq Hp Hd. generalize (essence s). clear He s. intros x HQ Hq Hp Hd.
  destruct Hd as [ev x|b x|ev req n w x Hc Hn|r x|x Hmt Hv].
  - by rewrite after_quiet.
  - rewrite after_media by done. exact (conj HQ (conj Hq Hp)).
  - rewrite (after_settled req n w x HQ Hn).
    assert (Hne : resolvePromise req ≠ p).
    { destruct ev; cbn in Hc; try (by apply Hp).
      injection Hc as <-. by eapply Hev. }
    split; [done|]. unfold finished, e_pending. cbn. split.
    + rewrite settle_other by done. exact Hq.
    + intros req'. destruct (e_reduced x); [done|]. apply Hp.
  - rewrite (after_opened r x HQ).
    split; [done|]. unfold finished, e_pending. cbn. split.
    + by apply lookup_app_l_Some.
    + intros req' [= <-]. cbn. apply lookup_lt_Some in Hq. lia.
  - rewrite (after_unmounted x HQ). by repeat split.
Qed.

Lemma orphaned_run (p : nat) (evs : list Event) (s : Store) :
  orphaned p s →
  Forall (λ ev, ∀ req cs,
            ev = EvRetainedControls req cs → resolvePromise req ≠ p) evs →
  orphaned p (run evs s).
Proof.
  revert s. induction evs as [|ev evs IH]; intros s Ho Hevs; [done|].
  apply Forall_cons in Hevs as [Hev Hevs]. cbn [run foldl].
  apply IH; [|done]. by apply orphaned_turn.
Qed.

(** X8.  When [open] is called a second time before the first request is
    settled, the second request replaces the first as the one held, and
    the first future is left pending: no later keydown, click, animation
    end, [open], or call of the controls of any other request fulfils it.
    Only the controls kept from its own render still can. *)
Theorem second_open_orphans_the_first (s : Store) (r1 r2 : OpenRender)
  (evs : list Event) :
  reachable s →
  let p1 := length (promises s) in
  let s2 := run [EvOpen r1; EvOpen r2] s in
  pending s2 = Some {| render := r2; resolvePromise := S p1 |}
  ∧ promises s2 = promises s ++ [Pending; Pending]
  ∧ (Forall (λ ev, ∀ req cs,
               ev = EvRetainedControls req cs → resolvePromise req ≠ p1) evs →
     promises (run evs s2) !! p1 = Some Pending).
Proof.
  intros Hs p1 s2.
  pose proof (reachable_turn s (EvOpen r1) Hs) as Hs1.
  pose proof (reachable_turn _ (EvOpen r2) Hs1) as Hs2.
  destruct (reachable_quiet s Hs) as [Hu Hm].
  destruct (reachable_quiet _ Hs1) as [Hu1 Hm1].
  destruct (turn_open_registered r1 s (reachable_registered s Hs) Hu Hm)
    as [P1 Q1].
  destruct (turn_open_registered r2 _ (reachable_registered _ Hs1) Hu1 Hm1)
    as [P2 Q2].
  rewrite Q1 in P2, Q2. rewrite length_app, Nat.add_1_r in P2.
  rewrite <- app_assoc in Q2.
  subst s2. unfold run at 1 2 4. cbn [foldl].
  repeat split; [done..|].
  intros Hevs. apply orphaned_run; [|done].
  split; [by apply reachable_Closing|].
  split.
  - rewrite Q2. by apply list_lookup_middle.
  - rewrite P2. intros req [= <-]. cbn. subst p1. lia.
Qed.

Lemma second_open_orphans_the_first_witness :
  let s2 := run [EvOpen (CustomRender 0); EvOpen FormModalRender]
              (mounted false) in
  promises
    (run [EvKeydown {| key := "Escape"; shiftKey := false |} titleRef;
          EvAnimationEnd overlayNode] s2)
  !! 0%nat = Some Pending.
Proof.
  intros s2.
  apply (second_open_orphans_the_first (mounted false) (CustomRender 0)
           FormModalRender _ (reachable_mounted false)).
  repeat constructor; intros req cs; discriminate.
Defined.

(** ** Events that leave the host alone *)

(** A turn whose handlers leave the essence, the refs, the content and
    the focus alone leaves the host's state alone. *)
Lemma inert_turn (ev : Event) (s : Store) :
  updates s = [] → microtasks s = [] →
  essence (exec (dispatch ev) (exec begin_event s)) = essence s →
  ambient (exec (dispatch ev) (exec begin_event s)) = ambient s →
  activeElement (exec (dispatch ev) (exec begin_event s)) = activeElement s →
  host_state (exec (turn ev) s) = host_state s.
Proof.
  intros Hu Hm He Ha Hf. rewrite turn_unfold.
  set (t := exec (dispatch ev) (exec begin_event s)) in *.
  assert (HQ : QuietE (essence s)) by done.
  assert (Ht : essence (exec runMicrotasks (exec commit t)) = essence s).
  { by rewrite essence_runMicrotasks, essence_commit, He, after_quiet. }
  destruct (commit_ambient t) as [A1 B1].
  destruct (runMicrotasks_ambient (exec commit t)) as [A2 B2].
  assert (Hmt : microtasks (exec commit t) = []).
  { change (e_microtasks (essence (exec commit t)) = []).
    rewrite essence_commit, He. unfold commitE.
    destruct HQ as [_ HQ]. by repeat case_match. }
  apply host_state_by_essence; rewrite ?Ht; try reflexivity.
  - by rewrite A2, A1.
  - by rewrite B2, Hmt, B1.
Qed.





(** X11.  The reduced-motion preference is a ref the media query's
    change listener keeps up to date: a change alone touches neither the
    request nor the futures, and the next call of a control unmounts in
    its own turn exactly when the latest value reported is true. *)
Theorem preference_is_read_at_the_call (s : Store) (req : PendingRequest)
  (matches : bool) (c : ControlCall) :
  updates s = [] → microtasks s = [] → pending s = Some req →
  prefersReducedMotionRef (exec (turn (EvMediaChange matches)) s) = matches
  ∧ committed (exec (turn (EvMediaChange matches)) s) = committed s
  ∧ promises (exec (turn (EvMediaChange matches)) s) = promises s
  ∧ committed (run [EvMediaChange matches; EvControls [c]] s)
    = if matches then (None, false, vs_unmounted)
      else (Some req, isMounted s, vs_closed).
Proof.
  intros Hu Hm Hp. open_store s.
  by destruct matches, c, s_previous.
Qed.

Lemma preference_is_read_at_the_call_witness :
  committed
    (run [EvMediaChange true; EvControls [CallCancel]]
       (run [EvOpen FormModalRender] (mounted false)))
  = (None, false, vs_unmounted).
Proof.
  by destruct (preference_is_read_at_the_call
                 (run [EvOpen FormModalRender] (mounted false))
                 {| render := FormModalRender; resolvePromise := 0 |}
                 true CallCancel eq_refl eq_refl eq_refl) as (_ & _ & _ & H).
Defined.

(** ** The form: trimming and validation *)

Lemma trimStart_blank (s : jsstring) : blank s → trimStart s = [].
Proof.
  induction 1 as [|c s Hc _ IH]; [done|]. cbn. by rewrite Hc.
Qed.

Lemma trimStart_split (s : jsstring) :
  ∃ l, s = l ++ trimStart s ∧ blank l
       ∧ ∀ c, head (trimStart s) = Some c → is_trimmed_unit c = false.
Proof.
  induction s as [|c s (l & Hs & Hl & Hh)].
  - exists []. split; [done|]. split; [constructor|done].
  - cbn [trimStart]. destruct (is_trimmed_unit c) eqn:Hc.
    + exists (c :: l). split; [by rewrite Hs at 1|].
      split; [by constructor|done].
    + exists []. split; [done|]. split; [constructor|].
      intros c' [= <-]. done.
Qed.

Lemma trim_split (s : jsstring) :
  ∃ l r, s = l ++ trim s ++ r ∧ blank l ∧ blank r ∧ trimmed (trim s).
Proof.
  destruct (trimStart_split s) as (l & Hs & Hl & Hh).
  destruct (trimStart_split (reverse (trimStart s))) as (r & Hr & Hbr & Hhr).
  fold (trim s) in *. unfold trim in *.
  set (u := trimStart (reverse (trimStart s))) in *.
  assert (Ht : trimStart s = reverse u ++ reverse r).
  { by rewrite <- reverse_app, <- Hr, reverse_involutive. }
  exists l, (reverse r). split; [by rewrite <- Ht|].
  split; [done|]. split; [by apply Forall_reverse|].
  split.
  - intros c Hc. apply Hh. rewrite Ht.
    destruct (reverse u) as [|x xs]; [done|]. exact Hc.
  - intros c Hc. apply Hhr. by rewrite last_reverse in Hc.
Qed.

Lemma trim_blank (s : jsstring) : trim s = [] ↔ blank s.
Proof.
  split.
  - intros H. destruct (trim_split s) as (l & r & Hs & Hl & Hr & _).
    rewrite H in Hs. rewrite Hs. by apply Forall_app.
  - intros H. unfold trim. by rewrite (trimStart_blank s H).
Qed.

(** *** The matcher finds exactly the matches *)

Lemma nullable_Matches (r : Regex) : nullable r = true ↔ Matches r [].
Proof.
  split.
  - induction r as [| | |c|a IHa b IHb|a IHa b IHb|a IHa|a IHa]; cbn;
      try done.
    + constructor.
    + intros [Ha Hb]%andb_true_iff.
      apply (m_cat a b [] []); [by apply IHa | by apply IHb].
    + intros [Ha|Hb]%orb_true_iff.
      * by apply m_alt_l, IHa.
      * by apply m_alt_r, IHb.
    + intros _. constructor.
    + intros Ha. apply (m_plus a [] []); [by apply IHa | constructor].
  - intros H. remember [] as s eqn:Es.
    induction H as [|c Hc|c|a b s t Ha IHa Hb IHb|a b s Ha IHa|a b s Hb IHb
                    |a|a s t Ha IHa Ht IHt|a s t Ha IHa Ht IHt]; cbn;
      try done.
    + apply app_eq_nil in Es as [-> ->].
      by rewrite IHa, IHb.
    + by rewrite IHa.
    + rewrite IHb by done. apply orb_true_r.
    + apply app_eq_nil in Es as [-> ->]. by apply IHa.
Qed.

Lemma Matches_star_cons (a : Regex) (c : N) (s : jsstring) :
  Matches (r_star a) (c :: s) →
  ∃ s1 s2, s = s1 ++ s2 ∧ Matches a (c :: s1) ∧ Matches (r_star a) s2.
Proof.
  intros H. remember (r_star a) as r eqn:Er. remember (c :: s) as u eqn:Eu.
  induction H as [|c' Hc|c'|a' b s' t Ha IHa Hb IHb|a' b s' Ha IHa
                  |a' b s' Hb IHb|a'|a' s' t Ha IHa Ht IHt
                  |a' s' t Ha IHa Ht IHt]; try done.
  injection Er as ->. destruct s' as [|x s'].
  - by apply IHt.
  - cbn in Eu. injection Eu as -> <-. by exists s', t.
Qed.

Lemma Matches_cat_inv (a b : Regex) (u : jsstring) :
  Matches (r_cat a b) u → ∃ s t, u = s ++ t ∧ Matches a s ∧ Matches b t.
Proof. inversion 1; subst. by eexists _, _. Qed.

Lemma Matches_alt_inv (a b : Regex) (u : jsstring) :
  Matches (r_alt a b) u → Matches a u ∨ Matches b u.
Proof. inversion 1; subst; [by left | by right]. Qed.

Lemma Matches_plus_inv (a : Regex) (u : jsstring) :
  Matches (r_plus a) u →
  ∃ s t, u = s ++ t ∧ Matches a s ∧ Matches (r_star a) t.
Proof. inversion 1; subst. by eexists _, _. Qed.

Lemma deriv_Matches (c : N) (r : Regex) (s : jsstring) :
  Matches (deriv c r) s ↔ Matches r (c :: s).
Proof.
  revert s.
  induction r as [| | |d|a IHa b IHb|a IHa b IHb|a IHa|a IHa]; intros s;
    cbn [deriv].
  - split; inversion 1.
  - split; inversion 1.
  - destruct (is_line_terminator c) eqn:Hc.
    + split; inversion 1; congruence.
    + split; inversion 1; subst; by constructor.
  - destruct (N.eqb_spec c d) as [->|Hne].
    + split; inversion 1; subst; constructor.
    + split; inversion 1; congruence.
  - split.
    + intros [Hl|Hr]%Matches_alt_inv.
      * apply Matches_cat_inv in Hl as (s1 & s2 & -> & H1 & H2).
        apply (m_cat a b (c :: s1) s2); [by apply IHa | done].
      * destruct (nullable a) eqn:Hn; [|inversion Hr].
        apply (m_cat a b [] (c :: s)); [by apply nullable_Matches|].
        by apply IHb.
    + intros (s1 & s2 & Es & H1 & H2)%Matches_cat_inv.
      destruct s1 as [|x s1]; cbn in Es.
      * subst s2. apply m_alt_r.
        apply nullable_Matches in H1. rewrite H1. by apply IHb.
      * injection Es as <- ->. apply m_alt_l.
        apply m_cat; [by apply IHa | done].
  - split.
    + intros [H|H]%Matches_alt_inv;
        [apply m_alt_l; by apply IHa | apply m_alt_r; by apply IHb].
    + intros [H|H]%Matches_alt_inv;
        [apply m_alt_l; by apply IHa | apply m_alt_r; by apply IHb].
  - split.
    + intros (s1 & s2 & -> & H1 & H2)%Matches_cat_inv.
      apply (m_star_cons a (c :: s1) s2); [by apply IHa | done].
    + intros (s1 & s2 & -> & H1 & H2)%Matches_star_cons.
      apply m_cat; [by apply IHa | done].
  - split.
    + intros (s1 & s2 & -> & H1 & H2)%Matches_cat_inv.
      apply (m_plus a (c :: s1) s2); [by apply IHa | done].
    + intros (s1 & s2 & Es & H1 & H2)%Matches_plus_inv.
      destruct s1 as [|x s1]; cbn in Es.
      * subst s2.
        apply Matches_star_cons in H2 as (t1 & t2 & -> & G1 & G2).
        apply m_cat; [by apply IHa | done].
      * injection Es as <- ->. apply m_cat; [by apply IHa | done].
Qed.

Lemma matches_prefix_Matches (r : Regex) (s : jsstring) :
  matches_prefix r s = true ↔ ∃ pre post, s = pre ++ post ∧ Matches r pre.
Proof.
  revert r. induction s as [|c s IH]; intros r; cbn [matches_prefix].
  - rewrite orb_false_r, nullable_Matches. split.
    + intros H. by exists [], [].
    + intros (pre & post & E & H). symmetry in E.
      by apply app_eq_nil in E as [-> ->].
  - rewrite orb_true_iff, nullable_Matches, IH. split.
    + intros [H|(pre & post & -> & H)].
      * by exists [], (c :: s).
      * exists (c :: pre), post. split; [done|]. by apply deriv_Matches.
    + intros ([|x pre] & post & E & H); [by left|].
      cbn in E. injection E as <- ->. right.
      exists pre, post. split; [done|]. by apply deriv_Matches.
Qed.

Lemma test_Matches (r : Regex) (s : jsstring) :
  test r s = true ↔ ∃ a m b, s = a ++ m ++ b ∧ Matches r m.
Proof.
  induction s as [|c s IH]; cbn [test].
  - rewrite orb_false_r, matches_prefix_Matches. split.
    + intros (pre & post & E & H). by exists [], pre, post.
    + intros (a & m & b & E & H). symmetry in E.
      apply app_eq_nil in E as [-> [-> ->]%app_eq_nil].
      by exists [], [].
  - rewrite orb_true_iff, matches_prefix_Matches, IH. split.
    + intros [(pre & post & E & H)|(a & m & b & -> & H)].
      * by exists [], pre, post.
      * by exists (c :: a), m, b.
    + intros ([|x a] & m & b & E & H).
      * left. by exists m, b.
      * cbn in E. injection E as <- ->. right. by exists a, m, b.
Qed.

Lemma Matches_dot_inv (u : jsstring) :
  Matches r_dot u → ∃ c, u = [c] ∧ is_line_terminator c = false.
Proof. inversion 1; subst. by eexists. Qed.

Lemma Matches_chr_inv (c : N) (u : jsstring) : Matches (r_chr c) u → u = [c].
Proof. by inversion 1. Qed.

Lemma Matches_star_dot (s : jsstring) : Matches (r_star r_dot) s ↔ one_line s.
Proof.
  split.
  - intros H. remember (r_star r_dot) as r eqn:Er.
    induction H as [|c' Hc|c'|a' b s' t Ha IHa Hb IHb|a' b s' Ha IHa
                    |a' b s' Hb IHb|a'|a' s' t Ha IHa Ht IHt
                    |a' s' t Ha IHa Ht IHt]; try done.
    + constructor.
    + injection Er as ->.
      apply Matches_dot_inv in Ha as (c & -> & Hc).
      constructor; [done|]. by apply IHt.
  - induction 1 as [|c s Hc _ IH]; [constructor|].
    apply (m_star_cons r_dot [c] s); [by constructor | done].
Qed.

Lemma Matches_plus_dot (s : jsstring) :
  Matches (r_plus r_dot) s ↔ s ≠ [] ∧ one_line s.
Proof.
  split.
  - intros (u & t & -> & (c & -> & Hc)%Matches_dot_inv & Ht)%Matches_plus_inv.
    split; [done|]. constructor; [done|]. by apply Matches_star_dot.
  - intros [Hne Hs]. destruct Hs as [|c s Hc Hs]; [done|].
    apply (m_plus r_dot [c] s); [by constructor|]. by apply Matches_star_dot.
Qed.

Lemma Matches_email (m : jsstring) :
  Matches email_pattern m
  ↔ ∃ a b c, m = a ++ [64%N] ++ b ++ [46%N] ++ c
             ∧ (a ≠ [] ∧ one_line a) ∧ (b ≠ [] ∧ one_line b)
             ∧ (c ≠ [] ∧ one_line c).
Proof.
  unfold email_pattern. split.
  - intros (a & t1 & -> & Ha & H1)%Matches_cat_inv.
    apply Matches_cat_inv in H1 as (x & t2 & -> & ->%Matches_chr_inv & H2).
    apply Matches_cat_inv in H2 as (b & t3 & -> & Hb & H3).
    apply Matches_cat_inv in H3 as (y & c & -> & ->%Matches_chr_inv & Hc).
    exists a, b, c. by rewrite <- !Matches_plus_dot.
  - intros (a & b & c & -> & Ha & Hb & Hc).
    rewrite <- Matches_plus_dot in Ha, Hb, Hc.
    repeat (apply m_cat; try done); constructor.
Qed.

(** X12.  [isValidEmail] accepts exactly the strings that hold, somewhere,
    a code unit, an [@], one or more code units, a full stop and one more
    code unit, none of these code units a line terminator.  Nothing is
    asked of what comes before or after, so a string with blanks or with
    several [@] passes as well; a string shorter than five code units
    never does. *)
Theorem isValidEmail_accepts (s : jsstring) :
  (isValidEmail s = true
   ↔ ∃ pre x b y post,
       s = pre ++ [x; 64%N] ++ b ++ [46%N; y] ++ post
       ∧ is_line_terminator x = false
       ∧ b ≠ [] ∧ one_line b
       ∧ is_line_terminator y = false)
  ∧ (isValidEmail s = true → (5 ≤ length s)%nat).
Proof.
  assert (H : isValidEmail s = true
              ↔ ∃ pre x b y post,
                  s = pre ++ [x; 64%N] ++ b ++ [46%N; y] ++ post
                  ∧ is_line_terminator x = false
                  ∧ b ≠ [] ∧ one_line b
                  ∧ is_line_terminator y = false).
  { unfold isValidEmail. rewrite test_Matches. split.
    - intros (a0 & m & b0 & -> & Hm).
      apply Matches_email in Hm
        as (a & b & c & -> & [Hna Ha] & [Hnb Hb] & [Hnc Hc]).
      destruct (exists_last Hna) as (a' & x & ->).
      destruct c as [|y c']; [done|].
      exists (a0 ++ a'), x, b, y, (c' ++ b0).
      apply Forall_app in Ha as [_ Hx]. apply Forall_cons in Hx as [Hx _].
      apply Forall_cons in Hc as [Hy _].
      split; [|done]. by simplify_list_eq.
    - intros (pre & x & b & y & post & -> & Hx & Hnb & Hb & Hy).
      exists pre, ([x] ++ [64%N] ++ b ++ [46%N] ++ [y]), post.
      split; [by simplify_list_eq|].
      apply Matches_email. exists [x], b, [y].
      repeat split; try done; by repeat constructor. }
  split; [exact H|].
  intros (pre & x & b & y & post & -> & _ & Hnb & _)%H.
  destruct b; [done|]. rewrite !length_app. cbn. lia.
Qed.

Lemma isValidEmail_nonempty (v : jsstring) : isValidEmail v = true → v ≠ [].
Proof. by intros H ->. Qed.

(** X13.  [handleSubmit] always prevents the default submission and then
    does one of three things.  A value of blanks only: the first message,
    focus on the input.  A value whose trimmed form fails [isValidEmail]:
    the second message, focus on the input.  In both cases [onResolve] is
    not called.  Otherwise [onResolve] is called once, with an object
    whose [email] is the trimmed value: the typed value without the
    blanks at its two ends. *)
Theorem handleSubmit_outcomes (onResolve : Value → M unit) (f : FormModal)
  (s : Store) :
  (blank (email f) →
   handleSubmit onResolve f s
   = ({| email := email f; error := Some "이메일을 입력해 주세요." |},
      exec (preventDefault ;; focus inputRef) s))
  ∧ (¬ blank (email f) → isValidEmail (trim (email f)) = false →
     handleSubmit onResolve f s
     = ({| email := email f;
           error := Some "올바른 이메일 형식을 입력해 주세요." |},
        exec (preventDefault ;; focus inputRef) s))
  ∧ (isValidEmail (trim (email f)) = true →
     handleSubmit onResolve f s
     = ({| email := email f; error := None |},
        exec (preventDefault ;;
              onResolve (VObject [("email", VString (trim (email f)))])) s)
     ∧ trimmed (trim (email f))
     ∧ ∃ l r, email f = l ++ trim (email f) ++ r ∧ blank l ∧ blank r).
Proof.
  repeat apply conj.
  - intros H. apply handleSubmit_empty. by apply trim_blank.
  - intros H Hv. apply handleSubmit_malformed; [|done].
    intros Ht. by apply H, trim_blank.
  - intros Hv.
    destruct (trim_split (email f)) as (l & r & Hs & Hl & Hr & Ht).
    split; [|split; [done|by exists l, r]].
    apply handleSubmit_valid; [|done]. by apply isValidEmail_nonempty.
Qed.

Lemma handleSubmit_outcomes_witness :
  let f := {| email := utf16 "  a@b.co "; error := None |} in
  (handleSubmit (resolve None) f initialStore).1
  = {| email := utf16 "  a@b.co "; error := None |}
  ∧ trim (email f) = utf16 "a@b.co"
  ∧ (handleSubmit (resolve None) {| email := utf16 "   "; error := None |}
       initialStore).1
    = {| email := utf16 "   "; error := Some "이메일을 입력해 주세요." |}.
Proof.
  intros f.
  destruct (handleSubmit_outcomes (resolve None) f initialStore)
    as (_ & _ & H3).
  destruct (H3 eq_refl) as (H & _).
  destruct (handleSubmit_outcomes (resolve None)
              {| email := utf16 "   "; error := None |} initialStore)
    as (H1 & _).
  assert (Hb : blank (utf16 "   ")) by (by repeat constructor).
  rewrite H, (H1 Hb). by repeat split.
Defined.

(** The two values of the form scenario pass the browser's validation,
    so their [submit] events do fire. *)
Lemma scenario_values_pass_validation :
  passes_validation (utf16 EmptyString) = true
  ∧ passes_validation (utf16 "a@b.co") = true.
Proof. split; reflexivity. Qed.

Lemma submitForm_unfold (f : FormModal) (s : Store) :
  submitForm f s
  = let r := handleSubmit (resolve (pending s)) f (exec begin_event s) in
    (r.1,
     exec runMicrotasks
       (exec commit (with_contentDom (FormModal_render r.1) r.2))).
Proof. reflexivity. Qed.

(** X14.  From the page to its result.  The form modal is opened, a
    value is typed into the email field and the user asks to submit.
    When the field's value does not pass the browser's validation,
    nothing is submitted: the future stays pending, the layer open, no
    error is set or shown, and the field has the focus.  When it passes,
    [handleSubmit] runs: a value whose trimmed form is empty sets the
    first message, one whose trimmed form fails [isValidEmail] the
    second; the message is shown, the future stays pending and the input
    has the focus.  Otherwise the future is fulfilled with an object
    holding the trimmed value, [handleOpen] stores it as the page's
    result, and the layer closes (or is already gone, under reduced
    motion). *)
Theorem form_result (reducedMotion : bool) (trigger : option NodeRef)
  (typed : jsstring) :
  let value := email_value typed in
  let out := typed_and_submitted reducedMotion trigger typed in
  let held_back (msg : option string) :=
    promises out.2 = [Pending]
    ∧ visualState out.2 = vs_open
    ∧ error out.1 = msg
    ∧ shown_alerts (contentDom out.2)
      = match msg with Some m => [m] | None => [] end
    ∧ activeElement out.2 = Some inputRef in
  (passes_validation value = false → held_back None)
  ∧ (passes_validation value = true → trim value = [] →
     held_back (Some "이메일을 입력해 주세요."))
  ∧ (passes_validation value = true → trim value ≠ [] →
     isValidEmail (trim value) = false →
     held_back (Some "올바른 이메일 형식을 입력해 주세요."))
  ∧ (passes_validation value = true → isValidEmail (trim value) = true →
     promises out.2 = [Fulfilled (VObject [("email", VString (trim value))])]
     ∧ handleOpen_result (VObject [("email", VString (trim value))])
       = VString (trim value)
     ∧ error out.1 = None
     ∧ visualState out.2 = if reducedMotion then vs_unmounted else vs_closed).
Proof.
  intros value out held_back. subst out held_back.
  unfold typed_and_submitted. fold value.
  generalize value. clear value typed. intros v.
  change (handleInputChange v FormModal_initial)
    with {| email := v; error := None |}.
  unfold requestSubmit. cbn [email].
  set (s := (scenario_opened reducedMotion trigger).2).
  repeat apply conj.
  - intros ->. subst s.
    destruct reducedMotion, trigger; repeat split; vm_compute; reflexivity.
  - intros -> Ht. rewrite submitForm_unfold. cbv zeta.
    rewrite handleSubmit_empty by exact Ht. subst s.
    destruct reducedMotion, trigger; repeat split; vm_compute; reflexivity.
  - intros -> Ht Hv. rewrite submitForm_unfold. cbv zeta.
    rewrite handleSubmit_malformed by done. subst s.
    destruct reducedMotion, trigger; repeat split; vm_compute; reflexivity.
  - intros -> Hv. rewrite submitForm_unfold. cbv zeta.
    rewrite handleSubmit_valid; [|by apply isValidEmail_nonempty|done].
    cbn [email]. generalize (trim v). intros w. subst s.
    destruct reducedMotion, trigger; repeat split; vm_compute; reflexivity.
Qed.

Lemma form_result_witness :
  promises (typed_and_submitted false None (utf16 " me@example.org ")).2
  = [Fulfilled (VObject [("email", VString (utf16 "me@example.org"))])]
  ∧ error (typed_and_submitted false None (utf16 "me@example")).1
    = Some "올바른 이메일 형식을 입력해 주세요."
  ∧ error (typed_and_submitted false None (utf16 "me example.org")).1 = None.
Proof.
  destruct (form_result false None (utf16 " me@example.org "))
    as (_ & _ & _ & H4).
  destruct (form_result false None (utf16 "me@example"))
    as (_ & _ & H3 & _).
  destruct (form_result false None (utf16 "me example.org"))
    as (H1 & _).
  split; [|split].
  - by destruct (H4 eq_refl eq_refl) as (-> & _).
  - assert (Hne : trim (email_value (utf16 "me@example")) ≠ [])
      by (vm_compute; discriminate).
    by destruct (H3 eq_refl Hne eq_refl) as (_ & _ & -> & _).
  - by destruct (H1 eq_refl) as (_ & _ & -> & _).
Defined.

(** ** The focus trap around the form *)

Lemma FormModal_tabbables (f : FormModal) :
  error f ≠ Some EmptyString →
  tabbables (dialogElement (FormModal_render f))
  = [(closeButton, element tag_button None);
     (emailInput, element tag_input None);
     (nameInput, element tag_input None);
     (cancelButton f, element tag_button None);
     (submitButton f, element tag_button None)].
Proof.
  unfold cancelButton, submitButton, buttonRow, FormModal_render.
  by destruct (error f) as [[|c msg]|].
Qed.

(** X15.  Around the form, the trap cycles through five elements, in this
    order: the close button, the email input, the name input, the cancel
    button and the submit button, whether or not the error message is
    shown.  The title, which receives the focus when the form mounts, is
    not one of them.  Tab on the submit button goes to the close button,
    Shift+Tab on the close button or on the dialog container goes to the
    submit button, and Tab on the title is left to the browser.  The
    rendered tree is that of a form whose error, when set, is one of the
    two messages, never the empty string. *)
Theorem FormModal_tab_cycle (f : FormModal) (s : Store) :
  error f ≠ Some EmptyString →
  isMounted s = true → contentDom s = FormModal_render f →
  let tab := {| key := "Tab"; shiftKey := false |} in
  let shiftTab := {| key := "Tab"; shiftKey := true |} in
  (tabbables (dialogElement (contentDom s))).*1
  = [closeButton; emailInput; nameInput; cancelButton f; submitButton f]
  ∧ (titleRef ∉ LayerNode <$> (tabbables (dialogElement (contentDom s))).*1)
  ∧ (activeElement s = Some (LayerNode (submitButton f)) →
     handleKeydown tab s
     = (preventDefault ;; focus (LayerNode closeButton)) s)
  ∧ (activeElement s = Some (LayerNode closeButton)
     ∨ activeElement s = Some dialogNode →
     handleKeydown shiftTab s
     = (preventDefault ;; focus (LayerNode (submitButton f))) s)
  ∧ (activeElement s = Some titleRef → handleKeydown tab s = ((), s)).
Proof.
  intros Herr Hm Hc tab shiftTab.
  assert (Ht : ∀ e, key e = "Tab" →
            handleKeydown e s
            = trap (shiftKey e) (closeButton, element tag_button None)
                (submitButton f, element tag_button None) s).
  { intros e He. rewrite (handleKeydown_tab s e He Hm), Hc.
    by rewrite FormModal_tabbables. }
  rewrite Hc, FormModal_tabbables by done. cbn [fmap list_fmap fst].
  split; [done|]. split.
  { unfold cancelButton, submitButton, buttonRow.
    destruct (error f); intros H;
      repeat (apply elem_of_cons in H as [H|H]; [discriminate H|]);
      by apply elem_of_nil in H. }
  rewrite !Ht by done. unfold trap, is_active, gets, mbind, M_bind.
  cbn [fst snd shiftKey tab shiftTab negb andb].
  split; [|split].
  - intros Ha. by rewrite Ha, bool_decide_eq_true_2.
  - intros [Ha|Ha]; rewrite Ha.
    + by rewrite bool_decide_eq_true_2.
    + rewrite (bool_decide_eq_true_2 (Some dialogNode = Some (LayerNode dialogPath)))
        by done.
      by rewrite orb_true_r.
  - intros Ha. rewrite Ha. rewrite bool_decide_eq_false_2; [done|].
    unfold submitButton, buttonRow. by destruct (error f).
Qed.

Lemma FormModal_tab_cycle_witness :
  let f := {| email := []; error := Some "이메일을 입력해 주세요." |} in
  let s := with_activeElement (Some (LayerNode (submitButton f)))
             (with_contentDom (FormModal_render f)
                (scenario_opened false None).2) in
  handleKeydown {| key := "Tab"; shiftKey := false |} s
  = (preventDefault ;; focus (LayerNode closeButton)) s.
Proof.
  intros f s.
  assert (He : error f ≠ Some EmptyString) by discriminate.
  destruct (FormModal_tab_cycle f s He eq_refl eq_refl) as (_ & _ & H & _).
  exact (H eq_refl).
Defined.

(** Tab on the submit button of the form: the keydown is handled on the
    content element and again on the overlay, and the focus ends on the
    close button. *)
Lemma tab_dispatch_wraps_witness :
  let e := {| key := "Tab"; shiftKey := false |} in
  let s := with_activeElement (Some (LayerNode [0; 0; 0; 2; 2; 1]%nat))
             (scenario_opened false None).2 in
  activeElement
    (exec (dispatch (EvKeydown e (LayerNode [0; 0; 0; 2; 2; 1]%nat))) s)
  = Some (LayerNode [0; 0; 0; 0; 1]%nat).
Proof.
  intros e s.
  destruct (tab_dispatch_wraps s e [0; 0; 0; 2; 2; 1]%nat
              ([0; 0; 0; 0; 1]%nat, element tag_button None)
              ([0; 0; 0; 2; 2; 1]%nat, element tag_button None)
              eq_refl eq_refl eq_refl eq_refl) as [H _].
  exact (H eq_refl eq_refl).
Defined.

(** ** The triggers and [cancel] *)

(** X17.  While the layer is rendered, an Escape or Esc keydown inside
    the layer and a click on the overlay element itself leave the host in
    the state one call of [cancel] by the content leaves it in, whether a
    request is held or not and with either motion preference (how often
    [focus] was called is not part of that state); the keydown also
    prevents its default action. *)
Theorem triggers_act_as_cancel (s : Store) (ev : Event) :
  updates s = [] → microtasks s = [] → isMounted s = true →
  cancellation_trigger ev →
  host_state (exec (turn ev) s)
  = host_state (exec (turn (EvControls [CallCancel])) s)
  ∧ (∀ e tgt, ev = EvKeydown e tgt →
       defaultPrevented (exec (turn ev) s) = true).
Proof.
  intros Hu Hm Hmt Hev. open_store s.
  destruct Hev as [|e path He|].
  - split; [done|]. intros e tgt. discriminate.
  - unfold turn, dispatch.
    rewrite (handleKeydown_escape e He), contains_overlay.
    destruct (contains dialogPath (LayerNode path)), s_pending as [req|],
      s_reduced, s_previous;
      run_turn; rewrite ?settle_settle; by split.
  - rewrite turn_unfold. unfold exec at 3.
    rewrite dispatch_click_overlay by done.
    split; [|intros e tgt; discriminate].
    destruct s_pending as [req|], s_reduced, s_previous;
      run_turn; reflexivity.
Qed.

Lemma triggers_act_as_cancel_witness :
  let s := run [EvOpen FormModalRender] (mounted true) in
  host_state (exec (turn (EvClick overlayNode)) s)
  = host_state (exec (turn (EvControls [CallCancel])) s).
Proof.
  intros s.
  by destruct (triggers_act_as_cancel s (EvClick overlayNode)
                 eq_refl eq_refl eq_refl trigger_overlay_click) as [H _].
Defined.

(** X18.  The focus around the form modal.  Opening it from a focused
    element moves the focus to the form's title and saves that element;
    after a cancellation, once the layer is unmounted (in the same turn
    under reduced motion, at the animation end otherwise), the focus is
    back on the element and no request is held. *)
Theorem form_focus_round_trip (reducedMotion : bool) (el : NodeRef) :
  let s := (scenario_opened reducedMotion (Some el)).2 in
  activeElement s = Some titleRef
  ∧ previousActiveElementRef s = Some el
  ∧ committed s
    = (Some {| render := FormModalRender; resolvePromise := 0 |}, true,
       vs_open)
  ∧ activeElement
      (run [EvControls [CallCancel]; EvAnimationEnd overlayNode] s)
    = Some el
  ∧ committed (run [EvControls [CallCancel]; EvAnimationEnd overlayNode] s)
    = (None, false, vs_unmounted).
Proof. destruct reducedMotion; repeat split; vm_compute; reflexivity. Qed.
